(** * dev.md: the Markdown response parser, the tool dispatcher, the command
    runner with its registry of background processes, the file tools, the
    auditor, the thinking step and the agent loop, embedded from the
    TypeScript sources and checked against the specification.

    Conventions of the embedding.
    - A JavaScript string is a list of code units.  Code units are [ascii]
      (0..255, the Latin-1 range of UTF-16); every character class below is
      the JavaScript one restricted to that range.
    - Effectful code is written in a state-and-exception monad over an
      abstract world; the leaf operations of the host (HTTP stream, file
      system, child processes, clock, terminal) are the fields of the
      [Platform] class.
    - Counters and lengths are [nat]; the numeric fields of the configuration
      are non-negative integers.
    - The lines written by [console.log] in the embedded files are recorded;
      the display functions of ui/display.ts and the spinner only draw on the
      terminal and their calls are left out. *)

From stdpp Require Import gmap strings.
From Stdlib Require Import Ascii String List Arith Bool Lia.
Import ListNotations.

Local Open Scope list_scope.
Local Open Scope nat_scope.

(** Strings are lists of code units; [lit] reads a literal. *)
Abbreviation str := (list ascii).

Definition lit (s : string) : str := list_ascii_of_string s.

(** ** JavaScript string primitives *)
Module JS.

Definition code (c : ascii) : nat := nat_of_ascii c.

Definition between (lo hi : nat) (c : ascii) : bool :=
  (lo <=? code c) && (code c <=? hi).

(** [\s] and the characters removed by [trim]: TAB, LF, VT, FF, CR, SP, NBSP. *)
Definition isSpace (c : ascii) : bool :=
  between 9 13 c || (code c =? 32) || (code c =? 160).

(** Line terminators: [.] does not match them, [^] and [$] of a multi-line
    pattern match next to them. *)
Definition isLineTerminator (c : ascii) : bool :=
  (code c =? 10) || (code c =? 13).

(** [\w] *)
Definition isWord (c : ascii) : bool :=
  between 97 122 c || between 65 90 c || between 48 57 c || (code c =? 95).

Definition nl : ascii := ascii_of_nat 10.

Fixpoint takeWhile {A} (p : A -> bool) (l : list A) : list A :=
  match l with
  | x :: l' => if p x then x :: takeWhile p l' else []
  | [] => []
  end.

Fixpoint dropWhile {A} (p : A -> bool) (l : list A) : list A :=
  match l with
  | x :: l' => if p x then dropWhile p l' else l
  | [] => []
  end.

Definition trimStart (s : str) : str := dropWhile isSpace s.
Definition trimEnd (s : str) : str := rev (dropWhile isSpace (rev s)).
Definition trim (s : str) : str := trimEnd (trimStart s).

Definition eqc (a b : ascii) : bool := Ascii.eqb a b.

Fixpoint eqs (a b : str) : bool :=
  match a, b with
  | [], [] => true
  | x :: a', y :: b' => eqc x y && eqs a' b'
  | _, _ => false
  end.

Fixpoint startsWith (p s : str) : bool :=
  match p, s with
  | [], _ => true
  | x :: p', y :: s' => eqc x y && startsWith p' s'
  | _ :: _, [] => false
  end.

(** [s.indexOf(needle)], counted from [i]. *)
Fixpoint indexOfFrom (needle s : str) (i : nat) : option nat :=
  if startsWith needle s then Some i
  else match s with
       | [] => None
       | _ :: s' => indexOfFrom needle s' (S i)
       end.

Definition indexOf (needle s : str) : option nat := indexOfFrom needle s 0.

Definition includes (needle s : str) : bool :=
  match indexOf needle s with Some _ => true | None => false end.

(** [s.lastIndexOf(needle)]: the last position where [needle] starts. *)
Fixpoint lastIndexOfFrom (needle s : str) (i : nat) (acc : option nat) : option nat :=
  let acc' := if startsWith needle s then Some i else acc in
  match s with
  | [] => acc'
  | _ :: s' => lastIndexOfFrom needle s' (S i) acc'
  end.

Definition lastIndexOf (needle s : str) : option nat :=
  lastIndexOfFrom needle s 0 None.

(** [s.slice(i)] and [s.slice(0, i)] for [0 <= i]. *)
Definition sliceFrom (i : nat) (s : str) : str := skipn i s.
Definition sliceTo (i : nat) (s : str) : str := firstn i s.

(** [s.split('\n')] *)
Fixpoint splitLines (s : str) : list str :=
  match s with
  | [] => [[]]
  | c :: s' =>
      if eqc c nl then [] :: splitLines s'
      else match splitLines s' with
           | l :: ls => (c :: l) :: ls
           | [] => [[c]]
           end
  end.

(** [parts.join(sep)] *)
Fixpoint join (sep : str) (parts : list str) : str :=
  match parts with
  | [] => []
  | [p] => p
  | p :: ps => p ++ sep ++ join sep ps
  end.

(** [toUpperCase] on the Latin-1 range: the sharp s becomes "SS"; the micro
    sign and y-diaeresis have upper-case forms outside the range and are
    kept (neither form is an ASCII letter). *)
Definition upperUnit (c : ascii) : str :=
  if between 97 122 c then [ascii_of_nat (code c - 32)]
  else if code c =? 223 then lit "SS"
  else if between 224 254 c && negb (code c =? 247) then [ascii_of_nat (code c - 32)]
  else [c].

Definition toUpperCase (s : str) : str := flat_map upperUnit s.

Definition lowerUnit (c : ascii) : ascii :=
  if between 65 90 c then ascii_of_nat (code c + 32)
  else if between 192 222 c && negb (code c =? 215) then ascii_of_nat (code c + 32)
  else c.

Definition toLowerCase (s : str) : str := map lowerUnit s.

(** Decimal rendering of a number inside a template literal. *)
Definition digit (d : nat) : ascii := ascii_of_nat (48 + d).

Fixpoint showNatFuel (fuel n : nat) (acc : str) : str :=
  match fuel with
  | 0 => acc
  | S fuel' =>
      let acc' := digit (n mod 10) :: acc in
      if n <? 10 then acc' else showNatFuel fuel' (n / 10) acc'
  end.

Definition showNat (n : nat) : str := showNatFuel (S n) n [].

End JS.

(** ** parser/markdown.ts *)
Module Parser.
Import JS.

Inductive ToolName :=
| LIST_DIRECTORY | READ_FILE | WRITE_FILE | FIND_AND_REPLACE_IN_FILE
| COMMAND | UPDATE_TASK_LIST | ASK_USER | DONE
| READ_BACKGROUND_PROCESS | LIST_BACKGROUND_PROCESSES | KILL_BACKGROUND_PROCESS.

Definition toolString (t : ToolName) : str :=
  match t with
  | LIST_DIRECTORY => lit "LIST_DIRECTORY"
  | READ_FILE => lit "READ_FILE"
  | WRITE_FILE => lit "WRITE_FILE"
  | FIND_AND_REPLACE_IN_FILE => lit "FIND_AND_REPLACE_IN_FILE"
  | COMMAND => lit "COMMAND"
  | UPDATE_TASK_LIST => lit "UPDATE_TASK_LIST"
  | ASK_USER => lit "ASK_USER"
  | DONE => lit "DONE"
  | READ_BACKGROUND_PROCESS => lit "READ_BACKGROUND_PROCESS"
  | LIST_BACKGROUND_PROCESSES => lit "LIST_BACKGROUND_PROCESSES"
  | KILL_BACKGROUND_PROCESS => lit "KILL_BACKGROUND_PROCESS"
  end.

Definition TOOL_NAMES : list ToolName :=
  [ LIST_DIRECTORY; READ_FILE; WRITE_FILE; FIND_AND_REPLACE_IN_FILE;
    COMMAND; UPDATE_TASK_LIST; ASK_USER; DONE;
    READ_BACKGROUND_PROCESS; LIST_BACKGROUND_PROCESSES; KILL_BACKGROUND_PROCESS ].

Definition isDone (t : ToolName) : bool :=
  match t with DONE => true | _ => false end.

(** [TOOL_NAMES.includes(s)], returning the name that was found. *)
Definition toolNamed (s : str) : option ToolName :=
  find (fun t => eqs (toolString t) s) TOOL_NAMES.

Inductive TaskStatus := pending | in_progress | complete.

Record TaskItem := { status : TaskStatus; text : str }.

Record ToolCall := { toolChoice : ToolName; toolInput : str }.

Record ParsedResponse := {
  thoughts : str;
  taskList : list TaskItem;
  tools : list ToolCall;
  raw : str;
  firstToolChoice : ToolName;   (* the accessor [toolChoice] of the response *)
  firstToolInput : str          (* the accessor [toolInput] of the response *)
}.

(** The values [currentSection] takes: the empty string and the four names. *)
Inductive SectionName := noSection | thoughtsSec | taskListSec | toolChoiceSec | toolInputSec.

Definition backtick : ascii := ascii_of_nat 96.
Definition tilde : ascii := ascii_of_nat 126.

Definition isFenceChar (c : ascii) : bool := eqc c backtick || eqc c tilde.

(** The mutable locals of [parseResponse]. *)
Record PState := {
  st_thoughts : str;
  st_taskList : list TaskItem;
  st_tools : list ToolCall;
  currentSection : SectionName;
  currentTool : option ToolName;
  currentInput : str;
  inCodeBlock : bool;
  fenceChar : option ascii;      (* [None] is the initial empty string *)
  fenceLen : nat
}.

Definition initial : PState :=
  {| st_thoughts := []; st_taskList := []; st_tools := [];
     currentSection := noSection; currentTool := None; currentInput := [];
     inCodeBlock := false; fenceChar := None; fenceLen := 0 |}.

Definition finishCurrentTool (st : PState) : PState :=
  match currentTool st with
  | Some t =>
      {| st_thoughts := st_thoughts st; st_taskList := st_taskList st;
         st_tools := st_tools st ++ [{| toolChoice := t; toolInput := trim (currentInput st) |}];
         currentSection := currentSection st; currentTool := None; currentInput := [];
         inCodeBlock := inCodeBlock st; fenceChar := fenceChar st; fenceLen := fenceLen st |}
  | None => st
  end.

(** [line.match(/^([`~]{3,})/)]: the captured run. *)
Definition fenceMatch (line : str) : option str :=
  let run := takeWhile isFenceChar line in
  if 3 <=? length run then Some run else None.

(** [s.match(/^[`~]+$/)] *)
Definition onlyFenceChars (s : str) : bool :=
  match s with [] => false | _ => forallb isFenceChar s end.

Definition sameChar (c : option ascii) (d : option ascii) : bool :=
  match c, d with
  | Some a, Some b => eqc a b
  | None, None => true
  | _, _ => false
  end.

Definition isClosingFence (st : PState) (line run : str) : bool :=
  sameChar (head run) (fenceChar st)
  && (fenceLen st <=? length run)
  && onlyFenceChars (trim line).

Definition setFence (st : PState) (b : bool) (c : option ascii) (n : nat) : PState :=
  {| st_thoughts := st_thoughts st; st_taskList := st_taskList st; st_tools := st_tools st;
     currentSection := currentSection st; currentTool := currentTool st;
     currentInput := currentInput st;
     inCodeBlock := b; fenceChar := c; fenceLen := n |}.

(** The fence tracking at the top of the loop body. *)
Definition trackFence (st : PState) (line : str) : PState :=
  match fenceMatch line with
  | Some run =>
      if negb (inCodeBlock st) then setFence st true (head run) (length run)
      else if isClosingFence st line run then setFence st false (fenceChar st) 0
      else st
  | None => st
  end.

Definition enter (st : PState) (s : SectionName) : PState :=
  {| st_thoughts := st_thoughts st; st_taskList := st_taskList st; st_tools := st_tools st;
     currentSection := s; currentTool := currentTool st; currentInput := currentInput st;
     inCodeBlock := false; fenceChar := fenceChar st; fenceLen := fenceLen st |}.

Definition isToolChoiceHeader (line : str) : bool := startsWith (lit "## Tool Choice") line.
Definition isToolInputHeader (line : str) : bool := startsWith (lit "## Tool Input") line.

Definition isToolInputSec (s : SectionName) : bool :=
  match s with toolInputSec => true | _ => false end.

Definition shouldRecognizeHeader (st : PState) (line : str) : bool :=
  negb (inCodeBlock st)
  || (isToolInputSec (currentSection st) && (isToolChoiceHeader line || isToolInputHeader line)).

(** The header tests; [Some st'] is the [continue] taken with state [st']. *)
Definition header (st : PState) (line : str) : option PState :=
  if shouldRecognizeHeader st line then
    if startsWith (lit "## Thoughts") line then Some (enter (finishCurrentTool st) thoughtsSec)
    else if startsWith (lit "## Task List") line then Some (enter (finishCurrentTool st) taskListSec)
    else if isToolChoiceHeader line then Some (enter (finishCurrentTool st) toolChoiceSec)
    else if isToolInputHeader line then Some (enter st toolInputSec)
    else None
  else None.

(** [line.match(/^\[([x~\s])\]\s*(.+)$/i)]: the groups 1 and 2.  After the
    greedy [\s*] the rest must be free of line terminators up to the end of
    the line; when nothing is left, [\s*] gives its last character back. *)
Definition isStatusChar (c : ascii) : bool :=
  eqc c "x" || eqc c "X" || eqc c tilde || isSpace c.

Definition taskMatch (line : str) : option (ascii * str) :=
  match line with
  | open :: c :: close :: rest =>
      if eqc open "[" && isStatusChar c && eqc close "]" then
        match dropWhile isSpace rest with
        | [] =>
            match rev (takeWhile isSpace rest) with
            | w :: _ => if isLineTerminator w then None else Some (c, [w])
            | [] => None
            end
        | tail => if forallb (fun d => negb (isLineTerminator d)) tail
                  then Some (c, tail) else None
        end
      else None
  | _ => None
  end.

Definition statusOf (c : ascii) : TaskStatus :=
  if eqc c "x" then complete else if eqc c tilde then in_progress else pending.

(** The [switch (currentSection)] at the bottom of the loop body. *)
Definition collect (st : PState) (line : str) : PState :=
  match currentSection st with
  | thoughtsSec =>
      {| st_thoughts := st_thoughts st ++ (match st_thoughts st with [] => [] | _ => [nl] end) ++ line;
         st_taskList := st_taskList st; st_tools := st_tools st;
         currentSection := currentSection st; currentTool := currentTool st;
         currentInput := currentInput st;
         inCodeBlock := inCodeBlock st; fenceChar := fenceChar st; fenceLen := fenceLen st |}
  | taskListSec =>
      match taskMatch line with
      | Some (c, t) =>
          {| st_thoughts := st_thoughts st;
             st_taskList := st_taskList st ++ [{| status := statusOf c; text := trim t |}];
             st_tools := st_tools st;
             currentSection := currentSection st; currentTool := currentTool st;
             currentInput := currentInput st;
             inCodeBlock := inCodeBlock st; fenceChar := fenceChar st; fenceLen := fenceLen st |}
      | None => st
      end
  | toolChoiceSec =>
      match currentTool st with
      | None =>
          match toolNamed (toUpperCase (trim line)) with
          | Some t =>
              {| st_thoughts := st_thoughts st; st_taskList := st_taskList st;
                 st_tools := st_tools st;
                 currentSection := currentSection st; currentTool := Some t;
                 currentInput := currentInput st;
                 inCodeBlock := inCodeBlock st; fenceChar := fenceChar st; fenceLen := fenceLen st |}
          | None => st
          end
      | Some _ => st
      end
  | toolInputSec =>
      {| st_thoughts := st_thoughts st; st_taskList := st_taskList st; st_tools := st_tools st;
         currentSection := currentSection st; currentTool := currentTool st;
         currentInput := currentInput st ++ (match currentInput st with [] => [] | _ => [nl] end) ++ line;
         inCodeBlock := inCodeBlock st; fenceChar := fenceChar st; fenceLen := fenceLen st |}
  | noSection => st
  end.

(** One iteration of [for (const line of lines)]. *)
Definition step (st : PState) (line : str) : PState :=
  let st1 := trackFence st line in
  match header st1 line with
  | Some st2 => st2
  | None => collect st1 line
  end.

Definition marker : str := lit "# Agent Response".

Definition parseResponse (fullResponse : str) : option ParsedResponse :=
  match lastIndexOf marker fullResponse with
  | None => None
  | Some lastIdx =>
      let section := sliceFrom lastIdx fullResponse in
      let lines := splitLines section in
      let st := finishCurrentTool (fold_left step lines initial) in
      match st_tools st with
      | [] => None
      | t :: _ =>
          Some {| thoughts := trim (st_thoughts st);
                  taskList := st_taskList st;
                  tools := st_tools st;
                  raw := section;
                  firstToolChoice := toolChoice t;
                  firstToolInput := toolInput t |}
      end
  end.

(** *** The auxiliary extractors *)

Definition dquote : ascii := ascii_of_nat 34.

(** [input.match(/^Q([^Q]+)Q|^([^\n]+)/)] with Q the double quote, then
    [(match?.[1] || match?.[2] || '').trim()]. *)
Definition extractPath (input : str) : str :=
  let notQuote := fun c => negb (eqc c dquote) in
  let quoted :=
    match input with
    | q :: rest =>
        if eqc q dquote then
          match takeWhile notQuote rest, dropWhile notQuote rest with
          | (_ :: _) as body, _ :: _ => Some body
          | _, _ => None
          end
        else None
    | [] => None
    end in
  match quoted with
  | Some body => trim body
  | None => trim (takeWhile (fun c => negb (eqc c nl)) input)
  end.

(** The index of the last line terminator of a whitespace run. *)
Fixpoint lastTerminator (ws : str) (i : nat) (acc : option nat) : option nat :=
  match ws with
  | [] => acc
  | c :: ws' => lastTerminator ws' (S i) (if isLineTerminator c then Some i else acc)
  end.

(** The length matched by a greedy [\s*$] of a multi-line pattern at the
    start of [s]: the whole whitespace run when the input ends after it,
    otherwise the run up to its last line terminator; no match when the run
    is followed by text on the same line. *)
Definition matchEol (s : str) : option nat :=
  match dropWhile isSpace s with
  | [] => Some (length (takeWhile isSpace s))
  | _ :: _ => lastTerminator (takeWhile isSpace s) 0 None
  end.

(** [/^([`~]{3,})\w*\s*$/im] tried at one position: the first character of
    group 1 and the length of the whole match. *)
Definition openFenceAt (s : str) : option (ascii * nat) :=
  match takeWhile isFenceChar s with
  | (c :: _) as run =>
      if 3 <=? length run then
        let s1 := dropWhile isFenceChar s in
        match matchEol (dropWhile isWord s1) with
        | Some k => Some (c, length run + length (takeWhile isWord s1) + k)
        | None => None
        end
      else None
  | [] => None
  end.

(** [input.match(fencePattern)]: the leftmost position where the pattern
    matches; [^] holds at the start and after a line terminator. *)
Fixpoint findOpenFence (s : str) (atLineStart : bool) (i : nat) : option (nat * ascii * nat) :=
  match (if atLineStart then openFenceAt s else None) with
  | Some (c, n) => Some (i, c, n)
  | None =>
      match s with
      | [] => None
      | c :: s' => findOpenFence s' (isLineTerminator c) (S i)
      end
  end.

(** [new RegExp(`^${fenceChar}{3,}\\s*$`, 'gm')] tried at one position: the
    length of the match. *)
Definition closeFenceAt (fc : ascii) (s : str) : option nat :=
  let run := takeWhile (eqc fc) s in
  if 3 <=? length run then
    match matchEol (dropWhile (eqc fc) s) with
    | Some k => Some (length run + k)
    | None => None
    end
  else None.

(** The [while ((match = closePattern.exec(remaining)) !== null)] loop:
    [skip] characters remain before [lastIndex], [acc] is [lastMatch.index]. *)
Fixpoint lastCloseFence (fc : ascii) (s : str) (atLineStart : bool) (skip i : nat)
    (acc : option nat) : option nat :=
  match s with
  | [] => acc
  | c :: s' =>
      match skip with
      | S k => lastCloseFence fc s' (isLineTerminator c) k (S i) acc
      | 0 =>
          match (if atLineStart then closeFenceAt fc s else None) with
          | Some n => lastCloseFence fc s' (isLineTerminator c) (n - 1) (S i) (Some i)
          | None => lastCloseFence fc s' (isLineTerminator c) 0 (S i) acc
          end
      end
  end.

(** [extractCodeBlock(input)], as every caller invokes it (no [lang]). *)
Definition extractCodeBlock (input : str) : option str :=
  match findOpenFence input true 0 with
  | None => None
  | Some (index, fc, n) =>
      let startIdx := index + n + 1 in
      let remaining := sliceFrom startIdx input in
      match lastCloseFence fc remaining true 0 0 None with
      | None => None
      | Some idx => Some (trimEnd (sliceTo idx remaining))
      end
  end.

(** Prefix test under the [i] flag. *)
Definition startsWithCI (p s : str) : bool :=
  startsWith (toLowerCase p) (toLowerCase (firstn (length p) s)).

Fixpoint indexOfCI (needle s : str) (i : nat) : option nat :=
  if startsWithCI needle s then Some i
  else match s with
       | [] => None
       | _ :: s' => indexOfCI needle s' (S i)
       end.

(** [input.match(/```<tag>\n([\s\S]*?)```/i)]: group 1. *)
Definition taggedBlock (tag input : str) : option str :=
  let opener := lit "```" ++ tag ++ [nl] in
  match indexOfCI opener input 0 with
  | None => None
  | Some p =>
      let rest := sliceFrom (p + length opener) input in
      match indexOf (lit "```") rest with
      | None => None
      | Some q => Some (sliceTo q rest)
      end
  end.

Record FindReplace := { find : str; replace : str }.

Definition extractFindReplace (input : str) : option FindReplace :=
  match taggedBlock (lit "find") input, taggedBlock (lit "replace") input with
  | Some f, Some r => Some {| find := trimEnd f; replace := trimEnd r |}
  | _, _ => None
  end.

Definition extractCommandInput (input : str) : str :=
  match extractCodeBlock input with
  | Some codeBlock => codeBlock
  | None => input
  end.

End Parser.

(** ** sessions/index.ts: the session record and the token estimate *)
Module Sessions.

Inductive Role := system | user | assistant.

Record Message := { role : Role; content : str }.

Record Compression := { timestamp : str; tokensBefore : nat; tokensAfter : nat }.

Record Session := {
  id : str;
  createdAt : str;
  updatedAt : str;
  workingDirectory : str;
  originalPrompt : str;
  taskList : list Parser.TaskItem;
  history : list Message;
  totalTokens : nat;
  compressions : list Compression
}.

Definition withHistory (s : Session) (h : list Message) : Session :=
  {| id := id s; createdAt := createdAt s; updatedAt := updatedAt s;
     workingDirectory := workingDirectory s; originalPrompt := originalPrompt s;
     taskList := taskList s; history := h; totalTokens := totalTokens s;
     compressions := compressions s |}.

Definition withTaskList (s : Session) (t : list Parser.TaskItem) : Session :=
  {| id := id s; createdAt := createdAt s; updatedAt := updatedAt s;
     workingDirectory := workingDirectory s; originalPrompt := originalPrompt s;
     taskList := t; history := history s; totalTokens := totalTokens s;
     compressions := compressions s |}.

Definition withTotalTokens (s : Session) (n : nat) : Session :=
  {| id := id s; createdAt := createdAt s; updatedAt := updatedAt s;
     workingDirectory := workingDirectory s; originalPrompt := originalPrompt s;
     taskList := taskList s; history := history s; totalTokens := n;
     compressions := compressions s |}.

Definition withUpdatedAt (s : Session) (t : str) : Session :=
  {| id := id s; createdAt := createdAt s; updatedAt := t;
     workingDirectory := workingDirectory s; originalPrompt := originalPrompt s;
     taskList := taskList s; history := history s; totalTokens := totalTokens s;
     compressions := compressions s |}.

Definition withCompressions (s : Session) (c : list Compression) : Session :=
  {| id := id s; createdAt := createdAt s; updatedAt := updatedAt s;
     workingDirectory := workingDirectory s; originalPrompt := originalPrompt s;
     taskList := taskList s; history := history s; totalTokens := totalTokens s;
     compressions := c |}.

(** [Math.ceil(messages.reduce((acc, m) => acc + m.content.length, 0) / 4)] *)
Definition estimateTokens (messages : list Message) : nat :=
  (fold_left (fun acc m => acc + length (content m)) messages 0 + 3) / 4.

End Sessions.

(** ** config/index.ts: the fields the core reads *)
Module Config.

Record Config := {
  maxContextTokens : nat;
  commandTimeout : nat;
  maxRetries : nat;
  maxRetriesAutomated : nat;
  maxLoops : nat
}.


End Config.

(** ** Effects: state, exceptions, the console and the host platform *)
Module Eff.

Inductive Res (A : Type) : Type :=
| Ok (a : A)
| Throw (message : str).
Arguments Ok {A} a.
Arguments Throw {A} message.

(** The colours of ui/colors.ts that the core uses. *)
Inductive Color := plain | red | yellow | dim | cyan | magenta | success.

Record LogLine := { color : Color; line : str }.

(** The leaf operations of the host, over an abstract world [W]. *)
Class Platform (W : Type) := {
  (* agent/api.ts: the streamed completion, silent or not; throws on a
     transport or API error *)
  streamCompletion : list Sessions.Message -> bool -> W -> Res str * W;
  (* ui/spinner.ts *)
  getTokenCount : W -> nat;
  (* tools/filesystem.ts *)
  listDirectory : str -> str -> W -> Res str * W;
  readFile : str -> str -> W -> Res str * W;
  writeFile : str -> str -> str -> W -> Res str * W;
  findAndReplace : str -> str -> str -> str -> W -> Res str * W;
  (* tools/command.ts, as its callers see it: the awaited promise of
     [executeCommand] and the registry operations *)
  executeCommand : str -> str -> W -> Res str * W;
  readBackgroundProcess : str -> W -> Res str * W;
  listBackgroundProcesses : W -> Res str * W;
  killBackgroundProcess : str -> W -> Res str * W;
  (* readline: [rl.question] *)
  question : str -> W -> Res str * W;
  (* [new Date().toISOString()] *)
  toISOString : W -> str * W;
  (* config/index.ts [ensureDirs], and the file writes of [saveSession] *)
  ensureDirs : W -> Res unit * W;
  writeSessionFiles : Sessions.Session -> W -> Res unit * W;
  (* agent/prompt.ts: the prompt texts *)
  buildSystemPrompt : bool -> str -> W -> str;
  COMPRESSION_PROMPT : str;
  buildAuditPrompt : str -> str -> str -> str
}.

(** What a run threads along: the world, the lines written by
    [console.log], and the one [Session] object every callee shares.
    [llmCalls] is a ghost counter: the number of times the body of the agent
    loop has called [streamCompletion] for a turn. *)
Record State (W : Type) := {
  world : W;
  console : list LogLine;
  session : Sessions.Session;
  llmCalls : nat
}.
Arguments world {W} _.
Arguments console {W} _.
Arguments session {W} _.
Arguments llmCalls {W} _.

Definition M (W A : Type) : Type := State W -> Res A * State W.

Definition ret {W A} (a : A) : M W A := fun s => (Ok a, s).

Definition throw {W A} (message : str) : M W A := fun s => (Throw message, s).

Definition bind {W A B} (m : M W A) (k : A -> M W B) : M W B :=
  fun s => match m s with
           | (Ok a, s') => k a s'
           | (Throw e, s') => (Throw e, s')
           end.

(** [try { m } catch (e) { handler(e.message) }] *)
Definition tryCatch {W A} (m : M W A) (handler : str -> M W A) : M W A :=
  fun s => match m s with
           | (Ok a, s') => (Ok a, s')
           | (Throw e, s') => handler e s'
           end.

Definition io {W A} (f : W -> Res A * W) : M W A :=
  fun s => let (r, w) := f (world s) in
           (r, {| world := w; console := console s; session := session s;
                  llmCalls := llmCalls s |}).

Definition pureIo {W A} (f : W -> A * W) : M W A :=
  fun s => let (a, w) := f (world s) in
           (Ok a, {| world := w; console := console s; session := session s;
                     llmCalls := llmCalls s |}).

Definition ask {W A} (f : W -> A) : M W A := fun s => (Ok (f (world s)), s).

Definition consoleLog {W} (c : Color) (text : str) : M W unit :=
  fun s => (Ok tt, {| world := world s;
                      console := console s ++ [{| color := c; line := text |}];
                      session := session s; llmCalls := llmCalls s |}).

Definition getSession {W} : M W Sessions.Session := fun s => (Ok (session s), s).

Definition modifySession {W} (f : Sessions.Session -> Sessions.Session) : M W unit :=
  fun s => (Ok tt, {| world := world s; console := console s; session := f (session s);
                      llmCalls := llmCalls s |}).

Definition countCall {W} : M W unit :=
  fun s => (Ok tt, {| world := world s; console := console s; session := session s;
                      llmCalls := S (llmCalls s) |}).

(** The outcome of [m] as a value: the body of a [try] whose handler
    inspects the error. *)
Definition attempt {W A} (m : M W A) : M W (Res A) :=
  fun s => let (r, s') := m s in (Ok r, s').

End Eff.

Declare Scope eff_scope.
Delimit Scope eff_scope with eff.
Notation "x <- m ;; k" := (Eff.bind m (fun x => k))
  (at level 100, m at next level, right associativity) : eff_scope.
Notation "m ;; k" := (Eff.bind m (fun _ => k))
  (at level 100, right associativity) : eff_scope.

(** ** tools/interaction.ts and tools/index.ts *)
Module Tools.
Import JS Parser Eff.
Local Open Scope eff_scope.

Record ToolContext := { cwd : str; automated : bool }.

Section WithPlatform.
Context {W : Type} `{Platform W}.

Definition askUser (q : str) (automated : bool) : M W str :=
  if automated then ret (lit "ERROR: ASK_USER is disabled in automated mode (-p)")
  else
    consoleLog plain ([nl] ++ lit "Agent is asking:" ++ [nl] ++ q ++ [nl]) ;;
    answer <- io (question (lit "Your response: ")) ;;
    ret (match answer with [] => lit "(no response)" | _ => answer end).

Definition updateTaskList : str := lit "Task list updated".

Definition done (summary : str) : str :=
  match summary with [] => lit "No summary provided" | _ => summary end.

(** [a || b] on strings *)
Definition orElse (a b : str) : str :=
  match a with [] => b | _ => a end.

Definition executeTool (tool : ToolName) (input : str) (ctx : ToolContext) : M W str :=
  let path := extractPath input in
  match tool with
  | LIST_DIRECTORY => io (listDirectory path (cwd ctx))
  | READ_FILE => io (readFile path (cwd ctx))
  | WRITE_FILE =>
      match extractCodeBlock input with
      | None | Some [] => ret (lit "ERROR: No code block found for WRITE_FILE")
      | Some content => io (writeFile path content (cwd ctx))
      end
  | FIND_AND_REPLACE_IN_FILE =>
      match extractFindReplace input with
      | None => ret (lit "ERROR: Missing find/replace code blocks")
      | Some fr => io (findAndReplace path (find fr) (replace fr) (cwd ctx))
      end
  | COMMAND => io (executeCommand (extractCommandInput input) (cwd ctx))
  | UPDATE_TASK_LIST => ret updateTaskList
  | ASK_USER => askUser input (automated ctx)
  | DONE => ret (done input)
  | READ_BACKGROUND_PROCESS => io (readBackgroundProcess (orElse path (trim input)))
  | LIST_BACKGROUND_PROCESSES => io listBackgroundProcesses
  | KILL_BACKGROUND_PROCESS => io (killBackgroundProcess (orElse path (trim input)))
  end.

End WithPlatform.

End Tools.

(** ** tools/command.ts: one invocation of [executeCommand] as the reaction
    of its callbacks to the events of the child process and of the timer *)
Module Command.
Import JS.

Record BackgroundProcess := {
  id : str;
  command : str;
  output : str;
  exitCode : option nat;      (* [None] is [null] *)
  startedAt : str
}.

(** [n.toString(36)] *)
Definition digit36 (d : N) : ascii :=
  if (d <? 10)%N then ascii_of_N (48 + d) else ascii_of_N (87 + d).

Fixpoint toString36Fuel (fuel : nat) (n : N) (acc : str) : str :=
  match fuel with
  | 0 => acc
  | S fuel' =>
      let acc' := digit36 (n mod 36)%N :: acc in
      if (n <? 36)%N then acc' else toString36Fuel fuel' (n / 36)%N acc'
  end.

Definition toString36 (n : N) : str := toString36Fuel (S (N.size_nat n)) n [].

(** What the event loop can deliver to the callbacks of one invocation. *)
Inductive Event :=
| Data (chunk : str)                     (* stdout or stderr [data] *)
| TimerFires (nowMs : N) (date : str)    (* the [setTimeout] callback is due *)
| Close (code : option nat)              (* [close]; [None] is a [null] code *)
| Error (message : str).                 (* [error] *)

(** The closure variables of one invocation, the module-level registry and
    counter, and the calls made to the promise's [resolve]. *)
Record Invocation := {
  theCommand : str;
  timeoutSeconds : nat;
  out : str;                              (* [output] *)
  resolved : bool;
  timerArmed : bool;                      (* set by [setTimeout], reset by [clearTimeout] and by firing *)
  promotedAs : option str;                (* the id captured by the second [close] listener *)
  processes : gmap str BackgroundProcess;
  procCounter : nat;
  resolveCalls : list str                 (* the arguments of every call to [resolve], in order *)
}.

Definition start (cmd : str) (timeoutSeconds : nat)
    (registry : gmap str BackgroundProcess) (counter : nat) : Invocation :=
  {| theCommand := cmd; timeoutSeconds := timeoutSeconds; out := [];
     resolved := false; timerArmed := true; promotedAs := None;
     processes := registry; procCounter := counter; resolveCalls := [] |}.

(** [genId] with the clock reading [nowMs] of [Date.now()]. *)
Definition genId (counter : nat) (nowMs : N) : str :=
  let stamp := toString36 nowMs in
  lit "proc_" ++ toString36 (N.of_nat counter) ++ skipn (length stamp - 4) stamp.

Definition showCode (code : option nat) : str :=
  match code with Some n => showNat n | None => lit "null" end.

Definition clearTimeout (s : Invocation) : Invocation :=
  {| theCommand := theCommand s; timeoutSeconds := timeoutSeconds s; out := out s;
     resolved := resolved s; timerArmed := false; promotedAs := promotedAs s;
     processes := processes s; procCounter := procCounter s;
     resolveCalls := resolveCalls s |}.

(** [resolved = true; resolve(value)] *)
Definition resolveWith (s : Invocation) (value : str) : Invocation :=
  {| theCommand := theCommand s; timeoutSeconds := timeoutSeconds s; out := out s;
     resolved := true; timerArmed := timerArmed s; promotedAs := promotedAs s;
     processes := processes s; procCounter := procCounter s;
     resolveCalls := resolveCalls s ++ [value] |}.

(** The callback passed to [setTimeout]. *)
Definition onTimeout (s : Invocation) (nowMs : N) (date : str) : Invocation :=
  if resolved s then s
  else
    let counter := S (procCounter s) in
    let pid := genId counter nowMs in
    let entry := {| id := pid; command := theCommand s; output := out s;
                    exitCode := None; startedAt := date |} in
    resolveWith
      {| theCommand := theCommand s; timeoutSeconds := timeoutSeconds s; out := out s;
         resolved := resolved s; timerArmed := timerArmed s; promotedAs := Some pid;
         processes := <[pid := entry]> (processes s); procCounter := counter;
         resolveCalls := resolveCalls s |}
      (lit "Command timed out after " ++ showNat (timeoutSeconds s)
         ++ lit "s. Backgrounded as: " ++ pid).

(** The first [close] listener. *)
Definition onClose (s : Invocation) (code : option nat) : Invocation :=
  let s := clearTimeout s in
  if resolved s then s
  else resolveWith s
         (match code with
          | Some 0 => match out s with [] => lit "(no output)" | _ => out s end
          | _ => lit "Exit code " ++ showCode code ++ [nl] ++ out s
          end).

(** The [close] listener added by the timeout callback. *)
Definition onCloseOfPromoted (s : Invocation) (code : option nat) : Invocation :=
  match promotedAs s with
  | Some pid =>
      match processes s !! pid with
      | Some p =>
          {| theCommand := theCommand s; timeoutSeconds := timeoutSeconds s; out := out s;
             resolved := resolved s; timerArmed := timerArmed s; promotedAs := promotedAs s;
             processes := <[pid := {| id := id p; command := command p; output := out s;
                                      exitCode := code; startedAt := startedAt p |}]> (processes s);
             procCounter := procCounter s; resolveCalls := resolveCalls s |}
      | None => s
      end
  | None => s
  end.

(** The [error] listener. *)
Definition onError (s : Invocation) (message : str) : Invocation :=
  let s := clearTimeout s in
  if resolved s then s
  else resolveWith s (lit "Error: " ++ message).

Definition onData (s : Invocation) (chunk : str) : Invocation :=
  {| theCommand := theCommand s; timeoutSeconds := timeoutSeconds s; out := out s ++ chunk;
     resolved := resolved s; timerArmed := timerArmed s; promotedAs := promotedAs s;
     processes := processes s; procCounter := procCounter s;
     resolveCalls := resolveCalls s |}.

(** Delivery of one event: a timer fires once and only while armed; on
    [close] the listeners run in the order they were added. *)
Definition deliver (s : Invocation) (e : Event) : Invocation :=
  match e with
  | Data chunk => onData s chunk
  | TimerFires nowMs date =>
      if timerArmed s then onTimeout (clearTimeout s) nowMs date else s
  | Close code => onCloseOfPromoted (onClose s code) code
  | Error message => onError s message
  end.

Definition run (s : Invocation) (events : list Event) : Invocation :=
  fold_left deliver events s.

(** The value the awaited promise settles to: the first call wins. *)
Definition result (s : Invocation) : option str := head (resolveCalls s).

Definition isResolution (e : Event) : bool :=
  match e with Data _ => false | _ => true end.

(** [readBackgroundProcess] *)
Definition readBackgroundProcess (registry : gmap str BackgroundProcess) (pid : str) : str :=
  match registry !! pid with
  | None => lit "Process not found: " ++ pid
  | Some proc =>
      let status := match exitCode proc with
                    | Some code => lit "Exited (" ++ showNat code ++ lit ")"
                    | None => lit "Running"
                    end in
      lit "[" ++ pid ++ lit "] " ++ status ++ [nl] ++ lit "Command: " ++ command proc
        ++ [nl; nl] ++ (match output proc with [] => lit "(no output yet)" | o => o end)
  end.

(** [isAuditAllowed]: the allow-list patterns, tried on [cmd.trim()]. *)
Definition wordBoundary (rest : str) : bool :=
  match rest with [] => true | c :: _ => negb (isWord c) end.

Definition afterWord (w s : str) : option str :=
  if startsWith w s then Some (skipn (length w) s) else None.

Definition spaceNext (s : str) : bool :=
  match s with c :: _ => isSpace c | [] => false end.

(** [/^w\s/] *)
Definition wordThenSpace (w s : str) : bool :=
  match afterWord w s with Some rest => spaceNext rest | None => false end.

(** [/^w\b/] *)
Definition wordThenBoundary (w s : str) : bool :=
  match afterWord w s with Some rest => wordBoundary rest | None => false end.

(** [/^w\s+(a|b|...)\b/] *)
Definition wordSpacesOneOf (w : str) (alts : list (str -> bool)) (s : str) : bool :=
  match afterWord w s with
  | Some rest => spaceNext rest && existsb (fun alt => alt (dropWhile isSpace rest)) alts
  | None => false
  end.

Definition isAuditAllowed (cmd : str) : bool :=
  let t := trim cmd in
  wordThenSpace (lit "cat") t || wordThenSpace (lit "head") t || wordThenSpace (lit "tail") t
  || wordThenBoundary (lit "ls") t || wordThenBoundary (lit "dir") t
  || wordThenBoundary (lit "tree") t
  || wordSpacesOneOf (lit "git")
       [wordThenBoundary (lit "status"); wordThenBoundary (lit "diff"); wordThenBoundary (lit "log")] t
  || wordSpacesOneOf (lit "npm")
       [wordThenBoundary (lit "test");
        wordSpacesOneOf (lit "run") [wordThenBoundary (lit "build")]] t
  || wordThenSpace (lit "type") t.

End Command.

(** ** agent/audit.ts *)
Module Audit.
Import JS Parser Eff.
Local Open Scope eff_scope.

Record AuditResult := { passed : bool; feedback : str }.

Definition statusMark (t : TaskItem) : str :=
  match status t with
  | complete => lit "x"
  | in_progress => lit "~"
  | pending => lit " "
  end.

(** [`[${mark}] ${t.text}`] *)
Definition renderTask (t : TaskItem) : str :=
  lit "[" ++ statusMark t ++ lit "] " ++ text t.

(** The [case 'DONE'] of the audit switch. *)
Definition doneVerdict (parsed : ParsedResponse) : AuditResult :=
  let feedback := Tools.orElse (firstToolInput parsed) (thoughts parsed) in
  {| passed := negb (includes (lit "fail") (toLowerCase feedback));
     feedback := feedback |}.

(** The branch taken when the response does not parse. *)
Definition unparsedVerdict (response : str) : AuditResult :=
  let passMatch := includes (lit "overall: pass") (toLowerCase response) in
  let failMatch := includes (lit "overall: fail") (toLowerCase response) in
  if passMatch then {| passed := true; feedback := response |}
  else if failMatch then {| passed := false; feedback := response |}
  else {| passed := true; feedback := response |}.

Section WithPlatform.
Context {W : Type} `{Platform W}.

Definition push (messages : list Sessions.Message) (r : Sessions.Role) (c : str) :=
  messages ++ [{| Sessions.role := r; Sessions.content := c |}].

(** [while (loops++ < 20)], [remaining] iterations left. *)
Fixpoint auditLoop (remaining : nat) (cwd : str) (messages : list Sessions.Message)
    : M W AuditResult :=
  match remaining with
  | 0 => ret {| passed := true; feedback := lit "Audit completed (max iterations reached)" |}
  | S remaining' =>
      response <- io (streamCompletion messages false) ;;
      match parseResponse response with
      | None => ret (unparsedVerdict response)
      | Some parsed =>
          let messages := push messages Sessions.assistant (raw parsed) in
          let continueWith (result : str) :=
            auditLoop remaining' cwd
              (push messages Sessions.user (lit "Tool result:" ++ [nl] ++ result)) in
          match firstToolChoice parsed with
          | LIST_DIRECTORY =>
              result <- io (listDirectory (extractPath (firstToolInput parsed)) cwd) ;;
              continueWith result
          | READ_FILE =>
              result <- io (readFile (extractPath (firstToolInput parsed)) cwd) ;;
              continueWith result
          | COMMAND =>
              let cmd := extractCommandInput (firstToolInput parsed) in
              if negb (Command.isAuditAllowed cmd)
              then continueWith (lit "ERROR: Command not allowed in audit mode: " ++ cmd)
              else result <- io (executeCommand cmd cwd) ;; continueWith result
          | DONE => ret (doneVerdict parsed)
          | other =>
              continueWith (lit "Tool " ++ toolString other ++ lit " not available in audit mode")
          end
      end
  end.

Definition runAudit (session : Sessions.Session) (doneSummary : str) (verbose : bool)
    : M W AuditResult :=
  (if verbose then consoleLog magenta ([nl] ++ lit "  Running audit agent..." ++ [nl])
   else ret tt) ;;
  let taskListText :=
    Tools.orElse (join [nl] (map renderTask (Sessions.taskList session))) (lit "(no tasks)") in
  let systemPrompt :=
    buildAuditPrompt (Sessions.originalPrompt session) taskListText doneSummary in
  auditLoop 20 (Sessions.workingDirectory session)
    [{| Sessions.role := Sessions.system; Sessions.content := systemPrompt |}].

End WithPlatform.

End Audit.

(** ** ui/thinking.ts: the reflection step *)
Module Thinking.
Import JS Eff.
Local Open Scope eff_scope.

Definition THINKING_PROMPT : str := lit
"You are a reasoning assistant. Your job is to think carefully about the current situation and what to do next.

Given the tool result below, think step-by-step about:
1. What did we learn from this result?
2. Are there any errors or unexpected outcomes to address?
3. What should we do next and why?
4. Are we making progress toward the goal?

Be concise but thorough. Focus on insights that will help make the next decision.

DO NOT output any tool calls or action format. Just think out loud.".

Record ThinkingResult := { thinking : str; tokens : nat }.

Section WithPlatform.
Context {W : Type} `{Platform W}.

Definition performThinking (context toolResult : str) : M W ThinkingResult :=
  let messages :=
    [ {| Sessions.role := Sessions.system; Sessions.content := THINKING_PROMPT |};
      {| Sessions.role := Sessions.user;
         Sessions.content :=
           lit "## Context" ++ [nl] ++ context ++ [nl; nl]
           ++ lit "## Latest Tool Result" ++ [nl] ++ toolResult ++ [nl; nl]
           ++ lit "Think about this result and what to do next:" |} ] in
  tryCatch
    (t <- io (streamCompletion messages true) ;;
     ret {| thinking := trim t; tokens := (length t + 3) / 4 |})
    (fun e => ret {| thinking := lit "(Thinking failed: " ++ e ++ lit ")"; tokens := 0 |}).

End WithPlatform.

End Thinking.

(** ** agent/compress.ts, agent/loop.ts and the run action of index.ts *)
Module Agent.
Import JS Parser Eff.
Local Open Scope eff_scope.

Record LoopOptions := { automated : bool }.

(** The process-wide flags the loop reads: [isVerbose()] of ui/display.ts
    and [isThinkingEnabled()] of ui/thinking.ts. *)
Record Flags := { verbose : bool; thinkingEnabled : bool }.

(** How [runAgentLoop] returned when it did not throw. *)
Inductive LoopEnd := AuditPassed | CapReached.

(** What one pass through the loop body does next: [continue] (or fall
    through to the loop test) with the new [retries], or [return]. *)
Inductive Flow := Continue (retries : nat) | Return.

Record Compressed := {
  messages : list Sessions.Message;
  c_tokensBefore : nat;
  c_tokensAfter : nat
}.

Record ToolRun := { toolResults : list str; hitDone : bool; doneSummary : str }.

Definition roleName (r : Sessions.Role) : str :=
  match r with
  | Sessions.system => lit "system"
  | Sessions.user => lit "user"
  | Sessions.assistant => lit "assistant"
  end.

Definition message (r : Sessions.Role) (c : str) : Sessions.Message :=
  {| Sessions.role := r; Sessions.content := c |}.

Definition needsCompression (cfg : Config.Config) (msgs : list Sessions.Message) : bool :=
  Config.maxContextTokens cfg <=? Sessions.estimateTokens msgs.

Definition formatError : str := lit
  "ERROR: Your response was not in the correct format. Please use the exact format specified with # Agent Response, ## Thoughts, ## Task List, ## Tool Choice, and ## Tool Input sections.".

Definition summaryMessage (summary originalPrompt : str) : str :=
  lit "[CONTEXT SUMMARY]" ++ [nl; nl] ++ summary ++ [nl; nl]
    ++ lit "[ORIGINAL REQUEST]" ++ [nl; nl] ++ originalPrompt.

Section WithPlatform.
Context {W : Type} `{Platform W}.

(** [session.history.push({ role, content })] *)
Definition pushHistory (r : Sessions.Role) (c : str) : M W unit :=
  modifySession (fun s => Sessions.withHistory s (Sessions.history s ++ [message r c])).

(** sessions/index.ts [saveSession] on the shared session. *)
Definition saveSession : M W unit :=
  io ensureDirs ;;
  t <- pureIo toISOString ;;
  modifySession (fun s => Sessions.withUpdatedAt s t) ;;
  s <- getSession ;;
  io (writeSessionFiles s).

Definition compressionMessages (session : Sessions.Session) : list Sessions.Message :=
  let historyText :=
    join ([nl; nl] ++ lit "---" ++ [nl; nl])
      (map (fun m => lit "[" ++ toUpperCase (roleName (Sessions.role m)) ++ lit "]"
                       ++ [nl] ++ Sessions.content m)
           (Sessions.history session)) in
  [ message Sessions.system COMPRESSION_PROMPT;
    message Sessions.user (lit "## Conversation to Summarize" ++ [nl; nl] ++ historyText) ].

Definition compressedMessages (systemPrompt summary originalPrompt : str)
    : list Sessions.Message :=
  [ message Sessions.system systemPrompt;
    message Sessions.user (summaryMessage summary originalPrompt) ].

Definition compressContext (systemPrompt : str) : M W Compressed :=
  session <- getSession ;;
  let tokensBefore := Sessions.estimateTokens (Sessions.history session) in
  summary <- io (streamCompletion (compressionMessages session) true) ;;
  let compressedMessages :=
    compressedMessages systemPrompt summary (Sessions.originalPrompt session) in
  let tokensAfter := Sessions.estimateTokens compressedMessages in
  now <- pureIo toISOString ;;
  modifySession (fun s => Sessions.withCompressions s
    (Sessions.compressions s ++
       [{| Sessions.timestamp := now; Sessions.tokensBefore := tokensBefore;
           Sessions.tokensAfter := tokensAfter |}])) ;;
  ret {| messages := compressedMessages; c_tokensBefore := tokensBefore;
         c_tokensAfter := tokensAfter |}.

(** The compression step at the top of the loop body. *)
Definition compressIfNeeded (cfg : Config.Config) (systemPrompt : str) : M W unit :=
  session <- getSession ;;
  if needsCompression cfg (Sessions.history session) then
    r <- compressContext systemPrompt ;;
    modifySession (fun s => Sessions.withHistory s (messages r)) ;;
    saveSession
  else ret tt.

(** [for (const tool of parsed.tools)] with the results pushed so far. *)
Fixpoint runTools (ctx : Tools.ToolContext) (tools : list ToolCall) (results : list str)
    : M W ToolRun :=
  match tools with
  | [] => ret {| toolResults := results; hitDone := false; doneSummary := [] |}
  | tool :: rest =>
      if isDone (toolChoice tool) then
        ret {| toolResults := results; hitDone := true; doneSummary := toolInput tool |}
      else
        result <- tryCatch (Tools.executeTool (toolChoice tool) (toolInput tool) ctx)
                           (fun e => ret (lit "ERROR: " ++ e)) ;;
        let results := results ++ [lit "[" ++ toolString (toolChoice tool) ++ lit "]: " ++ result] in
        if startsWith (lit "ERROR") result
        then ret {| toolResults := results; hitDone := false; doneSummary := [] |}
        else runTools ctx rest results
  end.

(** The reflection step after the tool results were recorded. *)
Definition reflect (toolResultsContent : str) : M W unit :=
  session <- getSession ;;
  let context :=
    lit "Original task: " ++ Sessions.originalPrompt session ++ [nl; nl]
    ++ lit "Current progress: "
    ++ join [nl] (map Audit.renderTask (Sessions.taskList session)) in
  thinkingResult <- Thinking.performThinking context toolResultsContent ;;
  match Thinking.thinking thinkingResult with
  | [] => ret tt
  | t =>
      pushHistory Sessions.assistant (lit "[Internal Reasoning]" ++ [nl] ++ t) ;;
      modifySession (fun s => Sessions.withTotalTokens s
        (Sessions.totalTokens s + Thinking.tokens thinkingResult)) ;;
      saveSession
  end.

(** The part of the loop body that follows a successful parse. *)
Definition turn (flags : Flags) (ctx : Tools.ToolContext) (parsed : ParsedResponse)
    : M W Flow :=
  pushHistory Sessions.assistant (raw parsed) ;;
  modifySession (fun s => Sessions.withTaskList s (taskList parsed)) ;;
  saveSession ;;
  ran <- runTools ctx (tools parsed) [] ;;
  (match toolResults ran with
   | [] => ret tt
   | _ =>
       let toolResultsContent :=
         lit "Tool results:" ++ [nl] ++ join [nl; nl] (toolResults ran) in
       pushHistory Sessions.user toolResultsContent ;;
       saveSession ;;
       if thinkingEnabled flags && negb (hitDone ran)
       then reflect toolResultsContent
       else ret tt
   end) ;;
  if hitDone ran then
    session <- getSession ;;
    audit <- Audit.runAudit session (doneSummary ran) (verbose flags) ;;
    if Audit.passed audit then
      (if verbose flags
       then consoleLog success ([nl] ++ lit "  Audit PASSED - Task complete!" ++ [nl])
       else ret tt) ;;
      ret Return
    else
      (if verbose flags
       then consoleLog yellow ([nl] ++ lit "  Audit FAILED - Continuing..." ++ [nl])
       else ret tt) ;;
      pushHistory Sessions.user
        (lit "AUDIT FAILED. Please address the following issues:" ++ [nl; nl]
           ++ Audit.feedback audit) ;;
      saveSession ;;
      ret (Continue 0)
  else ret (Continue 0).

(** The part of the loop body taken when the response does not parse. *)
Definition formatRetry (maxRetries retries : nat) (response : str) : M W Flow :=
  consoleLog yellow ([nl] ++ lit "  Response format error, retrying..." ++ [nl]) ;;
  pushHistory Sessions.assistant response ;;
  pushHistory Sessions.user formatError ;;
  saveSession ;;
  if maxRetries <=? S retries
  then throw (lit "Max retries exceeded on parse failures")
  else ret (Continue (S retries)).

(** One pass through the body of [while (loops++ < config.maxLoops)]. *)
Definition iteration (cfg : Config.Config) (flags : Flags) (maxRetries : nat)
    (systemPrompt : str) (ctx : Tools.ToolContext) (retries : nat) : M W Flow :=
  compressIfNeeded cfg systemPrompt ;;
  session <- getSession ;;
  countCall ;;
  outcome <- attempt (response <- io (streamCompletion (Sessions.history session) false) ;;
                      n <- ask getTokenCount ;;
                      modifySession (fun s => Sessions.withTotalTokens s
                                                (Sessions.totalTokens s + n)) ;;
                      ret response) ;;
  match outcome with
  | Throw e =>
      consoleLog red ([nl] ++ lit "  API Error: " ++ e ++ [nl]) ;;
      if maxRetries <=? S retries then throw e
      else
        consoleLog dim (lit "  Retrying (" ++ showNat (S retries) ++ lit "/"
                          ++ showNat maxRetries ++ lit ")..." ++ [nl]) ;;
        ret (Continue (S retries))
  | Ok response =>
      match parseResponse response with
      | None => formatRetry maxRetries retries response
      | Some parsed => turn flags ctx parsed
      end
  end.

(** The [while] loop with [remaining] = [config.maxLoops - loops]. *)
Fixpoint loop (remaining : nat) (cfg : Config.Config) (flags : Flags) (maxRetries : nat)
    (systemPrompt : str) (ctx : Tools.ToolContext) (retries : nat) : M W LoopEnd :=
  match remaining with
  | 0 => ret CapReached
  | S remaining' =>
      flow <- iteration cfg flags maxRetries systemPrompt ctx retries ;;
      match flow with
      | Continue retries' => loop remaining' cfg flags maxRetries systemPrompt ctx retries'
      | Return => ret AuditPassed
      end
  end.

Definition capMessage (cfg : Config.Config) : str :=
  [nl] ++ lit "  Max loops (" ++ showNat (Config.maxLoops cfg) ++ lit ") reached. Stopping." ++ [nl].

Definition hasSystemPrompt (h : list Sessions.Message) : bool :=
  match h with
  | m :: _ => match Sessions.role m with Sessions.system => true | _ => false end
  | [] => false
  end.

Definition runAgentLoop (cfg : Config.Config) (flags : Flags) (options : LoopOptions)
    : M W LoopEnd :=
  let maxRetries :=
    if automated options then Config.maxRetriesAutomated cfg else Config.maxRetries cfg in
  session <- getSession ;;
  systemPrompt <- ask (buildSystemPrompt (automated options) (Sessions.workingDirectory session)) ;;
  let ctx := {| Tools.cwd := Sessions.workingDirectory session;
                Tools.automated := automated options |} in
  (if hasSystemPrompt (Sessions.history session) then ret tt
   else modifySession (fun s => Sessions.withHistory s
          (message Sessions.system systemPrompt :: Sessions.history s))) ;;
  e <- loop (Config.maxLoops cfg) cfg flags maxRetries systemPrompt ctx 0 ;;
  match e with
  | AuditPassed => ret AuditPassed
  | CapReached => consoleLog red (capMessage cfg) ;; ret CapReached
  end.

(** The run action of index.ts once the session is in hand: the awaited
    loop inside [try], [process.exit(1)] in the handler.  The number is
    the exit code of the process; an action that returns leaves it at 0. *)
Definition runAction (cfg : Config.Config) (flags : Flags) (options : LoopOptions)
    (s : State W) : nat * State W :=
  match runAgentLoop cfg flags options s with
  | (Ok _, s') => (0, s')
  | (Throw e, s') =>
      let (_, s'') := consoleLog red ([nl] ++ lit "  Error: " ++ e ++ [nl]) s' in
      (1, s'')
  end.

End WithPlatform.

End Agent.

(** ** A scripted host: the model replies are read off a list, the tools
    answer with fixed texts, and file writes are recorded.  It instantiates
    [Platform] for the concrete runs below. *)
Module Script.
Import JS Eff.

Record World := {
  replies : list (Res str);        (* what the next calls of [streamCompletion] yield *)
  written : list (str * str);      (* the (path, content) of every [writeFile] *)
  clock : nat                      (* advances with every [toISOString] *)
}.

Definition nextReply (w : World) : Res str * World :=
  match replies w with
  | [] => (Throw (lit "fetch failed"), w)
  | r :: rest => (r, {| replies := rest; written := written w; clock := clock w |})
  end.

Definition recordWrite (path content : str) (w : World) : Res str * World :=
  (Ok (lit "File written: " ++ path),
   {| replies := replies w; written := written w ++ [(path, content)]; clock := clock w |}).

Definition tickClock (w : World) : str * World :=
  (lit "T" ++ showNat (clock w),
   {| replies := replies w; written := written w; clock := S (clock w) |}).

#[export] Instance scripted : Platform World := {|
  streamCompletion := fun _ _ => nextReply;
  getTokenCount := fun _ => 0;
  listDirectory := fun _ _ w => (Ok (lit "(empty directory)"), w);
  readFile := fun path _ w => (Ok (lit "File not found: " ++ path), w);
  writeFile := fun path content _ => recordWrite path content;
  findAndReplace := fun path _ _ _ w => (Ok (lit "File not found: " ++ path), w);
  executeCommand := fun _ _ w => (Ok (lit "(no output)"), w);
  readBackgroundProcess := fun pid w => (Ok (lit "Process not found: " ++ pid), w);
  listBackgroundProcesses := fun w => (Ok (lit "No background processes"), w);
  killBackgroundProcess := fun pid w => (Ok (lit "Process not found: " ++ pid), w);
  question := fun _ w => (Ok [], w);
  toISOString := tickClock;
  ensureDirs := fun w => (Ok tt, w);
  writeSessionFiles := fun _ w => (Ok tt, w);
  buildSystemPrompt := fun _ _ _ => lit "SYSTEM";
  COMPRESSION_PROMPT := lit "COMPRESS";
  buildAuditPrompt := fun _ _ _ => lit "AUDIT"
|}.

Definition newSession (prompt : str) : Sessions.Session :=
  {| Sessions.id := lit "s1"; Sessions.createdAt := lit "T"; Sessions.updatedAt := lit "T";
     Sessions.workingDirectory := lit "/work"; Sessions.originalPrompt := prompt;
     Sessions.taskList := []; Sessions.history := []; Sessions.totalTokens := 0;
     Sessions.compressions := [] |}.

Definition boot (rs : list (Res str)) (s : Sessions.Session) : State World :=
  {| world := {| replies := rs; written := []; clock := 0 |};
     console := []; session := s; llmCalls := 0 |}.

Definition config (loops : nat) : Config.Config :=
  {| Config.maxContextTokens := 1000; Config.commandTimeout := 30; Config.maxRetries := 3;
     Config.maxRetriesAutomated := 10; Config.maxLoops := loops |}.

Definition quiet : Agent.Flags := {| Agent.verbose := false; Agent.thinkingEnabled := false |}.

(** A well-formed response asking for one READ_FILE. *)
Definition readReply : str := lit
"# Agent Response

## Thoughts
Look at the notes.

## Tool Choice
READ_FILE

## Tool Input
notes.txt".



(** An audit response that ends the audit with a verdict in the DONE input,
    and what the parser makes of it. *)
Definition auditDoneReply : str := lit
"# Agent Response

## Thoughts
Verified.

## Tool Choice
DONE

## Tool Input
Overall: PASS".

Definition auditDoneParsed : Parser.ParsedResponse :=
  {| Parser.thoughts := lit "Verified."; Parser.taskList := [];
     Parser.tools := [{| Parser.toolChoice := Parser.DONE;
                         Parser.toolInput := lit "Overall: PASS" |}];
     Parser.raw := auditDoneReply;
     Parser.firstToolChoice := Parser.DONE;
     Parser.firstToolInput := lit "Overall: PASS" |}.

(** An audit response whose DONE has no input and whose thoughts hold the
    verdict. *)
Definition doneWithoutInput : str := lit
"# Agent Response

## Thoughts
Two tests fail.

## Tool Choice
DONE".

End Script.

(** ** The code-block extractor described line by line *)
Module Lines.
Import JS Parser.

(** The lines of a text, each with its line end (a line feed or a carriage
    return) when it has one; the last line has none. *)
Fixpoint chunks (s : str) : list str :=
  match s with
  | [] => [[]]
  | c :: s' =>
      if isLineTerminator c then [c] :: chunks s'
      else match chunks s' with
           | l :: ls => (c :: l) :: ls
           | [] => [[c]]
           end
  end.

Definition isBlank (l : str) : bool := forallb isSpace l.

(** An opening fence line: three or more backticks or tildes, an optional
    info string of word characters, then white space only.  The result is the
    first fence character and the length of the run. *)
Definition openLine (l : str) : option (ascii * nat) :=
  match takeWhile isFenceChar l with
  | (c :: _) as run =>
      if (3 <=? length run)
         && forallb isSpace (dropWhile isWord (dropWhile isFenceChar l))
      then Some (c, length run) else None
  | [] => None
  end.

(** A bare fence line of character [c] with a run of at least [n]. *)
Definition bareFence (c : ascii) (n : nat) (l : str) : bool :=
  (n <=? length (takeWhile (eqc c) l)) && forallb isSpace (dropWhile (eqc c) l).

(** The first opening fence: its character, its run length, and the lines
    after it. *)
Fixpoint afterOpener (ls : list str) : option (ascii * nat * list str) :=
  match ls with
  | [] => None
  | l :: rest =>
      match openLine l with
      | Some (c, n) => Some (c, n, rest)
      | None => afterOpener rest
      end
  end.

(** The lines before the last line accepted by [closes]. *)
Fixpoint beforeLast (closes : str -> bool) (ls : list str) : option (list str) :=
  match ls with
  | [] => None
  | l :: rest =>
      match beforeLast closes rest with
      | Some body => Some (l :: body)
      | None => if closes l then Some [] else None
      end
  end.

(** The extractor in the words of the specification: the content between the
    first fence and the last bare fence line of the same character whose run
    is at least as long as the opener's, trailing white space stripped. *)
Definition codeBlockAsSpecified (input : str) : option str :=
  match afterOpener (chunks input) with
  | None => None
  | Some (c, n, rest) =>
      match beforeLast (bareFence c (Nat.max 3 n)) rest with
      | None => None
      | Some body => Some (trimEnd (concat body))
      end
  end.

(** The extractor as the code has it: the closing fence needs a run of three
    only, and the blank lines that directly follow the opening fence are not
    part of the content. *)
Definition codeBlockByLines (input : str) : option str :=
  match afterOpener (chunks input) with
  | None => None
  | Some (c, _, rest) =>
      match beforeLast (bareFence c 3) (dropWhile isBlank rest) with
      | None => None
      | Some body => Some (trimEnd (concat body))
      end
  end.

(** No line terminator occurs in [l]. *)
Definition oneLine (l : str) : Prop :=
  forallb (fun c => negb (isLineTerminator c)) l = true.

(** Lists of lines as [chunks] produces them. *)
Inductive chunked : list str -> Prop :=
| chunked_last (l : str) : oneLine l -> chunked [l]
| chunked_more (l : str) (t : ascii) (ls : list str) :
    oneLine l -> isLineTerminator t = true -> chunked ls -> chunked ((l ++ [t]) :: ls).

(** What can follow a piece of a line: nothing, or the line end and the
    lines [ls] after it. *)
Inductive follows : str -> list str -> Prop :=
| follows_nothing : follows [] []
| follows_lines (t : ascii) (ls : list str) :
    isLineTerminator t = true -> chunked ls -> follows (t :: concat ls) ls.

End Lines.

(** ** The relations between states used to describe what a computation
    changes *)
Module Frame.
Import Eff.

Section WithWorld.
Context {W : Type}.

Definition hist (s : State W) : list Sessions.Message := Sessions.history (session s).

(** The history, the compression log, the original prompt and the count of
    model calls are the same in both states. *)
Definition steady (s s' : State W) : Prop :=
  hist s' = hist s
  /\ Sessions.compressions (session s') = Sessions.compressions (session s)
  /\ Sessions.originalPrompt (session s') = Sessions.originalPrompt (session s)
  /\ llmCalls s' = llmCalls s.

Definition keeps {A} (m : M W A) : Prop := forall s, steady s (snd (m s)).





End WithWorld.

End Frame.

(** ** Concrete inputs used by the examples *)
Module Samples.
Import JS Parser.

(** A parser state inside an unclosed block of a tool input, reached by the
    parser itself. *)
Definition unclosedInput : PState :=
  fold_left step
    [lit "## Tool Choice"; lit "WRITE_FILE"; lit "## Tool Input"; lit "notes.md";
     lit "```markdown"; lit "# Notes"] initial.

(** The fence state after the opening line of a three-backtick block. *)
Definition openedBlock : PState := trackFence initial (lit "```markdown").



(** A tool sequence with a DONE in the middle and a write after it. *)
Definition toolsAroundDone : list ToolCall :=
  [ {| toolChoice := READ_FILE; toolInput := lit "notes.txt" |};
    {| toolChoice := DONE; toolInput := lit "All done." |};
    {| toolChoice := WRITE_FILE;
       toolInput := lit "late.txt" ++ [nl] ++ lit "```" ++ [nl] ++ lit "too late" ++ [nl] ++ lit "```" |} ].

(** A session whose history exceeds a ceiling of two tokens. *)
Definition longSession : Sessions.Session :=
  Sessions.withHistory (Script.newSession (lit "build the parser"))
    [ {| Sessions.role := Sessions.system; Sessions.content := lit "SYSTEM" |};
      {| Sessions.role := Sessions.user; Sessions.content := lit "build the parser" |};
      {| Sessions.role := Sessions.assistant; Sessions.content := lit "working on it" |} ].

Definition tightConfig : Config.Config :=
  {| Config.maxContextTokens := 2; Config.commandTimeout := 30; Config.maxRetries := 3;
     Config.maxRetriesAutomated := 10; Config.maxLoops := 1 |}.

(** A command that times out, is promoted, then exits and reports an error. *)
Definition raceEvents : list Command.Event :=
  [ Command.Data (lit "partial"); Command.TimerFires 1700000000000%N (lit "2025-01-01T00:00:00.000Z");
    Command.Close (Some 0); Command.Error (lit "late") ].

(** The states of [executeCommand]: pending, with the timer armed and no call
    to [resolve] yet, or settled by exactly one call. *)
Definition pendingOrSettled (s : Command.Invocation) : Prop :=
  (Command.resolved s = false /\ Command.resolveCalls s = [] /\ Command.timerArmed s = true)
  \/ (Command.resolved s = true /\ exists r, Command.resolveCalls s = [r]).

(** A block opened by four backticks that holds a four-backtick line and
    ends with three backticks. *)
Definition shorterCloser : str :=
  lit "````" ++ [nl] ++ lit "A" ++ [nl] ++ lit "````" ++ [nl] ++ lit "B" ++ [nl] ++ lit "```".

End Samples.

(** ** Invariants of the parser state, and texts of the loop *)
Module Shape.
Import JS Parser.

(** Every recorded tool input and task text is trimmed. *)
Definition tidy (st : PState) : Prop :=
  Forall (fun t => trim (toolInput t) = toolInput t) (st_tools st)
  /\ Forall (fun t => trim (text t) = text t) (st_taskList st).

(** The tools recorded, the tool being collected, and the free place of a
    tool-choice section that has not named its tool yet. *)
Definition places (st : PState) : nat :=
  length (st_tools st)
  + match currentTool st with
    | Some _ => 1
    | None => match currentSection st with toolChoiceSec => 1 | _ => 0 end
    end.

(** What a line adds to the places: one when it begins with the tool-choice
    header. *)
Definition credit (line : str) : nat := if isToolChoiceHeader line then 1 else 0.

(** A text without backticks. *)
Definition plain (s : str) : Prop := forallb (fun c => negb (eqc c backtick)) s = true.


End Shape.

(** ** What a computation may do to the shared session *)
Module Track.
Import Eff.

(** The ways the agent loop and its callees update the session; a relation
    closed under them holds between the session before and after a run. *)
Record Changes (R : Sessions.Session -> Sessions.Session -> Prop) : Prop := {
  changes_refl : forall s, R s s;
  changes_trans : forall a b c, R a b -> R b c -> R a c;
  changes_push : forall s r c,
    R s (Sessions.withHistory s (Sessions.history s ++ [Agent.message r c]));
  changes_unshift : forall s prompt,
    R s (Sessions.withHistory s (Agent.message Sessions.system prompt :: Sessions.history s));
  changes_compressed : forall s prompt summary original,
    R s (Sessions.withHistory s (Agent.compressedMessages prompt summary original));
  changes_taskList : forall s t, R s (Sessions.withTaskList s t);
  changes_tokens : forall s n, R s (Sessions.withTotalTokens s (Sessions.totalTokens s + n));
  changes_updatedAt : forall s t, R s (Sessions.withUpdatedAt s t);
  changes_compressions : forall s c,
    R s (Sessions.withCompressions s (Sessions.compressions s ++ [c]))
}.

Section WithWorld.
Context {W : Type}.

Definition respects (R : Sessions.Session -> Sessions.Session -> Prop) {A} (m : M W A) : Prop :=
  forall s, R (session s) (session (snd (m s))).

End WithWorld.

(** The fields that identify a session and its task. *)
Definition sameIdentity (s s' : Sessions.Session) : Prop :=
  Sessions.id s' = Sessions.id s
  /\ Sessions.createdAt s' = Sessions.createdAt s
  /\ Sessions.workingDirectory s' = Sessions.workingDirectory s
  /\ Sessions.originalPrompt s' = Sessions.originalPrompt s.

(** The token total does not decrease and the compression log is extended. *)
Definition accumulates (s s' : Sessions.Session) : Prop :=
  Sessions.totalTokens s <= Sessions.totalTokens s'
  /\ exists added, Sessions.compressions s' = Sessions.compressions s ++ added.

(** A history that starts with a system message still does. *)
Definition systemFirst (s s' : Sessions.Session) : Prop :=
  Agent.hasSystemPrompt (Sessions.history s) = true ->
  Agent.hasSystemPrompt (Sessions.history s') = true.

End Track.

(** ** A host whose model endpoint gives the same answer to every request,
    and counts the requests; the tools answer with fixed texts. *)
Module Steady.
Import JS Eff.

Record World := {
  answer : Res str;              (* what every call of [streamCompletion] yields *)
  requests : nat;                (* the calls of [streamCompletion] so far *)
  commands : list str            (* the commands passed to [executeCommand] *)
}.

Definition respond (w : World) : Res str * World :=
  (answer w, {| answer := answer w; requests := S (requests w); commands := commands w |}).

Definition runCommand (cmd : str) (w : World) : Res str * World :=
  (Ok (lit "(no output)"),
   {| answer := answer w; requests := requests w; commands := commands w ++ [cmd] |}).

#[export] Instance steady : Platform World := {|
  streamCompletion := fun _ _ => respond;
  getTokenCount := fun _ => 0;
  listDirectory := fun _ _ w => (Ok (lit "(empty directory)"), w);
  readFile := fun path _ w => (Ok (lit "File not found: " ++ path), w);
  writeFile := fun path _ _ w => (Ok (lit "File written: " ++ path), w);
  findAndReplace := fun path _ _ _ w => (Ok (lit "File not found: " ++ path), w);
  executeCommand := fun cmd _ => runCommand cmd;
  readBackgroundProcess := fun pid w => (Ok (lit "Process not found: " ++ pid), w);
  listBackgroundProcesses := fun w => (Ok (lit "No background processes"), w);
  killBackgroundProcess := fun pid w => (Ok (lit "Process not found: " ++ pid), w);
  question := fun _ w => (Ok [], w);
  toISOString := fun w => (lit "T", w);
  ensureDirs := fun w => (Ok tt, w);
  writeSessionFiles := fun _ w => (Ok tt, w);
  buildSystemPrompt := fun _ _ _ => lit "SYSTEM";
  COMPRESSION_PROMPT := lit "COMPRESS";
  buildAuditPrompt := fun _ _ _ => lit "AUDIT"
|}.

Definition boot (a : Res str) (s : Sessions.Session) : State World :=
  {| world := {| answer := a; requests := 0; commands := [] |};
     console := []; session := s; llmCalls := 0 |}.


End Steady.

(** ** Assumptions on the host under which a run is followed *)
Module Host.
Import Eff.

Section WithPlatform.
Context {W : Type} `{Platform W}.


(** In the worlds of [good] every request to the model fails with [e]. *)
Definition alwaysFails (good : W -> Prop) (e : str) : Prop :=
  forall msgs silent w, good w ->
    exists w', streamCompletion msgs silent w = (Throw e, w') /\ good w'.

(** In the worlds of [good] every request to the model is answered, with a
    text accepted by [p]. *)
Definition alwaysAnswers (good : W -> Prop) (p : str -> Prop) : Prop :=
  forall msgs silent w, good w ->
    exists r w', streamCompletion msgs silent w = (Ok r, w') /\ p r /\ good w'.

End WithPlatform.

End Host.

Module AuditHost.
Import Eff.

Section WithPlatform.
Context {W : Type} `{Platform W}.

(** In the worlds of [good] the three tools of the audit answer and the
    world stays in [good]. *)
Definition toolsAnswer (good : W -> Prop) : Prop :=
  (forall p cwd w, good w -> exists r w', listDirectory p cwd w = (Ok r, w') /\ good w')
  /\ (forall p cwd w, good w -> exists r w', readFile p cwd w = (Ok r, w') /\ good w')
  /\ (forall cmd cwd w, good w -> exists r w', executeCommand cmd cwd w = (Ok r, w') /\ good w').

(** [asked] counts the requests to the model: in the worlds of [good] a
    request adds one and the three tools of the audit add none. *)
Definition countsRequests (good : W -> Prop) (asked : W -> nat) : Prop :=
  (forall msgs silent w, good w -> asked (snd (streamCompletion msgs silent w)) = S (asked w))
  /\ (forall p cwd w, good w -> asked (snd (listDirectory p cwd w)) = asked w)
  /\ (forall p cwd w, good w -> asked (snd (readFile p cwd w)) = asked w)
  /\ (forall cmd cwd w, good w -> asked (snd (executeCommand cmd cwd w)) = asked w).

End WithPlatform.

End AuditHost.

Module AuditSamples.
Import JS.

(** An audit response that asks for a command outside the allow list. *)
Definition wipeReply : str := lit
"# Agent Response

## Thoughts
Clean up first.

## Tool Choice
COMMAND

## Tool Input
rm -rf build".

(** The verdict of an audit that used up its rounds. *)
Definition roundLimitVerdict : Audit.AuditResult :=
  {| Audit.passed := true; Audit.feedback := lit "Audit completed (max iterations reached)" |}.

End AuditSamples.

(** ** tools/command.ts: the registry operations, and reading base 36 *)
Module Registry.
Import JS Command.

(** [killBackgroundProcess] on the registry: the answer, and whether
    [proc.process.kill()] was called; [kill] is what that call does, return
    or throw. *)
Definition killBackgroundProcess (registry : gmap str BackgroundProcess) (kill : Eff.Res unit)
    (pid : str) : str * bool :=
  match registry !! pid with
  | None => (lit "Process not found: " ++ pid, false)
  | Some proc =>
      match exitCode proc with
      | Some code => (lit "Process already exited with code " ++ showNat code, false)
      | None =>
          (match kill with
           | Eff.Ok _ => lit "Process " ++ pid ++ lit " killed"
           | Eff.Throw e => lit "Failed to kill process: " ++ e
           end, true)
      end
  end.

(** The value of a digit of base 36, and of a numeral. *)
Definition value36 (c : ascii) : N :=
  let k := N_of_ascii c in
  if (k <? 58)%N then (k - 48)%N else (k - 87)%N.

Definition parse36 (s : str) : N :=
  fold_left (fun a c => (a * 36 + value36 c)%N) s 0%N.

End Registry.

(** ** tools/filesystem.ts: reading, writing and replacing, over the file
    operations of the host *)
Module Filesystem.
Import JS Eff.

(** The operations of [fs] and [path] that the tools call. *)
Class Fs (W : Type) := {
  existsSync : str -> W -> bool;
  readFileSync : str -> W -> Res str;
  writeFileSync : str -> str -> W -> Res unit * W;
  mkdirSync : str -> W -> Res unit * W;         (* with [recursive: true] *)
  joinPath : str -> str -> str;                 (* [path.join] *)
  dirname : str -> str
}.

Definition isLetter (c : ascii) : bool := between 97 122 c || between 65 90 c.

(** [path.match(/^[a-zA-Z]:/)] *)
Definition hasDrive (path : str) : bool :=
  match path with
  | c :: d :: _ => isLetter c && eqc d ":"
  | _ => false
  end.

(** [s.split(sep)] for a separator that is not empty: [skip] characters of
    the separator found last are still to be passed, [piece] is the piece
    being collected. *)
Fixpoint splitFrom (sep s : str) (skip : nat) (piece : str) : list str :=
  match s with
  | [] => [piece]
  | c :: s' =>
      match skip with
      | S k => splitFrom sep s' k piece
      | 0 =>
          if startsWith sep s then piece :: splitFrom sep s' (length sep - 1) []
          else splitFrom sep s' 0 (piece ++ [c])
      end
  end.

(** [s.split(sep)]: an empty separator splits into the code units. *)
Definition split (sep s : str) : list str :=
  match sep with
  | [] => map (fun c => [c]) s
  | _ => splitFrom sep s 0 []
  end.

(** The matches of the global pattern made of the escaped text [find]: the
    occurrences met from left to right, each search starting where the last
    match ended. *)
Fixpoint countFrom (find s : str) (skip : nat) : nat :=
  match s with
  | [] => 0
  | c :: s' =>
      match skip with
      | S k => countFrom find s' k
      | 0 =>
          if startsWith find s then S (countFrom find s' (length find - 1))
          else countFrom find s' 0
      end
  end.

(** [(content.match(new RegExp(escaped, 'g')) || []).length]: the empty
    pattern matches before every code unit and at the end. *)
Definition countMatches (find content : str) : nat :=
  match find with
  | [] => S (length content)
  | _ => countFrom find content 0
  end.

(** [content.split(find).join(replace)] *)
Definition replaceAll (find replace content : str) : str :=
  join replace (split find content).

Section WithFs.
Context {W : Type} `{Fs W}.

Definition target (path cwd : str) : str :=
  if startsWith (lit "/") path || hasDrive path then path else joinPath cwd path.

Definition readFile (path cwd : str) (w : W) : str :=
  let target := target path cwd in
  if negb (existsSync target w) then lit "File not found: " ++ target
  else match readFileSync target w with
       | Ok content => content
       | Throw e => lit "Error reading file: " ++ e
       end.

Definition writeFile (path content cwd : str) (w : W) : str * W :=
  let target := target path cwd in
  match mkdirSync (dirname target) w with
  | (Throw e, w1) => (lit "Error writing file: " ++ e, w1)
  | (Ok _, w1) =>
      match writeFileSync target content w1 with
      | (Throw e, w2) => (lit "Error writing file: " ++ e, w2)
      | (Ok _, w2) => (lit "File written: " ++ target, w2)
      end
  end.

Definition findAndReplace (path find replace cwd : str) (w : W) : str * W :=
  let target := target path cwd in
  if negb (existsSync target w) then (lit "File not found: " ++ target, w)
  else match readFileSync target w with
       | Throw e => (lit "Error: " ++ e, w)
       | Ok content =>
           if negb (includes find content)
           then (lit "Pattern not found in file: " ++ target, w)
           else
             let updated := replaceAll find replace content in
             match writeFileSync target updated w with
             | (Throw e, w1) => (lit "Error: " ++ e, w1)
             | (Ok _, w1) =>
                 let count := countMatches find content in
                 (lit "Replaced " ++ showNat count ++ lit " occurrence(s) in: " ++ target, w1)
             end
       end.

End WithFs.

End Filesystem.

(** ** A file system held in a map from paths to contents *)
Module Disk.
Import JS Eff Filesystem.

Abbreviation World := (gmap str str).

#[export] Instance disk : Fs World := {|
  existsSync := fun path w => bool_decide (is_Some (w !! path));
  readFileSync := fun path w =>
    match w !! path with
    | Some content => Ok content
    | None => Throw (lit "ENOENT: no such file or directory")
    end;
  writeFileSync := fun path content w => (Ok tt, <[path := content]> w);
  mkdirSync := fun _ w => (Ok tt, w);
  joinPath := fun cwd path => cwd ++ lit "/" ++ path;
  dirname := fun path => rev (skipn 1 (dropWhile (fun c => negb (eqc c "/")) (rev path)))
|}.

End Disk.

(** * Properties *)

(** ** Facts about the string primitives *)
Section StringFacts.
Import JS.

Lemma eqc_true (a b : ascii) : eqc a b = true <-> a = b.
Proof. unfold eqc. apply Ascii.eqb_eq. Qed.

Lemma eqc_refl (a : ascii) : eqc a a = true.
Proof. apply eqc_true. reflexivity. Qed.

Lemma startsWith_app (p r : str) : startsWith p (p ++ r) = true.
Proof. induction p as [|c p IH]; simpl; [reflexivity|]. now rewrite eqc_refl. Qed.

Lemma startsWith_inv (p s : str) :
  startsWith p s = true -> exists r, s = p ++ r.
Proof.
  revert s. induction p as [|c p IH]; intros s Hs; simpl in *.
  - now exists s.
  - destruct s as [|d s]; [discriminate|].
    apply andb_true_iff in Hs as [Hc Hp]. apply eqc_true in Hc. subst d.
    destruct (IH _ Hp) as [r ->]. now exists r.
Qed.

Lemma takeWhile_dropWhile {A} (p : A -> bool) (l : list A) :
  takeWhile p l ++ dropWhile p l = l.
Proof. induction l as [|x l IH]; simpl; [reflexivity|]. destruct (p x); simpl; congruence. Qed.

Lemma takeWhile_all {A} (p : A -> bool) (l : list A) :
  forallb p (takeWhile p l) = true.
Proof. induction l as [|x l IH]; simpl; [reflexivity|]. destruct (p x) eqn:E; simpl; [now rewrite E|reflexivity]. Qed.

Lemma takeWhile_app_stop {A} (p : A -> bool) (l r : list A) :
  forallb p l = true ->
  match r with [] => True | x :: _ => p x = false end ->
  takeWhile p (l ++ r) = l /\ dropWhile p (l ++ r) = r.
Proof.
  induction l as [|x l IH]; simpl; intros Hl Hr.
  - destruct r as [|y r]; simpl; [easy|]. now rewrite Hr.
  - apply andb_true_iff in Hl as [Hx Hl]. rewrite Hx.
    destruct (IH Hl Hr) as [-> ->]. easy.
Qed.

Lemma dropWhile_all {A} (p : A -> bool) (l : list A) :
  forallb p l = true -> dropWhile p l = [].
Proof. induction l as [|x l IH]; simpl; [easy|]. intros H. apply andb_true_iff in H as [-> H]. auto. Qed.

Lemma dropWhile_nil_all {A} (p : A -> bool) (l : list A) :
  dropWhile p l = [] -> forallb p l = true.
Proof. induction l as [|x l IH]; simpl; [easy|]. destruct (p x); [auto|discriminate]. Qed.

Lemma dropWhile_head {A} (p : A -> bool) (l : list A) :
  match dropWhile p l with [] => True | x :: _ => p x = false end.
Proof. induction l as [|x l IH]; simpl; [exact I|]. destruct (p x) eqn:E; [exact IH|exact E]. Qed.

Lemma dropWhile_app_all {A} (p : A -> bool) (l r : list A) :
  forallb p l = true -> dropWhile p (l ++ r) = dropWhile p r.
Proof. induction l as [|x l IH]; simpl; [easy|]. intros H. apply andb_true_iff in H as [-> H]. auto. Qed.

Lemma dropWhile_stop {A} (p : A -> bool) (x : A) (l : list A) :
  p x = false -> dropWhile p (x :: l) = x :: l.
Proof. simpl. now intros ->. Qed.

Lemma forallb_rev {A} (p : A -> bool) (l : list A) :
  forallb p (rev l) = forallb p l.
Proof.
  induction l as [|x l IH]; simpl; [reflexivity|].
  rewrite forallb_app, IH. simpl. rewrite andb_true_r. apply andb_comm.
Qed.

(** [trimEnd] removes a suffix of white space. *)
Lemma trimEnd_split (s : str) :
  exists t, s = trimEnd s ++ t /\ forallb isSpace t = true.
Proof.
  exists (rev (takeWhile isSpace (rev s))). split.
  - unfold trimEnd. rewrite <- rev_app_distr, takeWhile_dropWhile. now rewrite rev_involutive.
  - rewrite forallb_rev. apply takeWhile_all.
Qed.

Lemma trimEnd_app_spaces (s t : str) :
  forallb isSpace t = true ->
  match rev s with [] => True | x :: _ => isSpace x = false end ->
  trimEnd (s ++ t) = s.
Proof.
  intros Ht Hs. unfold trimEnd. rewrite rev_app_distr.
  rewrite dropWhile_app_all by now rewrite forallb_rev.
  destruct (rev s) as [|x r] eqn:E.
  - simpl. apply (f_equal (@rev ascii)) in E. rewrite rev_involutive in E. now subst.
  - rewrite dropWhile_stop by exact Hs. rewrite <- E. apply rev_involutive.
Qed.

End StringFacts.

(** ** The parser *)
Section ParserFacts.
Import JS Parser Samples.

Lemma hash_header_no_fence (st : PState) (r : str) :
  trackFence st (lit "## Tool " ++ r) = st.
Proof. reflexivity. Qed.

(** C6.  While the current section is toolInput, a line that starts with
    [## Tool Choice] or [## Tool Input] is taken as a section boundary
    whatever the fence tracking holds (in particular inside a block that was
    never closed): the pending tool is finished for a Tool Choice header,
    the section changes, the line is not collected, and [inCodeBlock] is
    reset. *)
Theorem tool_header_honored_inside_fence (st : PState) (line : str) :
  currentSection st = toolInputSec ->
  isToolChoiceHeader line = true \/ isToolInputHeader line = true ->
  step st line
    = (if isToolChoiceHeader line
       then enter (finishCurrentTool st) toolChoiceSec
       else enter st toolInputSec)
  /\ inCodeBlock (step st line) = false
  /\ currentSection (step st line)
     = (if isToolChoiceHeader line then toolChoiceSec else toolInputSec).
Proof.
  intros Hsec Hhdr.
  assert (Hstep : step st line
    = (if isToolChoiceHeader line
       then enter (finishCurrentTool st) toolChoiceSec
       else enter st toolInputSec)).
  { destruct Hhdr as [Hc | Hi].
    - rewrite Hc. apply startsWith_inv in Hc as [r ->].
      unfold step. change (lit "## Tool Choice" ++ r) with (lit "## Tool " ++ (lit "Choice" ++ r)).
      rewrite hash_header_no_fence.
      unfold header, shouldRecognizeHeader. rewrite Hsec.
      destruct (inCodeBlock st); reflexivity.
    - destruct (isToolChoiceHeader line) eqn:Hc.
      + apply startsWith_inv in Hc as [r ->]. discriminate Hi.
      + pose proof Hi as Hi'. apply startsWith_inv in Hi' as [r ->].
        unfold step. change (lit "## Tool Input" ++ r) with (lit "## Tool " ++ (lit "Input" ++ r)).
        rewrite hash_header_no_fence.
        unfold header, shouldRecognizeHeader. rewrite Hsec.
        destruct (inCodeBlock st); reflexivity. }
  rewrite Hstep. destruct (isToolChoiceHeader line); repeat split; reflexivity.
Qed.

Lemma tool_header_honored_inside_fence_witness :
  inCodeBlock unclosedInput = true
  /\ step unclosedInput (lit "## Tool Choice")
     = enter (finishCurrentTool unclosedInput) toolChoiceSec.
Proof.
  split; [reflexivity|].
  exact (proj1 (tool_header_honored_inside_fence unclosedInput (lit "## Tool Choice")
                  eq_refl (or_introl eq_refl))).
Defined.

End ParserFacts.

(** ** Fence tracking *)
Section FenceFacts.
Import JS Parser Samples.

Lemma fence_not_space (c : ascii) : isFenceChar c = true -> isSpace c = false.
Proof.
  unfold isFenceChar. intros H. apply orb_true_iff in H as [H | H];
    apply eqc_true in H; subst c; reflexivity.
Qed.

Lemma space_not_fence (c : ascii) : isSpace c = true -> isFenceChar c = false.
Proof.
  intros H. destruct (isFenceChar c) eqn:E; [|reflexivity].
  apply fence_not_space in E. congruence.
Qed.

Lemma spaces_stop_fence (ws : str) :
  forallb isSpace ws = true ->
  match ws with [] => True | x :: _ => isFenceChar x = false end.
Proof.
  destruct ws as [|x ws]; simpl; [easy|]. intros H.
  apply andb_true_iff in H as [H _]. now apply space_not_fence.
Qed.

Lemma last_of_fences (run : str) :
  forallb isFenceChar run = true ->
  match rev run with [] => True | x :: _ => isSpace x = false end.
Proof.
  intros H. rewrite <- forallb_rev in H. destruct (rev run) as [|x r]; [exact I|].
  simpl in H. apply andb_true_iff in H as [H _]. now apply fence_not_space.
Qed.

(** A line made of fence characters and trailing white space trims to the
    fence characters. *)
Lemma trim_fence_line (run ws : str) :
  run <> [] -> forallb isFenceChar run = true -> forallb isSpace ws = true ->
  trim (run ++ ws) = run.
Proof.
  intros Hne Hrun Hws. unfold trim, trimStart.
  destruct run as [|c run]; [congruence|].
  simpl in Hrun. apply andb_true_iff in Hrun as [Hc Hrun].
  change ((c :: run) ++ ws) with (c :: (run ++ ws)).
  rewrite dropWhile_stop by now apply fence_not_space.
  change (c :: run ++ ws) with ((c :: run) ++ ws).
  apply trimEnd_app_spaces; [exact Hws|].
  apply last_of_fences. simpl. now rewrite Hc.
Qed.

Lemma onlyFenceChars_spec (s : str) :
  onlyFenceChars s = true <-> s <> [] /\ forallb isFenceChar s = true.
Proof.
  destruct s as [|c s]; simpl; split.
  - discriminate.
  - intros [H _]. congruence.
  - intros H. split; [discriminate|exact H].
  - intros [_ H]. exact H.
Qed.

(** The shape of a line that the closing test accepts. *)
Lemma closing_line_shape (line : str) :
  3 <= length (takeWhile isFenceChar line) ->
  onlyFenceChars (trim line) = true ->
  forallb isSpace (dropWhile isFenceChar line) = true.
Proof.
  intros Hlen Honly.
  destruct line as [|c line]; [simpl in Hlen; lia|].
  assert (Hc : isFenceChar c = true).
  { simpl in Hlen. destruct (isFenceChar c); [reflexivity|simpl in Hlen; lia]. }
  unfold trim, trimStart in Honly.
  rewrite dropWhile_stop in Honly by now apply fence_not_space.
  apply onlyFenceChars_spec in Honly as [_ Hf].
  destruct (trimEnd_split (c :: line)) as [t [Heq Ht]].
  rewrite Heq.
  destruct (takeWhile_app_stop isFenceChar _ t Hf (spaces_stop_fence _ Ht)) as [_ ->].
  exact Ht.
Qed.

(** C4, as amended.  Inside an open block a line closes it exactly when it is
    a run of three or more fence characters that begins with the opening
    character and is at least as long as the opening run, followed by white
    space only.  A line that does not close the block leaves the fence state
    as it is; in particular a fence with a shorter run stays inside.  A bare
    fence of the opening character and of the opening length does close the
    block. *)
Theorem closing_fence_characterised (st : PState) (line : str) (c : ascii) :
  inCodeBlock st = true -> fenceChar st = Some c ->
  (inCodeBlock (trackFence st line) = false <->
     exists run ws, line = run ++ ws
       /\ forallb isFenceChar run = true /\ head run = Some c
       /\ 3 <= length run /\ fenceLen st <= length run
       /\ forallb isSpace ws = true)
  /\ (inCodeBlock (trackFence st line) = true -> trackFence st line = st)
  /\ (length (takeWhile isFenceChar line) < fenceLen st ->
      inCodeBlock (trackFence st line) = true)
  /\ (3 <= fenceLen st -> isFenceChar c = true -> line = repeat c (fenceLen st) ->
      inCodeBlock (trackFence st line) = false).
Proof.
  intros Hin Hc.
  assert (Hiff : inCodeBlock (trackFence st line) = false <->
     exists run ws, line = run ++ ws
       /\ forallb isFenceChar run = true /\ head run = Some c
       /\ 3 <= length run /\ fenceLen st <= length run
       /\ forallb isSpace ws = true).
  { split.
    - unfold trackFence, fenceMatch.
      destruct (3 <=? length (takeWhile isFenceChar line)) eqn:H3; [|congruence].
      rewrite Hin. simpl.
      destruct (isClosingFence st line (takeWhile isFenceChar line)) eqn:Hclose; [|congruence].
      intros _. unfold isClosingFence in Hclose.
      apply andb_true_iff in Hclose as [Hclose Honly].
      apply andb_true_iff in Hclose as [Hsame Hlen].
      apply Nat.leb_le in H3. apply Nat.leb_le in Hlen.
      exists (takeWhile isFenceChar line), (dropWhile isFenceChar line).
      rewrite takeWhile_dropWhile. repeat split; auto.
      + apply takeWhile_all.
      + rewrite Hc in Hsame. destruct (head (takeWhile isFenceChar line)); simpl in Hsame;
          [|discriminate]. apply eqc_true in Hsame. now subst.
      + now apply closing_line_shape.
    - intros (run & ws & -> & Hrun & Hhead & H3 & Hlen & Hws).
      unfold trackFence, fenceMatch.
      destruct (takeWhile_app_stop isFenceChar run ws Hrun (spaces_stop_fence _ Hws)) as [-> _].
      apply Nat.leb_le in H3. rewrite H3, Hin. simpl.
      unfold isClosingFence. rewrite Hhead, Hc. simpl. rewrite eqc_refl.
      apply Nat.leb_le in Hlen. rewrite Hlen. simpl.
      rewrite trim_fence_line; auto.
      + assert (E : onlyFenceChars run = true).
        { apply onlyFenceChars_spec. split; [|exact Hrun]. intros ->. discriminate. }
        rewrite E. reflexivity.
      + intros ->. discriminate. }
  split; [exact Hiff|]. split; [|split].
  - unfold trackFence. destruct (fenceMatch line); [|reflexivity].
    rewrite Hin. simpl. destruct (isClosingFence st line l); [simpl; discriminate|reflexivity].
  - intros Hshort. apply not_false_iff_true. intros E.
    apply Hiff in E as (run & ws & -> & Hrun & _ & _ & Hlen & Hws).
    destruct (takeWhile_app_stop isFenceChar run ws Hrun (spaces_stop_fence _ Hws)) as [E _].
    rewrite E in Hshort. lia.
  - intros H3 Hfc ->. apply Hiff. exists (repeat c (fenceLen st)), [].
    rewrite app_nil_r, repeat_length. repeat split; auto.
    + clear -Hfc. induction (fenceLen st); simpl; [reflexivity|]. now rewrite Hfc.
    + destruct (fenceLen st); [lia|reflexivity].
Qed.

Lemma closing_fence_characterised_witness :
  inCodeBlock (trackFence openedBlock (lit "````")) = false
  /\ inCodeBlock (trackFence openedBlock (lit "```js")) = true.
Proof.
  pose proof (closing_fence_characterised openedBlock (lit "````") backtick eq_refl eq_refl)
    as [Hiff _].
  split; [|reflexivity].
  apply Hiff. exists (lit "````"), []. repeat split; simpl; lia.
Defined.

(** C4 as stated fails: inside a block opened by three backticks, a bare inner
    fence of three backticks (equal length) closes the block. *)
Lemma equal_length_bare_fence_closes :
  inCodeBlock openedBlock = true
  /\ fenceLen openedBlock = 3
  /\ fenceMatch (lit "```") = Some (lit "```")
  /\ onlyFenceChars (trim (lit "```")) = true
  /\ inCodeBlock (trackFence openedBlock (lit "```")) <> true.
Proof. repeat split; try reflexivity. discriminate. Qed.

End FenceFacts.

(** ** The auditor *)
Section AuditFacts.
Import JS Parser Eff Audit.
Context {W : Type} `{Platform W}.

(** C8, as amended.  When the response of the audit agent parses and its
    (first) tool is DONE, the audit ends at once with the verdict of
    [doneVerdict]: PASS exactly when the feedback text does not contain
    [fail] in any letter case, where the feedback text is the DONE input when
    that is not empty and the parsed thoughts otherwise. *)
Theorem audit_done_verdict (n : nat) (cwd : str) (msgs : list Sessions.Message)
    (st st1 : State W) (response : str) (parsed : ParsedResponse) :
  io (streamCompletion msgs false) st = (Ok response, st1) ->
  parseResponse response = Some parsed ->
  firstToolChoice parsed = DONE ->
  let fb := Tools.orElse (firstToolInput parsed) (thoughts parsed) in
  auditLoop (S n) cwd msgs st
    = (Ok {| passed := negb (includes (lit "fail") (toLowerCase fb)); feedback := fb |}, st1)
  /\ (forall v s', auditLoop (S n) cwd msgs st = (Ok v, s') ->
        (passed v = true <-> includes (lit "fail") (toLowerCase fb) = false))
  /\ (firstToolInput parsed <> [] -> fb = firstToolInput parsed)
  /\ (firstToolInput parsed = [] -> fb = thoughts parsed).
Proof.
  intros Hcall Hparse Hdone fb.
  assert (Hrun : auditLoop (S n) cwd msgs st
    = (Ok {| passed := negb (includes (lit "fail") (toLowerCase fb)); feedback := fb |}, st1)).
  { cbn [auditLoop]. unfold bind at 1. rewrite Hcall, Hparse, Hdone. reflexivity. }
  split; [exact Hrun|]. split; [|split].
  - intros v s' Hv. rewrite Hrun in Hv. injection Hv as <- _. simpl.
    apply negb_true_iff.
  - unfold fb, Tools.orElse. destruct (firstToolInput parsed); congruence.
  - unfold fb, Tools.orElse. now intros ->.
Qed.

End AuditFacts.

Section AuditRuns.
Import JS Parser Eff Audit Script.

Lemma audit_done_verdict_witness :
  fst (auditLoop 20 (lit "/work") [] (boot [Ok auditDoneReply] (newSession [])))
  = Ok {| passed := true; feedback := lit "Overall: PASS" |}.
Proof.
  exact (f_equal fst
    (proj1 (audit_done_verdict 19 (lit "/work") [] (boot [Ok auditDoneReply] (newSession []))
              (boot [] (newSession [])) auditDoneReply auditDoneParsed
              eq_refl eq_refl eq_refl))).
Defined.

(** C8 as stated fails: a DONE without input whose thoughts mention a failure
    is judged FAIL although the DONE input does not contain [fail]. *)
Lemma done_without_input_fails_audit :
  exists parsed,
    parseResponse doneWithoutInput = Some parsed
    /\ firstToolChoice parsed = DONE
    /\ includes (lit "fail") (toLowerCase (firstToolInput parsed)) = false
    /\ fst (runAudit (newSession []) (lit "All done.") false
              (boot [Ok doneWithoutInput] (newSession [])))
       = Ok {| passed := false; feedback := lit "Two tests fail." |}.
Proof.
  eexists. split; [reflexivity|]. repeat split.
Qed.

End AuditRuns.

(** ** What the effectful code leaves alone *)
Section Frames.
Import JS Parser Eff Frame.
Context {W : Type} `{Platform W}.

Lemma steady_refl (s : State W) : steady s s.
Proof. repeat split. Qed.

Lemma steady_trans (a b c : State W) : steady a b -> steady b c -> steady a c.
Proof. unfold steady. intros (?&?&?&?) (?&?&?&?). repeat split; congruence. Qed.



Lemma keeps_bind {A B} (m : M W A) (k : A -> M W B) :
  keeps m -> (forall a, keeps (k a)) -> keeps (bind m k).
Proof.
  intros Hm Hk s. unfold bind. specialize (Hm s).
  destruct (m s) as [[a|e] s1]; simpl in *; [|exact Hm].
  eapply steady_trans; [exact Hm|apply Hk].
Qed.



Lemma keeps_io {A} (f : W -> Res A * W) : keeps (io f).
Proof. intros s. unfold io. destruct (f (world s)). repeat split. Qed.

Lemma keeps_pureIo {A} (f : W -> A * W) : keeps (pureIo f).
Proof. intros s. unfold pureIo. destruct (f (world s)). repeat split. Qed.



Lemma keeps_getSession : keeps (@getSession W).
Proof. intros s. apply steady_refl. Qed.

Lemma keeps_if {A} (b : bool) (m1 m2 : M W A) : keeps m1 -> keeps m2 -> keeps (if b then m1 else m2).
Proof. now destruct b. Qed.

Lemma keeps_withUpdatedAt (t : str) :
  keeps (@modifySession W (fun s => Sessions.withUpdatedAt s t)).
Proof. intros s. repeat split. Qed.



Lemma keeps_saveSession : keeps Agent.saveSession.
Proof.
  unfold Agent.saveSession.
  repeat (apply keeps_bind; [|intros ?]);
    auto using keeps_io, keeps_pureIo, keeps_withUpdatedAt, keeps_getSession.
Qed.







End Frames.

(** ** The tool dispatcher and the tool sequence of one response *)
Section ToolFacts.
Import JS Parser Eff Frame.
Context {W : Type} `{Platform W}.

Lemma runTools_extends (ctx : Tools.ToolContext) (tools : list ToolCall)
    (acc : list str) (st st' : State W) (ran : Agent.ToolRun) :
  Agent.runTools ctx tools acc st = (Ok ran, st') ->
  exists added, Agent.toolResults ran = acc ++ added.
Proof.
  revert acc st. induction tools as [|tool rest IH]; intros acc st Hrun;
    cbn [Agent.runTools] in Hrun.
  - injection Hrun as <- _. exists []. simpl. now rewrite app_nil_r.
  - destruct (isDone (toolChoice tool)).
    { injection Hrun as <- _. exists []. simpl. now rewrite app_nil_r. }
    unfold bind at 1 in Hrun.
    destruct (tryCatch (Tools.executeTool (toolChoice tool) (toolInput tool) ctx)
                (fun e => ret (lit "ERROR: " ++ e)) st) as [[result|e] s1]; [|discriminate].
    destruct (startsWith (lit "ERROR") result).
    + injection Hrun as <- _. eexists [_]. reflexivity.
    + destruct (IH _ _ Hrun) as (added & ->). rewrite <- app_assoc. eexists. reflexivity.
Qed.

(** C2.  A DONE that is reached ends the tool sequence of its response.  Let
    the tools listed before the DONE run from [st] to [st'] and leave one
    result each, none of which starts with ERROR: every one of them was
    executed and none stopped the sequence, so the DONE is reached.  Then
    the sequence with the DONE and any tools [post] after it ends in the
    same state [st'] with the same results, with [hitDone] set and the input
    of the DONE as the completion summary: no tool of [post] is executed and
    the outcome does not depend on [post]. *)
Theorem done_ends_tool_execution (ctx : Tools.ToolContext) (pre post : list ToolCall)
    (input : str) (acc added : list str) (st st' : State W) (ran : Agent.ToolRun) :
  Agent.runTools ctx pre acc st = (Ok ran, st') ->
  Agent.toolResults ran = acc ++ added ->
  Forall2 (fun tool entry =>
             exists result,
               entry = lit "[" ++ toolString (toolChoice tool) ++ lit "]: " ++ result
               /\ startsWith (lit "ERROR") result = false) pre added ->
  Agent.runTools ctx (pre ++ {| toolChoice := DONE; toolInput := input |} :: post) acc st
  = (Ok {| Agent.toolResults := acc ++ added; Agent.hitDone := true;
           Agent.doneSummary := input |}, st').
Proof.
  revert acc added st. induction pre as [|tool rest IH]; intros acc added st Hrun Hres Hclean.
  - inversion Hclean; subst. cbn [Agent.runTools] in Hrun. injection Hrun as _ <-.
    cbn [app Agent.runTools toolChoice isDone toolInput]. now rewrite app_nil_r.
  - inversion Hclean as [|tool' entry rest' added' (result' & Hentry & Hok) Hrest]; subst.
    cbn [Agent.runTools] in Hrun. cbn [app Agent.runTools].
    destruct (isDone (toolChoice tool)) eqn:Eisdone.
    { injection Hrun as <- _. cbn [Agent.toolResults] in Hres.
      rewrite <- (app_nil_r acc) in Hres at 1. apply app_inv_head in Hres. discriminate. }
    unfold bind at 1 in Hrun. unfold bind at 1.
    destruct (tryCatch (Tools.executeTool (toolChoice tool) (toolInput tool) ctx)
                (fun e => ret (lit "ERROR: " ++ e)) st) as [[result|e] s1] eqn:Eexec;
      [|discriminate].
    destruct (startsWith (lit "ERROR") result) eqn:Eerr.
    + injection Hrun as <- _. cbn [Agent.toolResults] in Hres.
      apply app_inv_head in Hres. injection Hres as Hres _.
      assert (Hsame : result = result').
      { apply (app_inv_head (lit "]: ")), (app_inv_head (toolString (toolChoice tool))).
        exact Hres. }
      congruence.
    + destruct (runTools_extends _ _ _ _ _ _ Hrun) as (added0 & Hext).
      rewrite Hext, <- app_assoc in Hres. apply app_inv_head in Hres.
      cbn [app] in Hres.
      pose proof (f_equal (hd []) Hres) as Hhead. pose proof (f_equal (@tl _) Hres) as Htail.
      cbn [hd tl] in Hhead, Htail. subst added0.
      rewrite (IH _ added' _ Hrun Hext Hrest). rewrite <- app_assoc. cbn [app].
      rewrite Hhead. reflexivity.
Qed.

End ToolFacts.

Section ToolRuns.
Import JS Parser Eff Script Samples.

Lemma done_ends_tool_execution_witness :
  Agent.runTools {| Tools.cwd := lit "/work"; Tools.automated := true |} toolsAroundDone []
    (boot [] (newSession []))
  = (Ok {| Agent.toolResults := [lit "[READ_FILE]: File not found: notes.txt"];
           Agent.hitDone := true; Agent.doneSummary := lit "All done." |},
     boot [] (newSession [])).
Proof.
  assert (Hclean :
    Forall2 (fun tool entry =>
               exists result,
                 entry = lit "[" ++ toolString (toolChoice tool) ++ lit "]: " ++ result
                 /\ startsWith (lit "ERROR") result = false)
      [ {| toolChoice := READ_FILE; toolInput := lit "notes.txt" |} ]
      [ lit "[READ_FILE]: File not found: notes.txt" ]).
  { constructor; [|constructor]. exists (lit "File not found: notes.txt").
    split; reflexivity. }
  exact (done_ends_tool_execution {| Tools.cwd := lit "/work"; Tools.automated := true |}
           [ {| toolChoice := READ_FILE; toolInput := lit "notes.txt" |} ]
           [ {| toolChoice := WRITE_FILE;
                toolInput := lit "late.txt" ++ [nl] ++ lit "```" ++ [nl] ++ lit "too late"
                               ++ [nl] ++ lit "```" |} ]
           (lit "All done.") [] [ lit "[READ_FILE]: File not found: notes.txt" ]
           (boot [] (newSession [])) (boot [] (newSession []))
           {| Agent.toolResults := [lit "[READ_FILE]: File not found: notes.txt"];
              Agent.hitDone := false; Agent.doneSummary := [] |}
           eq_refl eq_refl Hclean).
Defined.

End ToolRuns.

(** ** The command runner *)
Section CommandFacts.
Import JS Command Samples.

Lemma start_pending (cmd : str) (t : nat) (reg : gmap str BackgroundProcess) (n : nat) :
  pendingOrSettled (start cmd t reg n).
Proof. left. repeat split. Qed.

Lemma onCloseOfPromoted_calls (s : Invocation) (code : option nat) :
  resolved (onCloseOfPromoted s code) = resolved s
  /\ resolveCalls (onCloseOfPromoted s code) = resolveCalls s
  /\ timerArmed (onCloseOfPromoted s code) = timerArmed s.
Proof.
  unfold onCloseOfPromoted. destruct (promotedAs s); [|easy].
  destruct (processes s !! l); easy.
Qed.

(** Once settled, no event calls [resolve] again. *)
Lemma deliver_settled (s : Invocation) (e : Event) :
  resolved s = true ->
  resolved (deliver s e) = true /\ resolveCalls (deliver s e) = resolveCalls s.
Proof.
  intros Hr. destruct e as [chunk|now date|code|msg]; simpl.
  - easy.
  - destruct (timerArmed s); [|easy]. unfold onTimeout. simpl. now rewrite Hr.
  - destruct (onCloseOfPromoted_calls (onClose s code) code) as (-> & -> & _).
    unfold onClose. simpl. now rewrite Hr.
  - unfold onError. simpl. now rewrite Hr.
Qed.

(** A pending invocation is settled by any event other than output. *)
Lemma deliver_pending (s : Invocation) (e : Event) :
  resolved s = false -> resolveCalls s = [] -> timerArmed s = true ->
  if isResolution e
  then resolved (deliver s e) = true /\ exists r, resolveCalls (deliver s e) = [r]
  else resolved (deliver s e) = false /\ resolveCalls (deliver s e) = []
       /\ timerArmed (deliver s e) = true.
Proof.
  intros Hr Hc Ht. destruct e as [chunk|now date|code|msg]; simpl.
  - easy.
  - rewrite Ht. unfold onTimeout. simpl. rewrite Hr. simpl. rewrite Hc. eauto.
  - destruct (onCloseOfPromoted_calls (onClose s code) code) as (-> & -> & _).
    unfold onClose. simpl. rewrite Hr. simpl. rewrite Hc. eauto.
  - unfold onError. simpl. rewrite Hr. simpl. rewrite Hc. eauto.
Qed.

Lemma deliver_invariant (s : Invocation) (e : Event) :
  pendingOrSettled s -> pendingOrSettled (deliver s e).
Proof.
  intros [(Hr & Hc & Ht) | (Hr & r & Hc)].
  - pose proof (deliver_pending s e Hr Hc Ht) as Hd. destruct (isResolution e).
    + right. exact Hd.
    + left. exact Hd.
  - right. destruct (deliver_settled s e Hr) as [-> ->]. eauto.
Qed.

Lemma run_invariant (events : list Event) (s : Invocation) :
  pendingOrSettled s -> pendingOrSettled (run s events).
Proof.
  revert s. induction events as [|e events IH]; intros s Hs; [exact Hs|].
  apply IH. now apply deliver_invariant.
Qed.

Lemma run_settled (events : list Event) (s : Invocation) :
  resolved s = true ->
  resolved (run s events) = true /\ resolveCalls (run s events) = resolveCalls s.
Proof.
  revert s. induction events as [|e events IH]; intros s Hr; [easy|].
  destruct (deliver_settled s e Hr) as [Hr' Hc'].
  change (run s (e :: events)) with (run (deliver s e) events).
  destruct (IH _ Hr') as [-> ->]. easy.
Qed.

Lemma run_pending (events : list Event) (s : Invocation) :
  resolved s = false -> resolveCalls s = [] -> timerArmed s = true ->
  if existsb isResolution events
  then exists r, resolveCalls (run s events) = [r]
  else resolveCalls (run s events) = [].
Proof.
  revert s. induction events as [|e events IH]; intros s Hr Hc Ht; [exact Hc|].
  cbn [existsb run fold_left].
  pose proof (deliver_pending s e Hr Hc Ht) as Hd.
  destruct (isResolution e); cbn [orb].
  - destruct Hd as [Hr' [r Hc']].
    destruct (run_settled events _ Hr') as [_ Hsame].
    exists r. unfold run in Hsame. now rewrite Hsame.
  - destruct Hd as (Hr' & Hc' & Ht'). exact (IH _ Hr' Hc' Ht').
Qed.

(** C9.  One invocation of [executeCommand] calls [resolve] at most once
    whatever events arrive and in whatever order; it has called it exactly
    once as soon as one of the timer, [close] or [error] events has been
    delivered, and not before; and the value the promise settled to is not
    changed by any event delivered afterwards. *)
Theorem executeCommand_resolves_once (cmd : str) (timeoutSeconds : nat)
    (registry : gmap str BackgroundProcess) (counter : nat) (before after : list Event) :
  let s0 := start cmd timeoutSeconds registry counter in
  length (resolveCalls (run s0 before)) <= 1
  /\ (if existsb isResolution before
      then exists r, resolveCalls (run s0 before) = [r]
      else resolveCalls (run s0 before) = [])
  /\ (forall r, result (run s0 before) = Some r ->
        resolveCalls (run s0 (before ++ after)) = [r]
        /\ result (run s0 (before ++ after)) = Some r).
Proof.
  intros s0.
  pose proof (run_invariant before s0 (start_pending _ _ _ _)) as Hinv.
  split; [|split].
  - destruct Hinv as [(_ & -> & _) | (_ & r & ->)]; simpl; lia.
  - apply run_pending; reflexivity.
  - intros r Hres. unfold run. rewrite fold_left_app. fold (run s0 before).
    fold (run (run s0 before) after).
    destruct Hinv as [(_ & Hc & _) | (Hr & r' & Hc)].
    + unfold result in Hres. rewrite Hc in Hres. discriminate.
    + destruct (run_settled after _ Hr) as [_ Hsame].
      unfold result in *. rewrite Hsame, Hc in *. simpl in Hres.
      injection Hres as ->. easy.
Qed.

Lemma executeCommand_resolves_once_witness :
  resolveCalls (run (start (lit "sleep 60") 30 ∅ 0) raceEvents)
  = [lit "Command timed out after 30s. Backgrounded as: proc_13v28"].
Proof.
  exact (proj1 (proj2 (proj2 (executeCommand_resolves_once (lit "sleep 60") 30 ∅ 0
           (firstn 2 raceEvents) (skipn 2 raceEvents)))
           (lit "Command timed out after 30s. Backgrounded as: proc_13v28") eq_refl)).
Defined.

End CommandFacts.

(** ** Compression *)
Section CompressionFacts.
Import JS Parser Eff Frame.
Context {W : Type} `{Platform W}.

Lemma compressContext_ok (systemPrompt summary : str) (st : State W) (w1 : W) :
  streamCompletion (Agent.compressionMessages (session st)) true (world st) = (Ok summary, w1) ->
  let after := Agent.compressedMessages systemPrompt summary
                 (Sessions.originalPrompt (session st)) in
  let record := {| Sessions.timestamp := fst (toISOString w1);
                   Sessions.tokensBefore := Sessions.estimateTokens (hist st);
                   Sessions.tokensAfter := Sessions.estimateTokens after |} in
  Agent.compressContext systemPrompt st
  = (Ok {| Agent.messages := after;
           Agent.c_tokensBefore := Sessions.estimateTokens (hist st);
           Agent.c_tokensAfter := Sessions.estimateTokens after |},
     {| world := snd (toISOString w1); console := console st;
        session := Sessions.withCompressions (session st)
                     (Sessions.compressions (session st) ++ [record]);
        llmCalls := llmCalls st |}).
Proof.
  intros Hcall after record.
  unfold Agent.compressContext, bind, getSession, io, pureIo, modifySession, ret.
  rewrite Hcall. simpl. destruct (toISOString w1) as [now w2]. reflexivity.
Qed.

(** C7.  When the history has reached the ceiling and the summary call
    answers, the compression step leaves the session with a history of
    exactly two messages, the system prompt handed in by the caller and one
    user message made of the summary and of the original prompt, verbatim,
    under their two headings, and with exactly one more compression record,
    carrying the time stamp and the token estimates taken before and after. *)
Theorem compression_replaces_history (cfg : Config.Config) (systemPrompt summary : str)
    (st : State W) (w1 : W) :
  Agent.needsCompression cfg (hist st) = true ->
  streamCompletion (Agent.compressionMessages (session st)) true (world st) = (Ok summary, w1) ->
  let st' := snd (Agent.compressIfNeeded cfg systemPrompt st) in
  let prompt := Sessions.originalPrompt (session st) in
  let after :=
    [ {| Sessions.role := Sessions.system; Sessions.content := systemPrompt |};
      {| Sessions.role := Sessions.user;
         Sessions.content := lit "[CONTEXT SUMMARY]" ++ [nl; nl] ++ summary ++ [nl; nl]
                               ++ lit "[ORIGINAL REQUEST]" ++ [nl; nl] ++ prompt |} ] in
  hist st' = after
  /\ Sessions.compressions (session st')
     = Sessions.compressions (session st)
       ++ [{| Sessions.timestamp := fst (toISOString w1);
              Sessions.tokensBefore := Sessions.estimateTokens (hist st);
              Sessions.tokensAfter := Sessions.estimateTokens after |}]
  /\ Sessions.originalPrompt (session st') = prompt.
Proof.
  intros Hneeds Hcall st' prompt after.
  set (record := {| Sessions.timestamp := fst (toISOString w1);
                    Sessions.tokensBefore := Sessions.estimateTokens (hist st);
                    Sessions.tokensAfter := Sessions.estimateTokens after |}).
  set (st2 := {| world := snd (toISOString w1); console := console st;
                 session := Sessions.withHistory
                              (Sessions.withCompressions (session st)
                                 (Sessions.compressions (session st) ++ [record])) after;
                 llmCalls := llmCalls st |}).
  assert (Hstep : Agent.compressIfNeeded cfg systemPrompt st = Agent.saveSession st2).
  { unfold Agent.compressIfNeeded.
    unfold bind at 1. unfold getSession at 1. cbn iota beta.
    unfold hist in Hneeds. rewrite Hneeds.
    unfold bind at 1. rewrite (compressContext_ok systemPrompt summary st w1 Hcall).
    reflexivity. }
  unfold st'. rewrite Hstep.
  destruct (keeps_saveSession st2) as (Hh & Hc & Hp & _).
  rewrite Hh, Hc, Hp. repeat split.
Qed.

End CompressionFacts.

Section CompressionRuns.
Import JS Parser Eff Frame Script Samples.

Lemma compression_replaces_history_witness :
  hist (snd (Agent.compressIfNeeded tightConfig (lit "SYSTEM")
               (boot [Ok (lit "parser half done")] longSession)))
  = [ {| Sessions.role := Sessions.system; Sessions.content := lit "SYSTEM" |};
      {| Sessions.role := Sessions.user;
         Sessions.content := lit "[CONTEXT SUMMARY]" ++ [nl; nl] ++ lit "parser half done"
                               ++ [nl; nl] ++ lit "[ORIGINAL REQUEST]" ++ [nl; nl]
                               ++ lit "build the parser" |} ].
Proof.
  exact (proj1 (compression_replaces_history tightConfig (lit "SYSTEM") (lit "parser half done")
                  (boot [Ok (lit "parser half done")] longSession)
                  {| replies := []; written := []; clock := 0 |} eq_refl eq_refl)).
Defined.

End CompressionRuns.

(** ** The agent loop *)
Section LoopFacts.
Import JS Parser Eff Frame.
Context {W : Type} `{Platform W}.





















End LoopFacts.

Section LoopClaims.
Import JS Parser Eff Frame.
Context {W : Type} `{Platform W}.


(** C1, as amended.  When the loop has used up [maxLoops] passes without a
    passing audit, [runAgentLoop] reports the configured cap on the console
    and returns normally; the run action then does not take its
    [process.exit(1)] branch, which is taken exactly when the loop throws, and
    the exit code stays 0. *)
Theorem loop_cap_reported_not_fatal (cfg : Config.Config) (flags : Agent.Flags)
    (options : Agent.LoopOptions) (st st' : State W) :
  Agent.runAgentLoop cfg flags options st = (Ok Agent.CapReached, st') ->
  (exists earlier,
     console st' = earlier ++ [{| color := red; line := Agent.capMessage cfg |}])
  /\ Agent.capMessage cfg
     = [nl] ++ lit "  Max loops (" ++ showNat (Config.maxLoops cfg)
         ++ lit ") reached. Stopping." ++ [nl]
  /\ Agent.runAction cfg flags options st = (0, st')
  /\ (forall s, fst (Agent.runAction cfg flags options s) = 1
                <-> exists e, fst (Agent.runAgentLoop cfg flags options s) = Throw e).
Proof.
  intros Hrun. split; [|split; [reflexivity|split]].
  - revert Hrun. unfold Agent.runAgentLoop.
    unfold bind at 1. unfold getSession at 1. cbn iota beta.
    unfold bind at 1. unfold ask at 1. cbn iota beta.
    unfold bind at 1.
    match goal with |- context [(if ?b then ret tt else modifySession ?f) st] =>
      destruct ((if b then ret tt else modifySession f) st) as [[[]|e] s1] eqn:Hfirst
    end.
    2:{ discriminate. }
    unfold bind at 1.
    match goal with |- context [Agent.loop ?n ?c ?f ?m ?p ?x ?r0 s1] =>
      destruct (Agent.loop n c f m p x r0 s1) as [[[]|e] s2]
    end; try discriminate.
    unfold bind, consoleLog, ret. cbn iota beta.
    intros Heq. injection Heq as <-. simpl. eauto.
  - unfold Agent.runAction. now rewrite Hrun.
  - intros s. unfold Agent.runAction.
    destruct (Agent.runAgentLoop cfg flags options s) as [[e|msg] s1]; simpl.
    + split; [discriminate|]. intros [msg Hmsg]. discriminate.
    + split; [eauto|reflexivity].
Qed.

End LoopClaims.

Section LoopRuns.
Import JS Parser Eff Frame Script Samples.

Lemma loop_cap_reported_not_fatal_witness :
  Agent.runAction (config 1) quiet {| Agent.automated := true |}
    (boot [Ok readReply] (newSession (lit "read the notes")))
  = (0, snd (Agent.runAgentLoop (config 1) quiet {| Agent.automated := true |}
               (boot [Ok readReply] (newSession (lit "read the notes"))))).
Proof.
  assert (Hrun : Agent.runAgentLoop (config 1) quiet {| Agent.automated := true |}
                   (boot [Ok readReply] (newSession (lit "read the notes")))
                 = (Ok Agent.CapReached,
                    snd (Agent.runAgentLoop (config 1) quiet {| Agent.automated := true |}
                           (boot [Ok readReply] (newSession (lit "read the notes")))))).
  { vm_compute. reflexivity. }
  exact (proj1 (proj2 (proj2 (loop_cap_reported_not_fatal _ _ _ _ _ Hrun)))).
Defined.

(** C1 as stated fails: with a cap of one pass and a model that asks for one
    READ_FILE, the loop reaches the cap, reports it, and the exit code is 0. *)
Lemma cap_reached_exits_zero :
  let st := boot [Ok readReply] (newSession (lit "read the notes")) in
  let run := Agent.runAgentLoop (config 1) quiet {| Agent.automated := true |} st in
  fst run = Ok Agent.CapReached
  /\ map line (console (snd run)) = [[nl] ++ lit "  Max loops (1) reached. Stopping." ++ [nl]]
  /\ fst (Agent.runAction (config 1) quiet {| Agent.automated := true |} st) <> 1.
Proof. vm_compute. repeat split. discriminate. Qed.



End LoopRuns.

(** ** Lines of a text *)
Section LineFacts.
Import JS Parser Lines.

Lemma concat_chunks (s : str) : concat (chunks s) = s.
Proof.
  induction s as [|c s IH]; [reflexivity|]. cbn [chunks].
  destruct (isLineTerminator c); [simpl; now rewrite IH|].
  destruct (chunks s) as [|l ls]; simpl in *; now rewrite <- IH.
Qed.

Lemma chunks_chunked (s : str) : chunked (chunks s).
Proof.
  induction s as [|c s IH]; cbn [chunks].
  - now constructor.
  - destruct (isLineTerminator c) eqn:Ec.
    + apply (chunked_more [] c); auto. reflexivity.
    + inversion IH as [l Hl Heq | l t ls Hl Ht Hls Heq].
      * constructor. unfold oneLine in *. simpl. now rewrite Ec.
      * change (c :: l ++ [t]) with ((c :: l) ++ [t]). constructor; auto.
        unfold oneLine in *. simpl. now rewrite Ec.
Qed.

Lemma terminator_cases (c : ascii) :
  isLineTerminator c = true -> c = nl \/ c = ascii_of_nat 13.
Proof.
  unfold isLineTerminator, code. intros Hc. apply orb_true_iff in Hc as [Hc | Hc];
    apply Nat.eqb_eq in Hc; [left|right];
    rewrite <- (ascii_nat_embedding c), Hc; reflexivity.
Qed.

Lemma terminator_facts (t : ascii) :
  isLineTerminator t = true ->
  isFenceChar t = false /\ isWord t = false /\ isSpace t = true.
Proof. intros Ht. destruct (terminator_cases t Ht) as [-> | ->]; repeat split. Qed.

Lemma fence_char_facts (c : ascii) :
  isFenceChar c = true -> isSpace c = false /\ isLineTerminator c = false.
Proof.
  unfold isFenceChar. intros H. apply orb_true_iff in H as [H | H];
    apply eqc_true in H; subst c; repeat split.
Qed.

Lemma fence_not_terminator (c t : ascii) :
  isFenceChar c = true -> isLineTerminator t = true -> eqc c t = false.
Proof.
  intros Hc Ht. destruct (eqc c t) eqn:E; [|reflexivity].
  apply eqc_true in E. subst t. destruct (fence_char_facts c Hc) as [_ H]. congruence.
Qed.

Lemma follows_head (p : ascii -> bool) (R : str) (ls : list str) :
  follows R ls -> (forall t, isLineTerminator t = true -> p t = false) ->
  match R with [] => True | x :: _ => p x = false end.
Proof. intros [|t ls' Ht _] Hp; [exact I|now apply Hp]. Qed.

Lemma takeWhile_app_head {A} (p : A -> bool) (l r : list A) :
  match r with [] => True | x :: _ => p x = false end ->
  takeWhile p (l ++ r) = takeWhile p l /\ dropWhile p (l ++ r) = dropWhile p l ++ r.
Proof.
  intros Hr. induction l as [|x l [IH1 IH2]]; simpl.
  - destruct r as [|y r]; simpl; [easy|]. now rewrite Hr.
  - destruct (p x); [|easy]. now rewrite IH1, IH2.
Qed.

Lemma oneLine_app (a b : str) : oneLine (a ++ b) <-> oneLine a /\ oneLine b.
Proof. unfold oneLine. rewrite forallb_app. apply andb_true_iff. Qed.

Lemma oneLine_cons (c : ascii) (l : str) :
  oneLine (c :: l) <-> isLineTerminator c = false /\ oneLine l.
Proof.
  unfold oneLine. simpl. rewrite andb_true_iff, negb_true_iff. reflexivity.
Qed.

Lemma oneLine_takeWhile (p : ascii -> bool) (l : str) : oneLine l -> oneLine (takeWhile p l).
Proof.
  intros H. rewrite <- (takeWhile_dropWhile p l) in H. now apply oneLine_app in H.
Qed.

Lemma oneLine_dropWhile (p : ascii -> bool) (l : str) : oneLine l -> oneLine (dropWhile p l).
Proof.
  intros H. rewrite <- (takeWhile_dropWhile p l) in H. now apply oneLine_app in H.
Qed.

Lemma lastTerminator_oneLine (w : str) (i : nat) (acc : option nat) :
  oneLine w -> lastTerminator w i acc = acc.
Proof.
  revert i acc. induction w as [|c w IH]; intros i acc Hw; [reflexivity|].
  apply oneLine_cons in Hw as [Hc Hw]. simpl. rewrite Hc. now apply IH.
Qed.

Lemma lastTerminator_app (a b : str) (i : nat) (acc : option nat) :
  lastTerminator (a ++ b) i acc = lastTerminator b (i + length a) (lastTerminator a i acc).
Proof.
  revert i acc. induction a as [|c a IH]; intros i acc; simpl.
  - now rewrite Nat.add_0_r.
  - rewrite IH. f_equal. lia.
Qed.

(** A line with text after its white space is not matched by [\s*$]. *)
Lemma matchEol_text (w r : str) :
  oneLine w -> forallb isSpace w = false -> matchEol (w ++ r) = None.
Proof.
  intros Hw Hblank. unfold matchEol.
  pose proof (dropWhile_head isSpace w) as Hhead.
  destruct (dropWhile isSpace w) as [|x w2] eqn:Edrop.
  { apply dropWhile_nil_all in Edrop. congruence. }
  rewrite <- (takeWhile_dropWhile isSpace w), Edrop, <- app_assoc.
  destruct (takeWhile_app_stop isSpace (takeWhile isSpace w) ((x :: w2) ++ r)
              (takeWhile_all _ _) Hhead) as [-> ->].
  simpl. apply lastTerminator_oneLine. now apply oneLine_takeWhile.
Qed.

(** White space that runs to the end of the input is matched whole. *)
Lemma matchEol_to_end (v : str) :
  forallb isSpace v = true ->
  matchEol v = Some (length v) /\ skipn (length v + 1) v = []
  /\ forallb isSpace (firstn (length v) v) = true.
Proof.
  intros Hv. unfold matchEol. rewrite (dropWhile_all _ _ Hv).
  assert (Htake : takeWhile isSpace v = v).
  { rewrite <- (takeWhile_dropWhile isSpace v) at 2.
    now rewrite (dropWhile_all _ _ Hv), app_nil_r. }
  rewrite Htake. split; [reflexivity|]. split.
  - apply skipn_all2. lia.
  - now rewrite firstn_all.
Qed.

(** White space, a line end, then a line with text: the match ends before
    that line end. *)
Lemma matchEol_before_text (v : str) (t : ascii) (l r : str) :
  forallb isSpace v = true -> isLineTerminator t = true ->
  oneLine l -> isBlank l = false ->
  matchEol (v ++ t :: l ++ r) = Some (length v)
  /\ skipn (length v + 1) (v ++ t :: l ++ r) = l ++ r
  /\ forallb isSpace (firstn (length v) (v ++ t :: l ++ r)) = true.
Proof.
  intros Hv Ht Hl Hblank.
  pose proof (dropWhile_head isSpace l) as Hhead.
  destruct (dropWhile isSpace l) as [|x l2] eqn:Edrop.
  { apply dropWhile_nil_all in Edrop. unfold isBlank in Hblank. congruence. }
  assert (Hsplit : v ++ t :: l ++ r = (v ++ t :: takeWhile isSpace l) ++ (x :: l2) ++ r).
  { rewrite <- (takeWhile_dropWhile isSpace l) at 1. rewrite Edrop.
    rewrite <- ?app_assoc. simpl. rewrite <- ?app_assoc. reflexivity. }
  assert (Hws : forallb isSpace (v ++ t :: takeWhile isSpace l) = true).
  { rewrite forallb_app, Hv. simpl.
    rewrite (proj2 (proj2 (terminator_facts t Ht))). apply takeWhile_all. }
  split; [|split].
  - unfold matchEol. rewrite Hsplit.
    destruct (takeWhile_app_stop isSpace _ ((x :: l2) ++ r) Hws Hhead) as [-> ->].
    simpl. rewrite lastTerminator_app. simpl. rewrite Ht.
    rewrite lastTerminator_oneLine by now apply oneLine_takeWhile.
    f_equal; lia.
  - rewrite skipn_app, skipn_all2 by lia.
    replace (length v + 1 - length v) with 1 by lia. reflexivity.
  - rewrite firstn_app, firstn_all, Nat.sub_diag. simpl. now rewrite app_nil_r.
Qed.

Lemma isBlank_end (l : str) (t : ascii) :
  isLineTerminator t = true -> isBlank (l ++ [t]) = isBlank l.
Proof.
  intros Ht. unfold isBlank. rewrite forallb_app. simpl.
  rewrite (proj2 (proj2 (terminator_facts t Ht))). now rewrite andb_true_r.
Qed.

(** The white space after a fence and the blank lines that follow it:
    [\s*$] matches up to the line end before the first line that is not
    blank, or up to the end of the input. *)
Lemma matchEol_lines (ls : list str) :
  chunked ls -> forall v t,
  forallb isSpace v = true -> isLineTerminator t = true ->
  exists k,
    matchEol (v ++ t :: concat ls) = Some k
    /\ skipn (k + 1) (v ++ t :: concat ls) = concat (dropWhile isBlank ls)
    /\ forallb isSpace (firstn k (v ++ t :: concat ls)) = true.
Proof.
  induction 1 as [l Hl | l t' ls Hl Ht' Hls IH]; intros v t Hv Ht.
  - cbn [concat dropWhile]. rewrite app_nil_r. destruct (isBlank l) eqn:Hblank.
    + assert (Hall : forallb isSpace (v ++ t :: l) = true).
      { rewrite forallb_app, Hv. simpl.
        now rewrite (proj2 (proj2 (terminator_facts t Ht))). }
      destruct (matchEol_to_end _ Hall) as (Hm & Hs & Hf). eauto.
    + exists (length v).
      pose proof (matchEol_before_text v t l [] Hv Ht Hl Hblank) as H.
      rewrite !app_nil_r in H. cbn [concat]. now rewrite app_nil_r.
  - cbn [concat dropWhile]. rewrite isBlank_end by exact Ht'.
    destruct (isBlank l) eqn:Hblank.
    + assert (Hv' : forallb isSpace (v ++ t :: l) = true).
      { rewrite forallb_app, Hv. simpl.
        now rewrite (proj2 (proj2 (terminator_facts t Ht))). }
      destruct (IH (v ++ t :: l) t' Hv' Ht') as (k & Hm & Hs & Hf).
      exists k.
      assert (Hshape : v ++ t :: (l ++ [t']) ++ concat ls = (v ++ t :: l) ++ t' :: concat ls).
      { rewrite <- ?app_assoc. simpl. rewrite <- ?app_assoc. reflexivity. }
      rewrite Hshape. auto.
    + exists (length v).
      assert (Hshape : v ++ t :: (l ++ [t']) ++ concat ls = v ++ t :: l ++ (t' :: concat ls)).
      { rewrite <- ?app_assoc. reflexivity. }
      rewrite Hshape.
      destruct (matchEol_before_text v t l (t' :: concat ls) Hv Ht Hl Hblank) as (Hm & Hs & Hf).
      split; [exact Hm|]. split; [|exact Hf].
      rewrite Hs. cbn [concat]. rewrite <- app_assoc. reflexivity.
Qed.

Lemma matchEol_blank (R : str) (ls : list str) (v : str) :
  follows R ls -> forallb isSpace v = true ->
  exists k,
    matchEol (v ++ R) = Some k
    /\ skipn (k + 1) (v ++ R) = concat (dropWhile isBlank ls)
    /\ forallb isSpace (firstn k (v ++ R)) = true.
Proof.
  intros [|t ls' Ht Hls] Hv.
  - rewrite app_nil_r. exists (length v). apply (matchEol_to_end v Hv).
  - now apply matchEol_lines.
Qed.

Lemma follows_not (p : ascii -> bool) (R : str) (ls : list str) :
  follows R ls -> (forall t, isLineTerminator t = true -> p t = false) ->
  forall l, takeWhile p (l ++ R) = takeWhile p l
            /\ dropWhile p (l ++ R) = dropWhile p l ++ R.
Proof.
  intros HR Hp l. apply takeWhile_app_head. exact (follows_head p R ls HR Hp).
Qed.

(** The line end of a line does not change what kind of line it is. *)
Lemma openLine_end (l : str) (t : ascii) :
  isLineTerminator t = true -> openLine (l ++ [t]) = openLine l.
Proof.
  intros Ht. destruct (terminator_facts t Ht) as (Hf & Hw & Hs). unfold openLine.
  destruct (takeWhile_app_head isFenceChar l [t] Hf) as [-> ->].
  destruct (takeWhile_app_head isWord (dropWhile isFenceChar l) [t] Hw) as [_ ->].
  rewrite forallb_app. simpl. rewrite Hs, andb_true_r. reflexivity.
Qed.

Lemma bareFence_end (c : ascii) (n : nat) (l : str) (t : ascii) :
  isFenceChar c = true -> isLineTerminator t = true ->
  bareFence c n (l ++ [t]) = bareFence c n l.
Proof.
  intros Hc Ht. unfold bareFence.
  destruct (takeWhile_app_head (eqc c) l [t] (fence_not_terminator c t Hc Ht)) as [-> ->].
  rewrite forallb_app. simpl.
  rewrite (proj2 (proj2 (terminator_facts t Ht))), andb_true_r. reflexivity.
Qed.

(** The opening pattern tried at the start of a line. *)
Lemma openFenceAt_line (l R : str) (ls : list str) :
  oneLine l -> follows R ls ->
  match openLine l with
  | None => openFenceAt (l ++ R) = None
  | Some (c, n) =>
      isFenceChar c = true
      /\ exists m, openFenceAt (l ++ R) = Some (c, m)
                   /\ skipn (m + 1) (l ++ R) = concat (dropWhile isBlank ls)
  end.
Proof.
  intros Hl HR. unfold openLine, openFenceAt.
  destruct (follows_not isFenceChar R ls HR
              (fun t Ht => proj1 (terminator_facts t Ht)) l) as [-> ->].
  destruct (follows_not isWord R ls HR
              (fun t Ht => proj1 (proj2 (terminator_facts t Ht)))
              (dropWhile isFenceChar l)) as [-> ->].
  pose proof (takeWhile_all isFenceChar l) as Hfence.
  set (run := takeWhile isFenceChar l) in *.
  set (word := takeWhile isWord (dropWhile isFenceChar l)).
  set (w := dropWhile isWord (dropWhile isFenceChar l)).
  assert (Hw : oneLine w) by (unfold w; now repeat apply oneLine_dropWhile).
  assert (Hparts : l = run ++ word ++ w).
  { unfold run, word, w. now rewrite !takeWhile_dropWhile. }
  destruct run as [|c run']; [reflexivity|].
  destruct (3 <=? length (c :: run')) eqn:H3; [|reflexivity]. cbn [andb].
  destruct (forallb isSpace w) eqn:Hblank.
  - destruct (matchEol_blank R ls w HR Hblank) as (k & -> & Hskip & _).
    split.
    { simpl in Hfence. now apply andb_true_iff in Hfence as [? _]. }
    eexists. split; [reflexivity|].
    rewrite Hparts at 1. rewrite <- !app_assoc.
    replace (length (c :: run') + length word + k + 1)
      with (length (c :: run') + (length word + (k + 1))) by lia.
    rewrite skipn_app, skipn_all2 by lia.
    replace (length (c :: run') + (length word + (k + 1)) - length (c :: run'))
      with (length word + (k + 1)) by lia.
    rewrite skipn_app, skipn_all2 by lia.
    replace (length word + (k + 1) - length word) with (k + 1) by lia.
    simpl. exact Hskip.
  - now rewrite (matchEol_text w R Hw Hblank).
Qed.

(** Scanning for the opening fence inside a line finds nothing. *)
Lemma findOpenFence_inside (l R : str) (ls : list str) (i : nat) :
  oneLine l -> follows R ls ->
  findOpenFence (l ++ R) false i
  = match R with
    | [] => None
    | _ => findOpenFence (concat ls) true (i + length l + 1)
    end.
Proof.
  intros Hl HR. revert i. induction l as [|c l IH]; intros i.
  - destruct HR as [|t ls Ht Hls]; [reflexivity|].
    cbn [app findOpenFence length]. rewrite Ht. f_equal. lia.
  - apply oneLine_cons in Hl as [Hc Hl].
    cbn [app findOpenFence length]. rewrite Hc, IH by exact Hl.
    destruct R; [reflexivity|]. f_equal. lia.
Qed.

(** A line that does not open a fence is passed over. *)
Lemma findOpenFence_pass (l R : str) (ls : list str) (i : nat) :
  oneLine l -> follows R ls -> openLine l = None ->
  findOpenFence (l ++ R) true i
  = match R with
    | [] => None
    | _ => findOpenFence (concat ls) true (i + length l + 1)
    end.
Proof.
  intros Hl HR Hnone.
  pose proof (openFenceAt_line l R ls Hl HR) as Hopen. rewrite Hnone in Hopen.
  destruct l as [|x l'].
  - destruct HR as [|t ls Ht Hls]; [reflexivity|].
    cbn [app] in *. cbn [findOpenFence]. rewrite Hopen, Ht. f_equal; simpl; lia.
  - cbn [app] in *. cbn [findOpenFence]. rewrite Hopen.
    apply oneLine_cons in Hl as [Hx Hl']. rewrite Hx.
    rewrite (findOpenFence_inside l' R ls) by assumption.
    destruct R; [reflexivity|]. f_equal. simpl. lia.
Qed.

Lemma afterOpener_chunked (ls : list str) :
  chunked ls -> forall c n rest, afterOpener ls = Some (c, n, rest) ->
  rest = [] \/ chunked rest.
Proof.
  induction 1 as [l Hl | l t ls Hl Ht Hls IH]; intros c n rest; cbn [afterOpener].
  - destruct (openLine l) as [[c' n']|]; [|discriminate].
    intros Heq. injection Heq as <- <- <-. now left.
  - destruct (openLine (l ++ [t])) as [[c' n']|]; [|apply IH].
    intros Heq. injection Heq as <- <- <-. now right.
Qed.

(** The search for the opening fence, line by line. *)
Lemma findOpenFence_lines (ls : list str) :
  chunked ls -> forall i,
  match afterOpener ls with
  | None => findOpenFence (concat ls) true i = None
  | Some (c, n, rest) =>
      isFenceChar c = true
      /\ exists d m, findOpenFence (concat ls) true i = Some (i + d, c, m)
                     /\ skipn (d + m + 1) (concat ls) = concat (dropWhile isBlank rest)
  end.
Proof.
  induction 1 as [l Hl | l t ls Hl Ht Hls IH]; intros i; cbn [afterOpener concat].
  - rewrite app_nil_r.
    pose proof (openFenceAt_line l [] [] Hl follows_nothing) as Hopen.
    rewrite app_nil_r in Hopen.
    destruct (openLine l) as [[c n]|] eqn:Eopen.
    + destruct Hopen as (Hc & m & Hm & Hskip). split; [exact Hc|].
      exists 0, m. split; [|exact Hskip]. rewrite Nat.add_0_r.
      destruct l; cbn [findOpenFence]; rewrite Hm; reflexivity.
    + pose proof (findOpenFence_pass l [] [] i Hl follows_nothing Eopen) as Hpass.
      now rewrite app_nil_r in Hpass.
  - rewrite openLine_end by exact Ht. rewrite <- app_assoc. cbn [app].
    pose proof (openFenceAt_line l (t :: concat ls) ls Hl (follows_lines t ls Ht Hls)) as Hopen.
    destruct (openLine l) as [[c n]|] eqn:Eopen.
    + destruct Hopen as (Hc & m & Hm & Hskip). split; [exact Hc|].
      exists 0, m. split; [|exact Hskip]. rewrite Nat.add_0_r.
      destruct l; cbn [app findOpenFence] in *; rewrite Hm; reflexivity.
    + rewrite (findOpenFence_pass l (t :: concat ls) ls i Hl
                 (follows_lines t ls Ht Hls) Eopen).
      specialize (IH (i + length l + 1)).
      destruct (afterOpener ls) as [[[c n] rest]|]; [|exact IH].
      destruct IH as (Hc & d & m & Hfind & Hskip). split; [exact Hc|].
      exists (length l + 1 + d), m. split.
      * rewrite Hfind.
        replace (i + length l + 1 + d) with (i + (length l + 1 + d)) by lia. reflexivity.
      * replace (length l + 1 + d + m + 1) with (length l + (1 + (d + m + 1))) by lia.
        rewrite skipn_app, skipn_all2 by lia.
        replace (length l + (1 + (d + m + 1)) - length l) with (1 + (d + m + 1)) by lia.
        simpl. exact Hskip.
Qed.

Lemma takeWhile_eqc_repeat (c : ascii) (l : str) :
  takeWhile (eqc c) l = repeat c (length (takeWhile (eqc c) l)).
Proof.
  induction l as [|x l IH]; [reflexivity|]. simpl.
  destruct (eqc c x) eqn:E; [|reflexivity].
  apply eqc_true in E. subst x. simpl. now rewrite <- IH.
Qed.

(** The closing pattern tried at the start of a line. *)
Lemma closeFenceAt_line (c : ascii) (l R : str) (ls : list str) :
  isFenceChar c = true -> oneLine l -> follows R ls ->
  let m := length (takeWhile (eqc c) l) in
  let w := dropWhile (eqc c) l in
  if bareFence c 3 l
  then exists k, closeFenceAt c (l ++ R) = Some (m + k)
                 /\ 3 <= m
                 /\ forallb isSpace (firstn k (w ++ R)) = true
  else closeFenceAt c (l ++ R) = None.
Proof.
  intros Hc Hl HR m w. unfold bareFence, closeFenceAt.
  destruct (follows_not (eqc c) R ls HR (fun t Ht => fence_not_terminator c t Hc Ht) l)
    as [-> ->].
  fold m. fold w.
  destruct (3 <=? m) eqn:H3; [|reflexivity]. cbn [andb].
  assert (Hw : oneLine w) by (unfold w; now apply oneLine_dropWhile).
  destruct (forallb isSpace w) eqn:Hblank.
  - destruct (matchEol_blank R ls w HR Hblank) as (k & -> & _ & Hws).
    exists k. apply Nat.leb_le in H3. auto.
  - now rewrite (matchEol_text w R Hw Hblank).
Qed.

(** Skipping over the rest of a fence run. *)
Lemma lastCloseFence_skip_run (c : ascii) (a k : nat) (s : str) (i : nat) (acc : option nat) :
  isLineTerminator c = false ->
  lastCloseFence c (repeat c a ++ s) false (a + k) i acc
  = lastCloseFence c s false k (i + a) acc.
Proof.
  intros Hc. revert i. induction a as [|a IH]; intros i.
  - simpl. now rewrite Nat.add_0_r.
  - cbn [repeat app Nat.add lastCloseFence]. rewrite Hc, IH. f_equal. lia.
Qed.

(** Skipping over white space changes nothing: no fence starts there. *)
Lemma lastCloseFence_skip_space (c : ascii) (k : nat) (t : str) (al : bool) (i : nat)
    (acc : option nat) :
  isSpace c = false -> forallb isSpace (firstn k t) = true ->
  lastCloseFence c t al k i acc = lastCloseFence c t al 0 i acc.
Proof.
  intros Hc. revert t al i. induction k as [|k IH]; intros t al i Hws; [reflexivity|].
  destruct t as [|x t]; [reflexivity|].
  cbn [firstn forallb] in Hws. apply andb_true_iff in Hws as [Hx Hws].
  cbn [lastCloseFence].
  assert (Hnone : (if al then closeFenceAt c (x :: t) else None) = None).
  { destruct al; [|reflexivity]. unfold closeFenceAt. simpl.
    destruct (eqc c x) eqn:E; [|reflexivity].
    apply eqc_true in E. subst x. congruence. }
  rewrite Hnone. now apply IH.
Qed.

(** Scanning to the end of a line away from its start finds nothing. *)
Lemma lastCloseFence_inside (c : ascii) (w R : str) (ls : list str) (i : nat)
    (acc : option nat) :
  oneLine w -> follows R ls ->
  lastCloseFence c (w ++ R) false 0 i acc
  = match R with
    | [] => acc
    | _ => lastCloseFence c (concat ls) true 0 (i + length w + 1) acc
    end.
Proof.
  intros Hw HR. revert i. induction w as [|x w IH]; intros i.
  - destruct HR as [|t ls Ht Hls]; [reflexivity|].
    cbn [app lastCloseFence length]. rewrite Ht. f_equal. lia.
  - apply oneLine_cons in Hw as [Hx Hw].
    cbn [app lastCloseFence length]. rewrite Hx, IH by exact Hw.
    destruct R; [reflexivity|]. f_equal. lia.
Qed.

(** One line of the scan for the closing fence. *)
Lemma lastCloseFence_line (c : ascii) (l R : str) (ls : list str) (i : nat)
    (acc : option nat) :
  isFenceChar c = true -> oneLine l -> follows R ls ->
  lastCloseFence c (l ++ R) true 0 i acc
  = let acc' := if bareFence c 3 l then Some i else acc in
    match R with
    | [] => acc'
    | _ => lastCloseFence c (concat ls) true 0 (i + length l + 1) acc'
    end.
Proof.
  intros Hc Hl HR. cbv zeta.
  destruct (fence_char_facts c Hc) as (Hsp & Hlt).
  pose proof (closeFenceAt_line c l R ls Hc Hl HR) as Hclose. cbv zeta in Hclose.
  destruct (bareFence c 3 l).
  - destruct Hclose as (k & Hat & H3 & Hws).
    assert (Hparts : l = repeat c (length (takeWhile (eqc c) l)) ++ dropWhile (eqc c) l).
    { rewrite <- takeWhile_eqc_repeat. now rewrite takeWhile_dropWhile. }
    set (m := length (takeWhile (eqc c) l)) in *.
    set (w := dropWhile (eqc c) l) in *.
    assert (Hw : oneLine w) by (unfold w; now apply oneLine_dropWhile).
    destruct m as [|m']; [lia|].
    assert (Hlen : length l = S m' + length w).
    { rewrite Hparts at 1. now rewrite length_app, repeat_length. }
    assert (Hshape : l ++ R = c :: repeat c m' ++ (w ++ R)).
    { rewrite Hparts at 1. cbn [repeat app]. now rewrite <- !app_assoc. }
    rewrite Hshape in Hat |- *.
    cbn [lastCloseFence]. rewrite Hat, Hlt.
    replace (S m' + k - 1) with (m' + k) by lia.
    rewrite lastCloseFence_skip_run by exact Hlt.
    rewrite lastCloseFence_skip_space by assumption.
    rewrite (lastCloseFence_inside c w R ls) by assumption.
    destruct R; [reflexivity|]. f_equal. lia.
  - destruct l as [|x l'].
    + destruct HR as [|t ls Ht Hls]; [reflexivity|].
      cbn [app] in *. cbn [lastCloseFence]. rewrite Hclose, Ht. f_equal; simpl; lia.
    + cbn [app] in *. cbn [lastCloseFence]. rewrite Hclose.
      apply oneLine_cons in Hl as [Hx Hl']. rewrite Hx.
      rewrite (lastCloseFence_inside c l' R ls) by assumption.
      destruct R; [reflexivity|]. f_equal. simpl. lia.
Qed.

(** The scan for the closing fence, line by line: the offset of the last
    bare fence line. *)
Lemma lastCloseFence_lines (c : ascii) (ls : list str) :
  isFenceChar c = true -> chunked ls -> forall i acc,
  lastCloseFence c (concat ls) true 0 i acc
  = match beforeLast (bareFence c 3) ls with
    | Some body => Some (i + length (concat body))
    | None => acc
    end.
Proof.
  intros Hc. induction 1 as [l Hl | l t ls Hl Ht Hls IH]; intros i acc;
    cbn [concat beforeLast].
  - rewrite app_nil_r.
    pose proof (lastCloseFence_line c l [] [] i acc Hc Hl follows_nothing) as Hline.
    rewrite app_nil_r in Hline. rewrite Hline. cbv zeta.
    destruct (bareFence c 3 l); [|reflexivity]. simpl. now rewrite Nat.add_0_r.
  - rewrite bareFence_end by assumption. rewrite <- app_assoc. cbn [app].
    rewrite (lastCloseFence_line c l (t :: concat ls) ls i acc Hc Hl
               (follows_lines t ls Ht Hls)).
    cbv zeta. rewrite IH.
    destruct (beforeLast (bareFence c 3) ls) as [body|].
    + cbn [concat]. rewrite !length_app. simpl. f_equal. lia.
    + destruct (bareFence c 3 l); [|reflexivity]. simpl. now rewrite Nat.add_0_r.
Qed.

Lemma beforeLast_split (f : str -> bool) (ls body : list str) :
  beforeLast f ls = Some body ->
  exists closer rest, ls = body ++ closer :: rest /\ f closer = true
                      /\ beforeLast f rest = None.
Proof.
  revert body. induction ls as [|l ls IH]; intros body Hb; [discriminate|].
  cbn [beforeLast] in Hb. destruct (beforeLast f ls) as [body'|] eqn:E.
  - injection Hb as <-. destruct (IH body' eq_refl) as (closer & rest & -> & Hf & Hrest).
    exists closer, rest. auto.
  - destruct (f l) eqn:Hf; [|discriminate]. injection Hb as <-.
    exists l, ls. auto.
Qed.

Lemma chunked_dropWhile (f : str -> bool) (ls : list str) :
  chunked ls -> dropWhile f ls = [] \/ chunked (dropWhile f ls).
Proof.
  induction 1 as [l Hl | l t ls Hl Ht Hls IH]; cbn [dropWhile].
  - destruct (f l); [now left|right; now constructor].
  - destruct (f (l ++ [t])); [exact IH|right; now constructor].
Qed.

(** The extractor on a text given by its lines. *)
Lemma extractCodeBlock_lines (ls : list str) :
  chunked ls ->
  extractCodeBlock (concat ls)
  = match afterOpener ls with
    | None => None
    | Some (c, _, rest) =>
        match beforeLast (bareFence c 3) (dropWhile isBlank rest) with
        | None => None
        | Some body => Some (trimEnd (concat body))
        end
    end.
Proof.
  intros Hls. unfold extractCodeBlock.
  pose proof (findOpenFence_lines ls Hls 0) as Hopen.
  pose proof (afterOpener_chunked ls Hls) as Hrest.
  destruct (afterOpener ls) as [[[c n] rest]|]; [|now rewrite Hopen].
  destruct Hopen as (Hc & d & m & -> & Hskip).
  specialize (Hrest c n rest eq_refl).
  cbv zeta. unfold sliceFrom, sliceTo.
  replace (0 + d + m + 1) with (d + m + 1) by lia. rewrite Hskip.
  assert (Hbody : dropWhile isBlank rest = [] \/ chunked (dropWhile isBlank rest)).
  { destruct Hrest as [-> | Hrest]; [now left|now apply chunked_dropWhile]. }
  destruct Hbody as [-> | Hbody]; [reflexivity|].
  rewrite (lastCloseFence_lines c _ Hc Hbody).
  destruct (beforeLast (bareFence c 3) (dropWhile isBlank rest)) as [body|] eqn:Elast;
    [|reflexivity].
  destruct (beforeLast_split _ _ _ Elast) as (closer & after & -> & _ & _).
  rewrite concat_app. simpl.
  now rewrite firstn_app, firstn_all, Nat.sub_diag, firstn_0, app_nil_r.
Qed.

(** The extractor agrees with its description by lines on every input. *)
Lemma extractCodeBlock_chunks (input : str) :
  extractCodeBlock input = codeBlockByLines input.
Proof.
  unfold codeBlockByLines. rewrite <- (concat_chunks input) at 1.
  apply extractCodeBlock_lines, chunks_chunked.
Qed.

(** C5, as amended.  [extractCodeBlock] returns what the description by
    lines gives: the first line that opens a fence (a run of three or more
    backticks or tildes, then an optional info string made of word
    characters only, then white space only) decides the fence character,
    the first of the run; the blank lines that directly follow it are
    dropped; the content ends before
    the last later line that is a bare fence of that character with a run of
    three or more, whatever the length of the opening run; the lines between
    are taken as they are and their trailing white space is stripped.  The
    result is null when there is no opening fence line or no such closing
    line after it. *)
Theorem extractCodeBlock_by_lines (input : str) :
  extractCodeBlock input = codeBlockByLines input
  /\ (afterOpener (chunks input) = None -> extractCodeBlock input = None)
  /\ (forall c n rest, afterOpener (chunks input) = Some (c, n, rest) ->
        beforeLast (bareFence c 3) (dropWhile isBlank rest) = None ->
        extractCodeBlock input = None)
  /\ (forall c n rest body, afterOpener (chunks input) = Some (c, n, rest) ->
        beforeLast (bareFence c 3) (dropWhile isBlank rest) = Some body ->
        extractCodeBlock input = Some (trimEnd (concat body))).
Proof.
  assert (Heq : extractCodeBlock input = codeBlockByLines input).
  { unfold codeBlockByLines. rewrite <- (concat_chunks input) at 1.
    apply extractCodeBlock_lines, chunks_chunked. }
  split; [exact Heq|]. rewrite Heq. unfold codeBlockByLines. split; [|split].
  - now intros ->.
  - intros c n rest -> ->. reflexivity.
  - intros c n rest body -> ->. reflexivity.
Qed.

End LineFacts.

Section ExtractorRuns.
Import JS Parser Lines Samples.

Lemma extractCodeBlock_by_lines_witness :
  extractCodeBlock shorterCloser = Some (lit "A" ++ [nl] ++ lit "````" ++ [nl] ++ lit "B").
Proof.
  exact (proj2 (proj2 (proj2 (extractCodeBlock_by_lines shorterCloser)))
           backtick 4
           [lit "A" ++ [nl]; lit "````" ++ [nl]; lit "B" ++ [nl]; lit "```"]
           [lit "A" ++ [nl]; lit "````" ++ [nl]; lit "B" ++ [nl]]
           eq_refl eq_refl).
Defined.

(** C5 as stated fails: after an opener of four backticks the content runs
    to the last line of three backticks, past the last line whose run is as
    long as the opener's. *)
Lemma shorter_closing_fence_accepted :
  extractCodeBlock shorterCloser = Some (lit "A" ++ [nl] ++ lit "````" ++ [nl] ++ lit "B")
  /\ codeBlockAsSpecified shorterCloser = Some (lit "A")
  /\ extractCodeBlock shorterCloser <> codeBlockAsSpecified shorterCloser.
Proof. repeat split. discriminate. Qed.

End ExtractorRuns.

(** ** WRITE_FILE and the extracted block *)
Section WriteFileFacts.
Import JS Parser Eff Lines.
Context {W : Type} `{Platform W}.


End WriteFileFacts.

Section WriteFileRuns.
Import JS Parser Eff Lines Script Samples.



End WriteFileRuns.

Section MoreStringFacts.
Import JS.

Lemma dropWhile_idem {A} (p : A -> bool) (l : list A) :
  dropWhile p (dropWhile p l) = dropWhile p l.
Proof.
  pose proof (dropWhile_head p l) as H. destruct (dropWhile p l) as [|x r]; [reflexivity|].
  now apply dropWhile_stop.
Qed.

Lemma trimEnd_idem (s : str) : trimEnd (trimEnd s) = trimEnd s.
Proof. unfold trimEnd. now rewrite rev_involutive, dropWhile_idem. Qed.

Lemma trimEnd_cons (c : ascii) (s : str) :
  isSpace c = false -> exists r, trimEnd (c :: s) = c :: r.
Proof.
  intros Hc. unfold trimEnd. simpl rev.
  destruct (dropWhile isSpace (rev s)) as [|x r] eqn:E.
  - apply dropWhile_nil_all in E. rewrite dropWhile_app_all by exact E.
    simpl. rewrite Hc. now exists [].
  - pose proof (takeWhile_dropWhile isSpace (rev s)) as Hsplit. rewrite E in Hsplit.
    rewrite <- Hsplit, <- app_assoc.
    pose proof (dropWhile_head isSpace (rev s)) as Hh. rewrite E in Hh.
    rewrite dropWhile_app_all by apply takeWhile_all.
    simpl app. rewrite dropWhile_stop by exact Hh.
    simpl rev. rewrite rev_app_distr. simpl. now eexists.
Qed.

Lemma trimStart_trimEnd (s : str) :
  trimStart (trimEnd (trimStart s)) = trimEnd (trimStart s).
Proof.
  unfold trimStart. pose proof (dropWhile_head isSpace s) as H.
  destruct (dropWhile isSpace s) as [|c r]; [reflexivity|].
  destruct (trimEnd_cons c r H) as [r' ->]. now apply dropWhile_stop.
Qed.

Lemma trim_idem (s : str) : trim (trim s) = trim s.
Proof. unfold trim. now rewrite trimStart_trimEnd, trimEnd_idem. Qed.

End MoreStringFacts.

Section MarkerFacts.
Import JS Parser.

Lemma lastIndexOfFrom_shift (needle s : str) (i : nat) (acc : option nat) :
  lastIndexOfFrom needle s i acc
  = match lastIndexOfFrom needle s 0 None with
    | Some p => Some (i + p)
    | None => acc
    end.
Proof.
  revert i acc. induction s as [|c s IH]; intros i acc; cbn [lastIndexOfFrom].
  - destruct (startsWith needle []); [now rewrite Nat.add_0_r|reflexivity].
  - rewrite (IH (S i)), (IH 1).
    destruct (lastIndexOfFrom needle s 0 None) as [p|].
    + f_equal. lia.
    + destruct (startsWith needle (c :: s)); [now rewrite Nat.add_0_r|reflexivity].
Qed.

Lemma lastIndexOf_cons (needle : str) (c : ascii) (s : str) :
  lastIndexOf needle (c :: s)
  = match lastIndexOf needle s with
    | Some p => Some (S p)
    | None => if startsWith needle (c :: s) then Some 0 else None
    end.
Proof.
  unfold lastIndexOf. cbn [lastIndexOfFrom]. rewrite lastIndexOfFrom_shift.
  destruct (lastIndexOfFrom needle s 0 None); reflexivity.
Qed.

Lemma lastIndexOf_bound (needle s : str) (p : nat) :
  lastIndexOf needle s = Some p -> p <= length s.
Proof.
  revert p. induction s as [|c s IH]; intros p.
  - unfold lastIndexOf. cbn. destruct (startsWith needle []); intros [= <-] || discriminate. lia.
  - rewrite lastIndexOf_cons. destruct (lastIndexOf needle s) as [q|].
    + intros [= <-]. specialize (IH q eq_refl). simpl. lia.
    + destruct (startsWith needle (c :: s)); [intros [= <-]; simpl; lia|discriminate].
Qed.

(** At the last occurrence the needle starts, and looking again from there
    finds it at position 0. *)
Lemma lastIndexOf_there (needle s : str) (p : nat) :
  lastIndexOf needle s = Some p ->
  startsWith needle (skipn p s) = true /\ lastIndexOf needle (skipn p s) = Some 0.
Proof.
  revert p. induction s as [|c s IH]; intros p.
  - unfold lastIndexOf. cbn. destruct (startsWith needle []) eqn:E; [|discriminate].
    intros [= <-]. cbn. now rewrite E.
  - rewrite lastIndexOf_cons. destruct (lastIndexOf needle s) as [q|] eqn:Eq.
    + intros [= <-]. cbn [skipn]. now apply IH.
    + destruct (startsWith needle (c :: s)) eqn:E; [|discriminate].
      intros [= <-]. cbn [skipn]. split; [exact E|].
      rewrite lastIndexOf_cons, Eq, E. reflexivity.
Qed.

End MarkerFacts.

Section ResponseFacts.
Import JS Parser Shape.

Lemma fold_left_invariant {A B} (f : A -> B -> A) (P : A -> Prop) (l : list B) (a : A) :
  (forall a b, P a -> P (f a b)) -> P a -> P (fold_left f l a).
Proof. intros Hf. revert a. induction l as [|b l IH]; simpl; auto. Qed.

Lemma tidy_finish (st : PState) : tidy st -> tidy (finishCurrentTool st).
Proof.
  unfold tidy, finishCurrentTool. intros [Ht Hl]. destruct (currentTool st); [|easy].
  simpl. split; [|exact Hl]. apply Forall_app. split; [exact Ht|].
  constructor; [apply trim_idem|constructor].
Qed.

Lemma tidy_step (st : PState) (line : str) : tidy st -> tidy (step st line).
Proof.
  intros Hst. unfold step.
  assert (H1 : tidy (trackFence st line)).
  { unfold trackFence. destruct (fenceMatch line); [|exact Hst].
    destruct (negb (inCodeBlock st)); [exact Hst|].
    destruct (isClosingFence st line l); exact Hst. }
  revert H1. generalize (trackFence st line). clear st Hst. intros st Hst.
  destruct (header st line) as [st2|] eqn:Eh.
  - unfold header in Eh. destruct (shouldRecognizeHeader st line); [|discriminate].
    repeat match type of Eh with
           | (if ?b then _ else _) = _ => destruct b
           end; try discriminate; injection Eh as <-;
      first [exact Hst | exact (tidy_finish st Hst)].
  - unfold collect. destruct (currentSection st); try exact Hst.
    + destruct (taskMatch line) as [[c t]|]; [|exact Hst].
      destruct Hst as [Ht Hl]. split; [exact Ht|]. simpl.
      apply Forall_app. split; [exact Hl|]. constructor; [apply trim_idem|constructor].
    + destruct (currentTool st); [exact Hst|].
      destruct (toolNamed _); exact Hst.
Qed.

Lemma places_finish (st : PState) :
  length (st_tools (finishCurrentTool st)) <= places st
  /\ currentTool (finishCurrentTool st) = None.
Proof.
  unfold places, finishCurrentTool. destruct (currentTool st) eqn:E; simpl.
  - split; [|reflexivity]. rewrite length_app. simpl. lia.
  - rewrite E. split; [lia|reflexivity].
Qed.

Lemma places_step (st : PState) (line : str) :
  places (step st line) <= places st + credit line.
Proof.
  unfold step.
  assert (H1 : places (trackFence st line) = places st).
  { unfold trackFence. destruct (fenceMatch line); [|reflexivity].
    destruct (negb (inCodeBlock st)); [reflexivity|].
    destruct (isClosingFence st line l); reflexivity. }
  rewrite <- H1. generalize (trackFence st line). clear st H1. intros st.
  destruct (header st line) as [st2|] eqn:Eh.
  - unfold header in Eh. destruct (shouldRecognizeHeader st line); [|discriminate].
    destruct (places_finish st) as [Hlen Hcur].
    destruct (startsWith (lit "## Thoughts") line).
    { injection Eh as <-. unfold places at 1. simpl. rewrite Hcur. lia. }
    destruct (startsWith (lit "## Task List") line).
    { injection Eh as <-. unfold places at 1. simpl. rewrite Hcur. lia. }
    unfold credit. destruct (isToolChoiceHeader line).
    { injection Eh as <-. unfold places at 1. simpl. rewrite Hcur. lia. }
    destruct (isToolInputHeader line); [|discriminate].
    injection Eh as <-. unfold places. simpl.
    destruct (currentTool st); destruct (currentSection st); lia.
  - unfold collect. destruct (currentSection st) eqn:Es; try lia.
    + unfold places. simpl. rewrite Es. lia.
    + destruct (taskMatch line) as [[c t]|]; [|lia]. unfold places. simpl. rewrite Es. lia.
    + destruct (currentTool st) eqn:Ec; [lia|].
      destruct (toolNamed _); [|lia]. unfold places. simpl. rewrite Ec, Es. lia.
    + unfold places. simpl. rewrite Es. lia.
Qed.

Lemma places_fold (lines : list str) (st : PState) :
  places (fold_left step lines st)
  <= places st + length (filter isToolChoiceHeader lines).
Proof.
  revert st. induction lines as [|l lines IH]; intros st; simpl; [lia|].
  specialize (IH (step st l)). pose proof (places_step st l) as Hs. unfold credit in Hs.
  destruct (isToolChoiceHeader l); simpl; lia.
Qed.

(** X1.  Parsing a response is parsing its part from the last occurrence of the
    marker on: the text before it plays no part, and without a marker the
    result is null. *)
Theorem parseResponse_from_last_marker (fullResponse : str) :
  parseResponse fullResponse
  = match lastIndexOf marker fullResponse with
    | None => None
    | Some lastIdx => parseResponse (sliceFrom lastIdx fullResponse)
    end.
Proof.
  unfold parseResponse at 1. destruct (lastIndexOf marker fullResponse) as [i|] eqn:E;
    [|reflexivity].
  unfold parseResponse, sliceFrom. rewrite (proj2 (lastIndexOf_there _ _ _ E)). reflexivity.
Qed.

(** X2.  A parsed response has at least one tool; its accessors [toolChoice] and
    [toolInput] are those of the first tool; [raw] is the end of the text and
    starts with the marker; the thoughts, every tool input and every task
    text are trimmed. *)
Theorem parsed_response_shape (fullResponse : str) (parsed : ParsedResponse) :
  parseResponse fullResponse = Some parsed ->
  (exists t rest, tools parsed = t :: rest
                  /\ firstToolChoice parsed = toolChoice t
                  /\ firstToolInput parsed = toolInput t)
  /\ startsWith marker (raw parsed) = true
  /\ (exists before, fullResponse = before ++ raw parsed)
  /\ trim (thoughts parsed) = thoughts parsed
  /\ Forall (fun t => trim (toolInput t) = toolInput t) (tools parsed)
  /\ Forall (fun t => trim (text t) = text t) (taskList parsed).
Proof.
  unfold parseResponse. destruct (lastIndexOf marker fullResponse) as [i|] eqn:E;
    [|discriminate].
  cbv zeta.
  set (st := finishCurrentTool (fold_left step (splitLines (sliceFrom i fullResponse)) initial)).
  assert (Hst : tidy st).
  { apply tidy_finish, fold_left_invariant; [exact tidy_step|]. split; constructor. }
  destruct (st_tools st) as [|t rest] eqn:Et; [discriminate|].
  intros [= <-]. cbn. rewrite <- Et. destruct Hst as [Htools Htasks].
  repeat split.
  - exists t, rest. rewrite Et. auto.
  - exact (proj1 (lastIndexOf_there _ _ _ E)).
  - exists (firstn i fullResponse). unfold sliceFrom. symmetry. apply firstn_skipn.
  - apply trim_idem.
  - exact Htools.
  - exact Htasks.
Qed.

(** X3.  A response yields at most as many tool calls as it has lines that begin
    with the tool-choice header. *)
Theorem tools_bounded_by_headers (fullResponse : str) (parsed : ParsedResponse) :
  parseResponse fullResponse = Some parsed ->
  1 <= length (tools parsed)
  /\ length (tools parsed)
     <= length (filter isToolChoiceHeader (splitLines (raw parsed))).
Proof.
  unfold parseResponse. destruct (lastIndexOf marker fullResponse) as [i|]; [|discriminate].
  cbv zeta.
  pose proof (places_fold (splitLines (sliceFrom i fullResponse)) initial) as Hfold.
  pose proof (places_finish (fold_left step (splitLines (sliceFrom i fullResponse)) initial))
    as [Hfin _].
  destruct (st_tools (finishCurrentTool _)) as [|t rest] eqn:Et; [discriminate|].
  intros [= <-]. cbn [tools raw]. change (places initial) with 0 in Hfold.
  cbn [length] in *. unfold sliceFrom in *. split; lia.
Qed.

End ResponseFacts.

Section ExtractorFacts.
Import JS Parser.

Lemma eqs_true (a b : str) : eqs a b = true <-> a = b.
Proof.
  revert b. induction a as [|x a IH]; intros [|y b]; simpl; try easy.
  rewrite andb_true_iff, eqc_true, IH. split; [intros [-> ->]; reflexivity|intros [= -> ->]; auto].
Qed.

Lemma toolNamed_iff (s : str) (t : ToolName) :
  toolNamed s = Some t <-> s = toolString t.
Proof.
  split.
  - unfold toolNamed. intros Hf. apply find_some in Hf as [_ Hf].
    apply eqs_true in Hf. now symmetry.
  - intros ->. now destruct t.
Qed.

(** X4.  In a tool-choice section that has not named its tool yet, a line selects
    the tool [t] exactly when its text, trimmed and in upper case, is the
    name of [t]. *)
Theorem tool_choice_by_name (st : PState) (line : str) (t : ToolName) :
  currentSection st = toolChoiceSec ->
  currentTool st = None ->
  (currentTool (collect st line) = Some t <-> toUpperCase (trim line) = toolString t).
Proof.
  intros Hsec Hcur. unfold collect. rewrite Hsec, Hcur.
  rewrite <- toolNamed_iff.
  destruct (toolNamed (toUpperCase (trim line))) as [u|]; simpl; [easy|].
  rewrite Hcur. easy.
Qed.

Lemma tool_choice_by_name_witness :
  currentTool (collect (enter initial toolChoiceSec) (lit "  read_file ")) = Some READ_FILE.
Proof.
  exact (proj2 (tool_choice_by_name (enter initial toolChoiceSec) (lit "  read_file ")
                  READ_FILE eq_refl eq_refl) eq_refl).
Defined.

(** X5.  A path given in double quotes is returned without the quotes, whatever
    follows the closing quote; and the path extracted from any input is
    trimmed. *)
Theorem extractPath_quoted (p rest : str) (input : str) :
  (p <> [] -> forallb (fun c => negb (eqc c dquote)) p = true ->
   extractPath (dquote :: p ++ dquote :: rest) = trim p)
  /\ trim (extractPath input) = extractPath input.
Proof.
  split.
  - intros Hp Hq. unfold extractPath. rewrite eqc_refl.
    destruct (takeWhile_app_stop (fun c => negb (eqc c dquote)) p (dquote :: rest) Hq)
      as [-> ->].
    { now rewrite eqc_refl. }
    destruct p; [congruence|reflexivity].
  - unfold extractPath.
    destruct (match input with
              | [] => None
              | q :: rest0 => _
              end); apply trim_idem.
Qed.

Lemma extractPath_quoted_witness :
  extractPath (dquote :: lit "my notes.txt" ++ dquote :: lit " and more") = lit "my notes.txt".
Proof.
  exact (proj1 (extractPath_quoted (lit "my notes.txt") (lit " and more") []) 
           ltac:(discriminate) eq_refl).
Defined.

End ExtractorFacts.

Section ResponseRuns.
Import JS Parser Script.

Lemma parsed_response_shape_witness :
  (exists t rest, tools auditDoneParsed = t :: rest
                  /\ firstToolChoice auditDoneParsed = toolChoice t
                  /\ firstToolInput auditDoneParsed = toolInput t)
  /\ startsWith marker (raw auditDoneParsed) = true
  /\ (exists before, lit "Sure." ++ [nl] ++ auditDoneReply = before ++ raw auditDoneParsed)
  /\ trim (thoughts auditDoneParsed) = thoughts auditDoneParsed
  /\ Forall (fun t => trim (toolInput t) = toolInput t) (tools auditDoneParsed)
  /\ Forall (fun t => trim (text t) = text t) (taskList auditDoneParsed).
Proof.
  assert (Hparse : parseResponse (lit "Sure." ++ [nl] ++ auditDoneReply) = Some auditDoneParsed)
    by (vm_compute; reflexivity).
  exact (parsed_response_shape (lit "Sure." ++ [nl] ++ auditDoneReply) auditDoneParsed Hparse).
Defined.

Lemma tools_bounded_by_headers_witness :
  1 <= length (tools auditDoneParsed)
  /\ length (tools auditDoneParsed)
     <= length (filter isToolChoiceHeader (splitLines (raw auditDoneParsed))).
Proof.
  assert (Hparse : parseResponse auditDoneReply = Some auditDoneParsed)
    by (vm_compute; reflexivity).
  exact (tools_bounded_by_headers auditDoneReply auditDoneParsed Hparse).
Defined.

End ResponseRuns.

Section FencedBlocks.
Import JS Parser Lines.

(** The lines of a text: complete lines, then a last piece without a line
    end. *)
Lemma chunked_split (ls : list str) :
  chunked ls ->
  exists complete last,
    ls = complete ++ [last] /\ oneLine last
    /\ (forall more, chunked more -> chunked (complete ++ more))
    /\ (complete = [] \/ exists c l rest, complete = (c :: l) :: rest).
Proof.
  induction 1 as [l Hl | l t ls Hl Ht Hls (complete & last & -> & Hlast & Hmore & _)].
  - exists [], l. repeat split; auto.
  - exists ((l ++ [t]) :: complete), last. repeat split; auto.
    + intros more Hm. cbn [app]. constructor; auto.
    + right. destruct l as [|c l]; simpl; eauto.
Qed.

Lemma beforeLast_closing (closes : str -> bool) (body : list str) (closer : str) :
  closes closer = true -> beforeLast closes (body ++ [closer]) = Some body.
Proof.
  intros Hc. induction body as [|l body IH]; cbn [app beforeLast].
  - now rewrite Hc.
  - now rewrite IH.
Qed.

Lemma trimEnd_line_end (s : str) (t : ascii) :
  isSpace t = true -> trimEnd (s ++ [t]) = trimEnd s.
Proof. intros Ht. unfold trimEnd. rewrite rev_app_distr. simpl. now rewrite Ht. Qed.

Lemma word_not_fence (c : ascii) : isWord c = true -> isFenceChar c = false.
Proof.
  destruct c as [[] [] [] [] [] [] [] []]; vm_compute; congruence.
Qed.

Lemma openLine_tagged (tag : str) :
  forallb isWord tag = true -> openLine (lit "```" ++ tag) = Some (backtick, 3).
Proof.
  intros Htag. unfold openLine.
  assert (Hrun : takeWhile isFenceChar tag = [] /\ dropWhile isFenceChar tag = tag).
  { destruct tag as [|w tag]; [easy|]. simpl in Htag. apply andb_true_iff in Htag as [Hw _].
    simpl. now rewrite (word_not_fence w Hw). }
  destruct Hrun as [Hrun Hdrop].
  change (takeWhile isFenceChar (lit "```" ++ tag))
    with (backtick :: backtick :: backtick :: takeWhile isFenceChar tag).
  change (dropWhile isFenceChar (lit "```" ++ tag)) with (dropWhile isFenceChar tag).
  rewrite Hrun, Hdrop. cbn [length Nat.leb andb].
  now rewrite (dropWhile_all isWord tag Htag).
Qed.

(** A block opened by three backticks and an info string, whose content
    starts with a character that is not white space, closed by a last line
    of three backticks, with [before] made of complete lines none of which
    opens a fence. *)
Lemma extract_fenced (before : list str) (tag : str) (c : ascii) (r : str) :
  (forall more, chunked more -> chunked (before ++ more)) ->
  (forall more, afterOpener (before ++ more) = afterOpener more) ->
  forallb isWord tag = true ->
  isSpace c = false ->
  extractCodeBlock (concat before ++ lit "```" ++ tag ++ [nl] ++ (c :: r) ++ [nl] ++ lit "```")
  = Some (trimEnd (c :: r)).
Proof.
  intros Hbefore Hskip Htag Hc.
  destruct (chunked_split _ (chunks_chunked (c :: r)))
    as (complete & last & Hsplit & Hlast & Hmore & Hhead).
  pose proof (concat_chunks (c :: r)) as Hbody. rewrite Hsplit in Hbody.
  rewrite concat_app in Hbody. simpl in Hbody. rewrite app_nil_r in Hbody.
  set (content := complete ++ [last ++ [nl]]).
  set (ls := before ++ (lit "```" ++ tag ++ [nl]) :: content ++ [lit "```"]).
  assert (Hcontent : chunked (content ++ [lit "```"])).
  { unfold content. rewrite <- app_assoc. apply Hmore. cbn [app].
    constructor; [exact Hlast|reflexivity|]. now constructor. }
  assert (Hls : chunked ls).
  { unfold ls. apply Hbefore.
    change (lit "```" ++ tag ++ [nl]) with ((lit "```" ++ tag) ++ [nl]).
    constructor; [|reflexivity|exact Hcontent].
    apply oneLine_app. split; [reflexivity|].
    unfold oneLine. rewrite forallb_forall. intros x Hx.
    rewrite forallb_forall in Htag. specialize (Htag x Hx).
    destruct (isLineTerminator x) eqn:Ex; [|reflexivity].
    destruct (terminator_facts x Ex) as (_ & Hw & _). congruence. }
  assert (Hconcat : concat ls
                    = concat before ++ lit "```" ++ tag ++ [nl] ++ (c :: r) ++ [nl] ++ lit "```").
  { unfold ls, content. rewrite concat_app. f_equal. cbn [concat].
    rewrite !concat_app. cbn [concat]. rewrite !app_nil_r, <- Hbody.
    rewrite <- !app_assoc. reflexivity. }
  rewrite <- Hconcat, (extractCodeBlock_lines ls Hls). unfold ls.
  rewrite Hskip. cbn [afterOpener].
  replace (lit "```" ++ tag ++ [nl]) with ((lit "```" ++ tag) ++ [nl])
    by now rewrite <- app_assoc.
  rewrite openLine_end by reflexivity. rewrite (openLine_tagged tag Htag).
  assert (Hfirst : dropWhile isBlank (content ++ [lit "```"]) = content ++ [lit "```"]).
  { unfold content. destruct Hhead as [-> | (c' & l & rest & ->)].
    - simpl in Hbody. subst last. cbn [app dropWhile isBlank forallb]. now rewrite Hc.
    - simpl in Hbody. injection Hbody as -> _. cbn [app dropWhile isBlank forallb].
      now rewrite Hc. }
  rewrite Hfirst, beforeLast_closing by reflexivity.
  unfold content. rewrite concat_app. cbn [concat]. rewrite app_nil_r, app_assoc, Hbody.
  now rewrite trimEnd_line_end.
Qed.

End FencedBlocks.

Section FencedTools.
Import JS Parser Lines Eff.
Context {W : Type} `{Platform W}.

Lemma afterOpener_plain (ls : list str) :
  forallb (fun x => negb (isFenceChar x)) (concat ls) = true -> afterOpener ls = None.
Proof.
  induction ls as [|l ls IH]; [reflexivity|]. cbn [concat afterOpener].
  rewrite forallb_app. intros Hall. apply andb_true_iff in Hall as [Hl Hls].
  rewrite (IH Hls). unfold openLine.
  destruct l as [|x l]; [reflexivity|]. simpl in Hl. apply andb_true_iff in Hl as [Hx _].
  apply negb_true_iff in Hx. simpl. now rewrite Hx.
Qed.

Lemma extractPath_first_line (p : ascii) (path' rest : str) :
  eqc p dquote = false ->
  oneLine (p :: path') ->
  extractPath ((p :: path') ++ nl :: rest) = trim (p :: path').
Proof.
  intros Hq Hline. unfold extractPath.
  destruct (takeWhile_app_stop (fun x => negb (eqc x nl)) (p :: path') (nl :: rest)) as [Ht _].
  - unfold oneLine in Hline. rewrite forallb_forall in *. intros x Hx.
    specialize (Hline x Hx). destruct (eqc x nl) eqn:E; [|reflexivity].
    apply eqc_true in E. now subst x.
  - reflexivity.
  - rewrite Ht. cbn [app]. now rewrite Hq.
Qed.

(** X6.  The content of a fenced block comes back as it went in: for a block
    opened by three backticks and an info string [tag] made of word
    characters only (it may be empty) and closed by a last line of three
    backticks, the extractor returns the content with its trailing white
    space stripped, whatever fence lines the content itself holds, provided
    the content starts with a character that is not white space. *)
Theorem fenced_content_round_trip (tag : str) (c : ascii) (r : str) :
  forallb isWord tag = true ->
  isSpace c = false ->
  extractCodeBlock (lit "```" ++ tag ++ [nl] ++ (c :: r) ++ [nl] ++ lit "```")
  = Some (trimEnd (c :: r)).
Proof.
  intros Htag Hc. apply (extract_fenced [] tag c r); auto.
Qed.

Lemma fenced_content_round_trip_witness :
  extractCodeBlock (lit "```" ++ lit "md" ++ [nl]
                      ++ lit "# Title" ++ [nl] ++ lit "```" ++ [nl] ++ lit "ls" ++ [nl] ++ lit "```"
                      ++ [nl] ++ lit "```")
  = Some (lit "# Title" ++ [nl] ++ lit "```" ++ [nl] ++ lit "ls" ++ [nl] ++ lit "```").
Proof.
  exact (fenced_content_round_trip (lit "md") "#"
           (lit " Title" ++ [nl] ++ lit "```" ++ [nl] ++ lit "ls" ++ [nl] ++ lit "```")
           eq_refl eq_refl).
Defined.

(** X7.  The command of a COMMAND call: an input without any backtick or tilde is
    the command as it stands, not even trimmed; for an input that is one
    fenced block (three backticks, an info string [tag] of word characters
    only, a content that starts with a character that is not white space, a
    last line of three backticks) it is the content with its trailing white
    space stripped. *)
Theorem command_input_plain_or_fenced (input tag : str) (c : ascii) (r : str) :
  (forallb (fun x => negb (isFenceChar x)) input = true ->
   extractCommandInput input = input)
  /\ (forallb isWord tag = true -> isSpace c = false ->
      extractCommandInput (lit "```" ++ tag ++ [nl] ++ (c :: r) ++ [nl] ++ lit "```")
      = trimEnd (c :: r)).
Proof.
  unfold extractCommandInput. split.
  - intros Hplain. rewrite extractCodeBlock_chunks. unfold codeBlockByLines.
    rewrite afterOpener_plain; [reflexivity|]. now rewrite concat_chunks.
  - intros Htag Hc. pose proof (extract_fenced [] tag c r) as Hx.
    cbn [concat] in Hx. change ([] ++ ?x) with x in Hx. now rewrite Hx.
Qed.

Lemma command_input_plain_or_fenced_witness :
  extractCommandInput (lit " npm test ") = lit " npm test "
  /\ extractCommandInput (lit "```" ++ lit "bash" ++ [nl] ++ lit "npm test" ++ [nl] ++ lit "```")
     = lit "npm test".
Proof.
  split.
  - exact (proj1 (command_input_plain_or_fenced (lit " npm test ") [] "a" []) eq_refl).
  - exact (proj2 (command_input_plain_or_fenced [] (lit "bash") "n" (lit "pm test"))
             eq_refl eq_refl).
Defined.

(** X8.  WRITE_FILE with the path on the first line and the content in a fenced
    block below it hands that content, trailing white space stripped, and
    the trimmed path to [writeFile].  The first line does not start with a
    double quote or with three fence characters and holds no line end; the
    block is opened by three backticks and an info string [tag] of word
    characters only and closed by a last line of three backticks; the
    content starts with a character that is not white space. *)
Theorem write_file_writes_fenced_content (p : ascii) (path' tag : str) (c : ascii) (r : str)
    (ctx : Tools.ToolContext) (st : State W) :
  let path := p :: path' in
  eqc p dquote = false ->
  oneLine path ->
  fenceMatch path = None ->
  forallb isWord tag = true ->
  isSpace c = false ->
  Tools.executeTool WRITE_FILE
    (path ++ [nl] ++ lit "```" ++ tag ++ [nl] ++ (c :: r) ++ [nl] ++ lit "```") ctx st
  = io (writeFile (trim path) (trimEnd (c :: r)) (Tools.cwd ctx)) st.
Proof.
  intros path Hq Hline Hfence Htag Hc.
  assert (Hblock : extractCodeBlock
                     (path ++ [nl] ++ lit "```" ++ tag ++ [nl] ++ (c :: r) ++ [nl] ++ lit "```")
                   = Some (trimEnd (c :: r))).
  { pose proof (extract_fenced [path ++ [nl]] tag c r) as Hx.
    cbn [concat] in Hx. rewrite app_nil_r, <- app_assoc in Hx. apply Hx; auto.
    - intros more Hm. cbn [app]. constructor; auto.
    - intros more. cbn [app afterOpener]. rewrite openLine_end by reflexivity.
      unfold openLine. unfold fenceMatch in Hfence.
      destruct (takeWhile isFenceChar path) as [|x run]; [reflexivity|].
      destruct (3 <=? length (x :: run)); [discriminate|reflexivity]. }
  assert (Hpath : extractPath
                    (path ++ [nl] ++ lit "```" ++ tag ++ [nl] ++ (c :: r) ++ [nl] ++ lit "```")
                  = trim path).
  { apply (extractPath_first_line p path'
             (lit "```" ++ tag ++ [nl] ++ (c :: r) ++ [nl] ++ lit "```") Hq Hline). }
  unfold Tools.executeTool. rewrite Hblock, Hpath.
  destruct (trimEnd_cons c r Hc) as [r' ->]. reflexivity.
Qed.

End FencedTools.

Section FencedToolRuns.
Import JS Parser Lines Eff Script.

Lemma write_file_writes_fenced_content_witness :
  Tools.executeTool WRITE_FILE
    (lit "notes.txt" ++ [nl] ++ lit "```" ++ lit "txt" ++ [nl] ++ lit "hello " ++ [nl] ++ lit "```")
    {| Tools.cwd := lit "/work"; Tools.automated := true |} (boot [] (newSession []))
  = io (writeFile (lit "notes.txt") (lit "hello") (lit "/work")) (boot [] (newSession [])).
Proof.
  exact (write_file_writes_fenced_content "n" (lit "otes.txt") (lit "txt") "h" (lit "ello ")
           {| Tools.cwd := lit "/work"; Tools.automated := true |} (boot [] (newSession []))
           eq_refl eq_refl eq_refl eq_refl eq_refl).
Defined.

End FencedToolRuns.

Section FindReplaceFacts.
Import JS Parser.

Lemma startsWith_iff (p s : str) : startsWith p s = true <-> exists r, s = p ++ r.
Proof.
  split; [apply startsWith_inv|]. intros [r ->]. apply startsWith_app.
Qed.

(** [indexOf] gives the first place where the needle occurs. *)
Lemma indexOfFrom_some (needle s : str) (i j : nat) :
  indexOfFrom needle s i = Some j ->
  exists a b, s = a ++ needle ++ b /\ j = i + length a
              /\ forall a' b', s = a' ++ needle ++ b' -> length a <= length a'.
Proof.
  revert i. induction s as [|c s IH]; intros i; cbn [indexOfFrom].
  - destruct (startsWith needle []) eqn:E; [|discriminate]. intros [= <-].
    apply startsWith_iff in E as [r E]. exists [], r. repeat split; simpl; auto; lia.
  - destruct (startsWith needle (c :: s)) eqn:E.
    + intros [= <-]. apply startsWith_iff in E as [r E]. exists [], r.
      repeat split; simpl; auto; lia.
    + intros Hj. destruct (IH _ Hj) as (a & b & -> & -> & Hmin).
      exists (c :: a), b. repeat split; simpl; [lia|].
      intros a' b' Heq. destruct a' as [|c' a'].
      * simpl in Heq. rewrite Heq, startsWith_app in E. discriminate.
      * simpl in Heq. injection Heq as <- Heq. specialize (Hmin _ _ Heq). simpl. lia.
Qed.

Lemma indexOfFrom_none (needle s : str) (i : nat) :
  indexOfFrom needle s i = None -> forall a b, s <> a ++ needle ++ b.
Proof.
  revert i. induction s as [|c s IH]; intros i; cbn [indexOfFrom].
  - destruct (startsWith needle []) eqn:E; [discriminate|]. intros _ a b Heq.
    destruct a; [|discriminate]. simpl in Heq. rewrite Heq, startsWith_app in E. discriminate.
  - destruct (startsWith needle (c :: s)) eqn:E; [discriminate|]. intros Hn a b Heq.
    destruct a as [|c' a].
    + simpl in Heq. rewrite Heq, startsWith_app in E. discriminate.
    + simpl in Heq. injection Heq as <- Heq. exact (IH _ Hn _ _ Heq).
Qed.

Lemma includes_iff (needle s : str) :
  includes needle s = true <-> exists a b, s = a ++ needle ++ b.
Proof.
  unfold includes, indexOf. destruct (indexOfFrom needle s 0) as [j|] eqn:E.
  - split; [intros _|reflexivity].
    destruct (indexOfFrom_some _ _ _ _ E) as (a & b & -> & _). eauto.
  - split; [discriminate|]. intros (a & b & Heq).
    now apply (indexOfFrom_none _ _ _ E) in Heq.
Qed.






End FindReplaceFacts.

Section FindReplaceBlocks.
Import JS Parser Shape.

Lemma lowerUnit_backtick (c : ascii) : eqc backtick (lowerUnit c) = eqc backtick c.
Proof. destruct c as [[] [] [] [] [] [] [] []]; reflexivity. Qed.

Lemma startsWith_refl (p : str) : startsWith p p = true.
Proof. rewrite <- (app_nil_r p) at 2. apply startsWith_app. Qed.

Lemma indexOfCI_here (needle s : str) (i : nat) :
  indexOfCI needle (needle ++ s) i = Some i.
Proof.
  assert (Hs : startsWithCI needle (needle ++ s) = true).
  { unfold startsWithCI. rewrite firstn_app, firstn_all, Nat.sub_diag, firstn_0, app_nil_r.
    apply startsWith_refl. }
  destruct needle as [|c needle]; destruct s as [|d s]; cbn [app indexOfCI] in *;
    now rewrite Hs.
Qed.

Lemma indexOfCI_next (needle : str) (c : ascii) (s : str) (i : nat) :
  startsWithCI needle (c :: s) = false ->
  indexOfCI needle (c :: s) i = indexOfCI needle s (S i).
Proof. intros Hs. cbn [indexOfCI]. now rewrite Hs. Qed.

(** A pattern that begins with a backtick is not found inside a text
    without backticks. *)
Lemma indexOfCI_plain (needle x s : str) (i : nat) :
  plain x ->
  indexOfCI (backtick :: needle) (x ++ s) i = indexOfCI (backtick :: needle) s (i + length x).
Proof.
  unfold plain. revert i. induction x as [|c x IH]; intros i Hx.
  - simpl. now rewrite Nat.add_0_r.
  - simpl in Hx. apply andb_true_iff in Hx as [Hc Hx]. cbn [app].
    rewrite indexOfCI_next.
    + rewrite IH by exact Hx. f_equal. simpl. lia.
    + unfold startsWithCI. cbn [length firstn toLowerCase map startsWith].
      change (lowerUnit backtick) with backtick. rewrite lowerUnit_backtick.
      apply negb_true_iff in Hc. unfold eqc in *. rewrite Ascii.eqb_sym, Hc. reflexivity.
Qed.

Lemma indexOf_plain (x tail : str) (i : nat) :
  plain x -> indexOfFrom (lit "```") (x ++ lit "```" ++ tail) i = Some (i + length x).
Proof.
  unfold plain. revert i. induction x as [|c x IH]; intros i Hx.
  - simpl. now rewrite Nat.add_0_r.
  - simpl in Hx. apply andb_true_iff in Hx as [Hc Hx]. cbn [app indexOfFrom].
    apply negb_true_iff in Hc. unfold eqc in Hc. rewrite Ascii.eqb_sym in Hc.
    cbn [startsWith lit list_ascii_of_string]. unfold eqc. fold backtick.
    change (Ascii.eqb "`" c) with (Ascii.eqb backtick c). rewrite Hc. cbn [andb].
    rewrite IH by exact Hx. f_equal. simpl. lia.
Qed.

End FindReplaceBlocks.

Section FindReplaceRoundTrip.
Import JS Parser Shape.

Lemma taggedBlock_found (tag pre body tail : str) :
  indexOfCI (lit "```" ++ tag ++ [nl])
    (pre ++ (lit "```" ++ tag ++ [nl]) ++ body ++ lit "```" ++ tail) 0 = Some (length pre) ->
  plain body ->
  taggedBlock tag (pre ++ (lit "```" ++ tag ++ [nl]) ++ body ++ lit "```" ++ tail) = Some body.
Proof.
  intros Hopen Hbody. unfold taggedBlock. rewrite Hopen. unfold sliceFrom, sliceTo.
  rewrite skipn_app, skipn_all2, Nat.add_comm, Nat.add_sub by lia. cbn [app].
  rewrite skipn_app, skipn_all, Nat.sub_diag. cbn [app]. rewrite !skipn_O.
  unfold indexOf. rewrite indexOf_plain by exact Hbody. cbn [Nat.add].
  now rewrite firstn_app, firstn_all, Nat.sub_diag, firstn_0, app_nil_r.
Qed.

(** X10.  The usual layout of a FIND_AND_REPLACE_IN_FILE input, a find block then
    a replace block, gives back the two texts with their trailing white space
    stripped, when neither holds a backtick. *)
Theorem find_replace_round_trip (f r : str) :
  forallb (fun c => negb (eqc c backtick)) f = true ->
  forallb (fun c => negb (eqc c backtick)) r = true ->
  extractFindReplace
    (lit "```find" ++ [nl] ++ f ++ lit "```" ++ [nl]
       ++ lit "```replace" ++ [nl] ++ r ++ lit "```")
  = Some {| find := trimEnd f; replace := trimEnd r |}.
Proof.
  intros Hf Hr. unfold extractFindReplace.
  assert (Efind : taggedBlock (lit "find")
            (lit "```find" ++ [nl] ++ f ++ lit "```" ++ [nl]
               ++ lit "```replace" ++ [nl] ++ r ++ lit "```") = Some f).
  { apply (taggedBlock_found (lit "find") [] f
             ([nl] ++ lit "```replace" ++ [nl] ++ r ++ lit "```")); [|exact Hf].
    apply (indexOfCI_here (lit "```" ++ lit "find" ++ [nl])). }
  assert (Ereplace : taggedBlock (lit "replace")
            (lit "```find" ++ [nl] ++ f ++ lit "```" ++ [nl]
               ++ lit "```replace" ++ [nl] ++ r ++ lit "```") = Some r).
  { pose proof (taggedBlock_found (lit "replace")
                  (lit "```find" ++ [nl] ++ f ++ lit "```" ++ [nl]) r []) as Hx.
    rewrite <- !app_assoc in Hx. rewrite app_nil_r in Hx. apply Hx; [|exact Hr].
    clear Hx Efind.
    match goal with
    | |- indexOfCI _ ?s 0 = _ =>
        change s
          with (backtick :: backtick :: backtick
                  :: (lit "find" ++ [nl] ++ f)
                  ++ backtick :: backtick :: backtick :: nl
                  :: (lit "```" ++ lit "replace" ++ [nl]) ++ r ++ lit "```")
    end.
    do 3 (rewrite indexOfCI_next by reflexivity).
    change (lit "```" ++ lit "replace" ++ [nl]) with (backtick :: lit "``replace" ++ [nl]).
    rewrite indexOfCI_plain.
    2:{ unfold plain. rewrite !forallb_app, Hf. reflexivity. }
    do 4 (rewrite indexOfCI_next by reflexivity).
    change (backtick :: lit "``replace" ++ [nl]) with (lit "```" ++ lit "replace" ++ [nl]).
    rewrite indexOfCI_here. f_equal. rewrite !length_app. simpl. lia. }
  rewrite Efind, Ereplace. reflexivity.
Qed.

Lemma find_replace_round_trip_witness :
  extractFindReplace
    (lit "```find" ++ [nl] ++ (lit "old()" ++ [nl]) ++ lit "```" ++ [nl]
       ++ lit "```replace" ++ [nl] ++ (lit "new()" ++ [nl]) ++ lit "```")
  = Some {| find := lit "old()"; replace := lit "new()" |}.
Proof.
  exact (find_replace_round_trip (lit "old()" ++ [nl]) (lit "new()" ++ [nl]) eq_refl eq_refl).
Defined.

End FindReplaceRoundTrip.

Section FindReplaceRuns.
Import JS Parser.


End FindReplaceRuns.

Section SessionChanges.
Import JS Parser Eff Track.
Context {W : Type} `{Platform W}.
Variable R : Sessions.Session -> Sessions.Session -> Prop.
Hypothesis HR : Changes R.

Lemma respects_ret {A} (a : A) : respects R (@ret W A a).
Proof. intros s. apply (changes_refl R HR). Qed.

Lemma respects_throw {A} (e : str) : respects R (@throw W A e).
Proof. intros s. apply (changes_refl R HR). Qed.

Lemma respects_bind {A B} (m : M W A) (k : A -> M W B) :
  respects R m -> (forall a, respects R (k a)) -> respects R (bind m k).
Proof.
  intros Hm Hk s. unfold bind. specialize (Hm s).
  destruct (m s) as [[a|e] s1]; simpl in *; [|exact Hm].
  eapply (changes_trans R HR); [exact Hm|apply Hk].
Qed.

Lemma respects_tryCatch {A} (m : M W A) (h : str -> M W A) :
  respects R m -> (forall e, respects R (h e)) -> respects R (tryCatch m h).
Proof.
  intros Hm Hh s. unfold tryCatch. specialize (Hm s).
  destruct (m s) as [[a|e] s1]; simpl in *; [exact Hm|].
  eapply (changes_trans R HR); [exact Hm|apply Hh].
Qed.

Lemma respects_attempt {A} (m : M W A) : respects R m -> respects R (attempt m).
Proof. intros Hm s. unfold attempt. specialize (Hm s). destruct (m s); exact Hm. Qed.

Lemma respects_io {A} (f : W -> Res A * W) : respects R (io f).
Proof. intros s. unfold io. destruct (f (world s)). apply (changes_refl R HR). Qed.

Lemma respects_pureIo {A} (f : W -> A * W) : respects R (pureIo f).
Proof. intros s. unfold pureIo. destruct (f (world s)). apply (changes_refl R HR). Qed.

Lemma respects_ask {A} (f : W -> A) : respects R (@ask W A f).
Proof. intros s. apply (changes_refl R HR). Qed.

Lemma respects_consoleLog (c : Color) (t : str) : respects R (@consoleLog W c t).
Proof. intros s. apply (changes_refl R HR). Qed.

Lemma respects_getSession : respects R (@getSession W).
Proof. intros s. apply (changes_refl R HR). Qed.

Lemma respects_countCall : respects R (@countCall W).
Proof. intros s. apply (changes_refl R HR). Qed.

Lemma respects_modify (f : Sessions.Session -> Sessions.Session) :
  (forall s, R s (f s)) -> respects R (@modifySession W f).
Proof. intros Hf s. apply Hf. Qed.

Lemma respects_pushHistory (r : Sessions.Role) (c : str) :
  respects R (@Agent.pushHistory W r c).
Proof. apply respects_modify. intros s. apply (changes_push R HR). Qed.

Lemma respects_log_if (b : bool) (c : Color) (t : str) :
  respects R (if b then @consoleLog W c t else ret tt).
Proof. destruct b; [apply respects_consoleLog|apply respects_ret]. Qed.

Lemma respects_saveSession : respects R Agent.saveSession.
Proof.
  unfold Agent.saveSession.
  apply respects_bind; [apply respects_io|intros _].
  apply respects_bind; [apply respects_pureIo|intros t].
  apply respects_bind; [apply respects_modify; intros s; apply (changes_updatedAt R HR)|].
  intros _. apply respects_bind; [apply respects_getSession|intros s; apply respects_io].
Qed.

Lemma respects_askUser (q : str) (a : bool) : respects R (Tools.askUser q a).
Proof.
  unfold Tools.askUser. destruct a; [apply respects_ret|].
  apply respects_bind; [apply respects_consoleLog|intros _].
  apply respects_bind; [apply respects_io|intros answer; apply respects_ret].
Qed.

Lemma respects_executeTool (t : ToolName) (input : str) (ctx : Tools.ToolContext) :
  respects R (Tools.executeTool t input ctx).
Proof.
  unfold Tools.executeTool.
  destruct t; auto using respects_io, respects_ret, respects_askUser.
  - destruct (extractCodeBlock input) as [[|c l]|]; auto using respects_io, respects_ret.
  - destruct (extractFindReplace input); auto using respects_io, respects_ret.
Qed.

Lemma respects_runTools (ctx : Tools.ToolContext) (tools : list ToolCall) (acc : list str) :
  respects R (Agent.runTools ctx tools acc).
Proof.
  revert acc. induction tools as [|tool rest IH]; intros acc; cbn [Agent.runTools].
  - apply respects_ret.
  - destruct (isDone (toolChoice tool)); [apply respects_ret|].
    apply respects_bind.
    + apply respects_tryCatch; [apply respects_executeTool|intros; apply respects_ret].
    + intros result. destruct (startsWith (lit "ERROR") result); [apply respects_ret|apply IH].
Qed.

Lemma respects_auditLoop (n : nat) (cwd : str) (msgs : list Sessions.Message) :
  respects R (Audit.auditLoop n cwd msgs).
Proof.
  revert msgs. induction n as [|n IH]; intros msgs; cbn [Audit.auditLoop];
    [apply respects_ret|].
  apply respects_bind; [apply respects_io|]. intros response.
  destruct (parseResponse response) as [parsed|]; [|apply respects_ret].
  destruct (firstToolChoice parsed);
    try (apply respects_bind; [apply respects_io|intros ?]); try apply IH;
    try apply respects_ret.
  destruct (negb _); [apply IH|].
  apply respects_bind; [apply respects_io|intros ?; apply IH].
Qed.

Lemma respects_runAudit (s : Sessions.Session) (summary : str) (v : bool) :
  respects R (Audit.runAudit s summary v).
Proof.
  unfold Audit.runAudit. apply respects_bind.
  - destruct v; [apply respects_consoleLog|apply respects_ret].
  - intros _. apply respects_auditLoop.
Qed.

Lemma respects_performThinking (c t : str) : respects R (Thinking.performThinking c t).
Proof.
  unfold Thinking.performThinking. apply respects_tryCatch.
  - apply respects_bind; [apply respects_io|intros; apply respects_ret].
  - intros; apply respects_ret.
Qed.

Lemma respects_addTokens (n : nat) :
  respects R (@modifySession W (fun s => Sessions.withTotalTokens s (Sessions.totalTokens s + n))).
Proof. apply respects_modify. intros s. apply (changes_tokens R HR). Qed.

Lemma respects_reflect (content : str) : respects R (Agent.reflect content).
Proof.
  unfold Agent.reflect.
  apply respects_bind; [apply respects_getSession|intros session].
  apply respects_bind; [apply respects_performThinking|intros result].
  destruct (Thinking.thinking result) as [|c t]; [apply respects_ret|].
  apply respects_bind; [apply respects_pushHistory|intros _].
  apply respects_bind; [apply respects_addTokens|intros _; apply respects_saveSession].
Qed.

Lemma respects_turn (flags : Agent.Flags) (ctx : Tools.ToolContext) (parsed : ParsedResponse) :
  respects R (Agent.turn flags ctx parsed).
Proof.
  unfold Agent.turn.
  apply respects_bind; [apply respects_pushHistory|intros _].
  apply respects_bind;
    [apply respects_modify; intros s; apply (changes_taskList R HR)|intros _].
  apply respects_bind; [apply respects_saveSession|intros _].
  apply respects_bind; [apply respects_runTools|intros ran].
  apply respects_bind.
  - destruct (Agent.toolResults ran); [apply respects_ret|]. cbv zeta.
    apply respects_bind; [apply respects_pushHistory|intros _].
    apply respects_bind; [apply respects_saveSession|intros _].
    destruct (_ && _); [apply respects_reflect|apply respects_ret].
  - intros _. destruct (Agent.hitDone ran); [|apply respects_ret].
    apply respects_bind; [apply respects_getSession|intros session].
    apply respects_bind; [apply respects_runAudit|intros audit].
    destruct (Audit.passed audit).
    + apply respects_bind; [apply respects_log_if|intros _; apply respects_ret].
    + apply respects_bind; [apply respects_log_if|intros _].
      apply respects_bind; [apply respects_pushHistory|intros _].
      apply respects_bind; [apply respects_saveSession|intros _; apply respects_ret].
Qed.

Lemma respects_formatRetry (maxRetries retries : nat) (response : str) :
  respects R (Agent.formatRetry maxRetries retries response).
Proof.
  unfold Agent.formatRetry.
  apply respects_bind; [apply respects_consoleLog|intros _].
  apply respects_bind; [apply respects_pushHistory|intros _].
  apply respects_bind; [apply respects_pushHistory|intros _].
  apply respects_bind; [apply respects_saveSession|intros _].
  destruct (maxRetries <=? S retries); [apply respects_throw|apply respects_ret].
Qed.

Lemma respects_compressContext (systemPrompt : str) :
  respects R (Agent.compressContext systemPrompt).
Proof.
  unfold Agent.compressContext.
  apply respects_bind; [apply respects_getSession|intros session].
  apply respects_bind; [apply respects_io|intros summary].
  apply respects_bind; [apply respects_pureIo|intros now].
  apply respects_bind; [|intros _; apply respects_ret].
  apply respects_modify. intros s. apply (changes_compressions R HR).
Qed.

(** The messages a compression returns. *)
Lemma compressContext_messages (systemPrompt : str) (s : State W) (c : Agent.Compressed) :
  fst (Agent.compressContext systemPrompt s) = Ok c ->
  exists summary,
    Agent.messages c
    = Agent.compressedMessages systemPrompt summary (Sessions.originalPrompt (session s)).
Proof.
  unfold Agent.compressContext, bind, getSession, io, pureIo, modifySession, ret.
  destruct (streamCompletion (Agent.compressionMessages (session s)) true (world s))
    as [[summary|e] w1]; simpl; [|discriminate].
  destruct (toISOString w1) as [now w2]; simpl.
  intros [= <-]. now exists summary.
Qed.

Lemma respects_compressIfNeeded (cfg : Config.Config) (systemPrompt : str) :
  respects R (Agent.compressIfNeeded cfg systemPrompt).
Proof.
  intros s. unfold Agent.compressIfNeeded.
  unfold bind at 1. unfold getSession at 1. cbn iota beta.
  destruct (Agent.needsCompression cfg (Sessions.history (session s)));
    [|apply (changes_refl R HR)].
  unfold bind at 1.
  pose proof (respects_compressContext systemPrompt s) as Hc.
  pose proof (compressContext_messages systemPrompt s) as Hm.
  destruct (Agent.compressContext systemPrompt s) as [[c|e] s1]; simpl in *; [|exact Hc].
  destruct (Hm c eq_refl) as [summary Hmsg].
  eapply (changes_trans R HR); [exact Hc|].
  apply (respects_bind (modifySession (fun s0 => Sessions.withHistory s0 (Agent.messages c)))
           (fun _ => Agent.saveSession)).
  - apply respects_modify. intros s0. rewrite Hmsg. apply (changes_compressed R HR).
  - intros _. apply respects_saveSession.
Qed.

Lemma respects_iteration (cfg : Config.Config) (flags : Agent.Flags) (maxRetries : nat)
    (systemPrompt : str) (ctx : Tools.ToolContext) (retries : nat) :
  respects R (Agent.iteration cfg flags maxRetries systemPrompt ctx retries).
Proof.
  unfold Agent.iteration.
  apply respects_bind; [apply respects_compressIfNeeded|intros _].
  apply respects_bind; [apply respects_getSession|intros session].
  apply respects_bind; [apply respects_countCall|intros _].
  apply respects_bind.
  - apply respects_attempt.
    apply respects_bind; [apply respects_io|intros response].
    apply respects_bind; [apply respects_ask|intros n].
    apply respects_bind; [apply respects_addTokens|intros _; apply respects_ret].
  - intros [response|e].
    + destruct (parseResponse response); [apply respects_turn|apply respects_formatRetry].
    + apply respects_bind; [apply respects_consoleLog|intros _].
      destruct (maxRetries <=? S retries); [apply respects_throw|].
      apply respects_bind; [apply respects_consoleLog|intros _; apply respects_ret].
Qed.

Lemma respects_loop (cfg : Config.Config) (flags : Agent.Flags) (maxRetries : nat)
    (systemPrompt : str) (ctx : Tools.ToolContext) (remaining retries : nat) :
  respects R (Agent.loop remaining cfg flags maxRetries systemPrompt ctx retries).
Proof.
  revert retries. induction remaining as [|remaining IH]; intros retries; cbn [Agent.loop].
  - apply respects_ret.
  - apply respects_bind; [apply respects_iteration|].
    intros [retries'|]; [apply IH|apply respects_ret].
Qed.

Lemma respects_runAgentLoop (cfg : Config.Config) (flags : Agent.Flags)
    (options : Agent.LoopOptions) :
  respects R (Agent.runAgentLoop cfg flags options).
Proof.
  unfold Agent.runAgentLoop.
  apply respects_bind; [apply respects_getSession|intros session].
  apply respects_bind; [apply respects_ask|intros systemPrompt].
  apply respects_bind.
  - destruct (Agent.hasSystemPrompt _); [apply respects_ret|].
    apply respects_modify. intros s. apply (changes_unshift R HR).
  - intros _. apply respects_bind; [apply respects_loop|].
    intros [|]; [apply respects_ret|].
    apply respects_bind; [apply respects_consoleLog|intros _; apply respects_ret].
Qed.

End SessionChanges.

Section SessionInvariants.
Import JS Parser Eff Track.
Context {W : Type} `{Platform W}.

Lemma changes_sameIdentity : Changes sameIdentity.
Proof.
  split; unfold sameIdentity; try (intros; repeat split; reflexivity).
  intros a b c (?&?&?&?) (?&?&?&?). repeat split; congruence.
Qed.

Lemma changes_accumulates : Changes accumulates.
Proof.
  split; unfold accumulates; simpl;
    try (intros; split; [lia|exists []; now rewrite app_nil_r]).
  - intros a b c [Hab [x Hx]] [Hbc [y Hy]]. split; [lia|].
    exists (x ++ y). now rewrite Hy, Hx, app_assoc.
  - intros s c. split; [lia|]. now exists [c].
Qed.

Lemma changes_systemFirst : Changes systemFirst.
Proof.
  split; unfold systemFirst; simpl; auto.
  intros s r c. destruct (Sessions.history s); [discriminate|auto].
Qed.

(** X11.  The agent loop never changes the id of the session, its creation time,
    its working directory or its original prompt, however it ends. *)
Theorem loop_keeps_session_identity (cfg : Config.Config) (flags : Agent.Flags)
    (options : Agent.LoopOptions) (st : State W) :
  let after := session (snd (Agent.runAgentLoop cfg flags options st)) in
  Sessions.id after = Sessions.id (session st)
  /\ Sessions.createdAt after = Sessions.createdAt (session st)
  /\ Sessions.workingDirectory after = Sessions.workingDirectory (session st)
  /\ Sessions.originalPrompt after = Sessions.originalPrompt (session st).
Proof.
  exact (respects_runAgentLoop sameIdentity changes_sameIdentity cfg flags options st).
Qed.

(** X12.  Over a run of the agent loop the token total of the session never
    decreases and the compression log is only extended: earlier records stay
    as they are. *)
Theorem loop_accumulates_tokens_and_compressions (cfg : Config.Config) (flags : Agent.Flags)
    (options : Agent.LoopOptions) (st : State W) :
  let after := session (snd (Agent.runAgentLoop cfg flags options st)) in
  Sessions.totalTokens (session st) <= Sessions.totalTokens after
  /\ exists added,
       Sessions.compressions after = Sessions.compressions (session st) ++ added.
Proof.
  exact (respects_runAgentLoop accumulates changes_accumulates cfg flags options st).
Qed.

(** X13.  However the agent loop ends, the history of the session starts with a
    system message. *)
Theorem system_prompt_stays_first (cfg : Config.Config) (flags : Agent.Flags)
    (options : Agent.LoopOptions) (st : State W) :
  Agent.hasSystemPrompt
    (Sessions.history (session (snd (Agent.runAgentLoop cfg flags options st)))) = true.
Proof.
  unfold Agent.runAgentLoop.
  unfold bind at 1. unfold getSession at 1. cbn iota beta.
  unfold bind at 1. unfold ask at 1. cbn iota beta.
  unfold bind at 1.
  set (prompt := buildSystemPrompt (Agent.automated options)
                   (Sessions.workingDirectory (session st)) (world st)).
  set (s1 := snd ((if Agent.hasSystemPrompt (Sessions.history (session st)) then ret tt
                   else modifySession (fun s => Sessions.withHistory s
                          (Agent.message Sessions.system prompt :: Sessions.history s))) st)).
  assert (Hs1 : Agent.hasSystemPrompt (Sessions.history (session s1)) = true).
  { unfold s1. destruct (Agent.hasSystemPrompt _) eqn:E; [exact E|reflexivity]. }
  assert (Hfirst : (if Agent.hasSystemPrompt (Sessions.history (session st)) then ret tt
                    else modifySession (fun s => Sessions.withHistory s
                           (Agent.message Sessions.system prompt :: Sessions.history s))) st
                   = (Ok tt, s1)).
  { unfold s1. destruct (Agent.hasSystemPrompt _); reflexivity. }
  rewrite Hfirst. cbn iota beta.
  match goal with |- context [bind ?m ?k s1] =>
    assert (Hrest : respects systemFirst (bind m k))
  end.
  { apply respects_bind; [exact changes_systemFirst|
                          apply respects_loop; exact changes_systemFirst|].
    intros [|]; [apply respects_ret; exact changes_systemFirst|].
    apply respects_bind; [exact changes_systemFirst| |].
    - apply respects_consoleLog. exact changes_systemFirst.
    - intros _. apply respects_ret. exact changes_systemFirst. }
  exact (Hrest s1 Hs1).
Qed.

End SessionInvariants.

Section ToolSequenceFacts.
Import JS Parser Eff.
Context {W : Type} `{Platform W}.

(** X14.  The tool sequence of a response never throws: an exception of a tool is
    turned into a result.  The results recorded before are kept, in order,
    and at most one result is added per tool. *)
Theorem runTools_never_throws (ctx : Tools.ToolContext) (tools : list ToolCall)
    (acc : list str) (st : State W) :
  exists ran st' added,
    Agent.runTools ctx tools acc st = (Ok ran, st')
    /\ Agent.toolResults ran = acc ++ added
    /\ length added <= length tools.
Proof.
  revert acc st. induction tools as [|tool rest IH]; intros acc st; cbn [Agent.runTools].
  - exists {| Agent.toolResults := acc; Agent.hitDone := false; Agent.doneSummary := [] |}, st, [].
    simpl. rewrite app_nil_r. auto.
  - destruct (isDone (toolChoice tool)).
    { eexists _, st, []. simpl. rewrite app_nil_r. split; [reflexivity|]. split; [reflexivity|lia]. }
    unfold bind at 1, tryCatch.
    destruct (Tools.executeTool (toolChoice tool) (toolInput tool) ctx st) as [[result|e] s1].
    + destruct (startsWith (lit "ERROR") result).
      * eexists _, s1, [_]. split; [reflexivity|]. simpl. split; [reflexivity|lia].
      * destruct (IH (acc ++ [lit "[" ++ toolString (toolChoice tool) ++ lit "]: " ++ result]) s1)
          as (ran & st' & added & Hrun & Hres & Hlen).
        exists ran, st',
          ((lit "[" ++ toolString (toolChoice tool) ++ lit "]: " ++ result) :: added).
        split; [exact Hrun|].
        rewrite Hres, <- app_assoc. simpl. split; [reflexivity|lia].
    + unfold ret. cbn iota beta.
      change (startsWith (lit "ERROR") (lit "ERROR: " ++ e)) with true. cbn iota.
      eexists _, s1, [_]. split; [reflexivity|]. simpl. split; [reflexivity|lia].
Qed.

(** X15.  A tool whose result starts with ERROR, or which throws, ends the tool
    sequence of the response: its result is recorded (for a throw, ERROR and
    the message) and the tools listed after it are not run. *)
Theorem error_ends_tool_execution (ctx : Tools.ToolContext) (tool : ToolCall)
    (rest : list ToolCall) (acc : list str) (st st' : State W) (outcome : Res str) :
  let result := match outcome with Ok r => r | Throw e => lit "ERROR: " ++ e end in
  isDone (toolChoice tool) = false ->
  Tools.executeTool (toolChoice tool) (toolInput tool) ctx st = (outcome, st') ->
  startsWith (lit "ERROR") result = true ->
  Agent.runTools ctx (tool :: rest) acc st
  = (Ok {| Agent.toolResults :=
             acc ++ [lit "[" ++ toolString (toolChoice tool) ++ lit "]: " ++ result];
           Agent.hitDone := false; Agent.doneSummary := [] |}, st').
Proof.
  intros result Hdone Hexec Herr. cbn [Agent.runTools]. rewrite Hdone.
  unfold bind at 1, tryCatch. rewrite Hexec. subst result.
  destruct outcome as [r|e]; unfold ret; cbn iota beta; now rewrite Herr.
Qed.

End ToolSequenceFacts.

Section ToolSequenceRuns.
Import JS Parser Eff Script.

Lemma error_ends_tool_execution_witness :
  Agent.runTools {| Tools.cwd := lit "/work"; Tools.automated := false |}
    [ {| toolChoice := WRITE_FILE; toolInput := lit "notes.txt" |};
      {| toolChoice := READ_FILE; toolInput := lit "notes.txt" |} ] []
    (boot [] (newSession []))
  = (Ok {| Agent.toolResults := [lit "[WRITE_FILE]: ERROR: No code block found for WRITE_FILE"];
           Agent.hitDone := false; Agent.doneSummary := [] |}, boot [] (newSession [])).
Proof.
  exact (error_ends_tool_execution {| Tools.cwd := lit "/work"; Tools.automated := false |}
           {| toolChoice := WRITE_FILE; toolInput := lit "notes.txt" |}
           [ {| toolChoice := READ_FILE; toolInput := lit "notes.txt" |} ] []
           (boot [] (newSession [])) (boot [] (newSession []))
           (Ok (lit "ERROR: No code block found for WRITE_FILE"))
           eq_refl eq_refl eq_refl).
Defined.

End ToolSequenceRuns.

Section RetryFacts.
Import JS Parser Eff Host.
Context {W : Type} `{Platform W}.

(** One pass through the loop body when the request fails and no compression
    is due. *)
Lemma iteration_request_fails (good : W -> Prop) (e : str) (cfg : Config.Config)
    (flags : Agent.Flags) (maxRetries : nat) (systemPrompt : str) (ctx : Tools.ToolContext)
    (retries : nat) (s : State W) :
  alwaysFails good e -> good (world s) ->
  Agent.needsCompression cfg (Sessions.history (session s)) = false ->
  exists s',
    Agent.iteration cfg flags maxRetries systemPrompt ctx retries s
    = (if maxRetries <=? S retries then Throw e else Ok (Agent.Continue (S retries)), s')
    /\ good (world s') /\ session s' = session s /\ llmCalls s' = S (llmCalls s).
Proof.
  intros Hfail Hgood Hfit. unfold Agent.iteration, Agent.compressIfNeeded.
  unfold bind at 1. unfold bind at 1. unfold getSession at 1. cbn iota beta.
  rewrite Hfit. unfold ret at 1. cbn iota beta.
  unfold bind at 1. unfold getSession at 1. cbn iota beta.
  unfold bind at 1. unfold countCall at 1. cbn iota beta.
  unfold bind at 1. unfold attempt at 1. unfold bind at 1. unfold io at 1. cbn [world].
  destruct (Hfail (Sessions.history (session s)) false (world s) Hgood) as (w' & Hcall & Hw').
  rewrite Hcall. cbn iota beta.
  unfold bind at 1. unfold consoleLog at 1. cbn iota beta.
  destruct (maxRetries <=? S retries).
  - eexists. split; [reflexivity|]. simpl. auto.
  - eexists. split; [reflexivity|]. simpl. auto.
Qed.

Lemma loop_requests_fail (good : W -> Prop) (e : str) (cfg : Config.Config)
    (flags : Agent.Flags) (maxRetries : nat) (systemPrompt : str) (ctx : Tools.ToolContext) :
  alwaysFails good e ->
  forall remaining retries (s : State W),
    good (world s) ->
    Agent.needsCompression cfg (Sessions.history (session s)) = false ->
    Nat.max 1 (maxRetries - retries) <= remaining ->
    exists s',
      Agent.loop remaining cfg flags maxRetries systemPrompt ctx retries s = (Throw e, s')
      /\ session s' = session s
      /\ llmCalls s' = llmCalls s + Nat.max 1 (maxRetries - retries).
Proof.
  intros Hfail. induction remaining as [|remaining IH]; intros retries s Hgood Hfit Hn; [lia|].
  cbn [Agent.loop]. unfold bind at 1.
  destruct (iteration_request_fails good e cfg flags maxRetries systemPrompt ctx retries s
              Hfail Hgood Hfit) as (s1 & Hit & Hg1 & Hs1 & Hc1).
  rewrite Hit. destruct (maxRetries <=? S retries) eqn:Em.
  - apply Nat.leb_le in Em. exists s1. repeat split; auto. lia.
  - apply Nat.leb_gt in Em.
    destruct (IH (S retries) s1 Hg1) as (s' & Hloop & Hs' & Hc'); [now rewrite Hs1|lia|].
    exists s'. split; [exact Hloop|]. split; [congruence|lia].
Qed.

(** X16.  When every request to the model fails with the same error and no
    compression is due, the loop gives up after as many calls as the retry
    limit allows, one at least: it throws that error, the run action exits
    with code 1, and the history holds nothing but what it held after the
    system prompt was put in front. *)
Theorem transport_failures_exhaust_retries (good : W -> Prop) (e : str)
    (cfg : Config.Config) (flags : Agent.Flags) (options : Agent.LoopOptions) (st : State W) :
  let maxRetries :=
    if Agent.automated options then Config.maxRetriesAutomated cfg
    else Config.maxRetries cfg in
  let prompt := buildSystemPrompt (Agent.automated options)
                  (Sessions.workingDirectory (session st)) (world st) in
  let history :=
    if Agent.hasSystemPrompt (Sessions.history (session st))
    then Sessions.history (session st)
    else Agent.message Sessions.system prompt :: Sessions.history (session st) in
  alwaysFails good e ->
  good (world st) ->
  Agent.needsCompression cfg history = false ->
  Nat.max 1 maxRetries <= Config.maxLoops cfg ->
  exists st',
    Agent.runAgentLoop cfg flags options st = (Throw e, st')
    /\ llmCalls st' = llmCalls st + Nat.max 1 maxRetries
    /\ Sessions.history (session st') = history
    /\ fst (Agent.runAction cfg flags options st) = 1.
Proof.
  intros maxRetries prompt history Hfail Hgood Hfit Hloops.
  assert (Hrun : exists st',
             Agent.runAgentLoop cfg flags options st = (Throw e, st')
             /\ llmCalls st' = llmCalls st + Nat.max 1 maxRetries
             /\ Sessions.history (session st') = history).
  { unfold Agent.runAgentLoop.
    unfold bind at 1. unfold getSession at 1. cbn iota beta.
    unfold bind at 1. unfold ask at 1. cbn iota beta.
    unfold bind at 1. fold prompt. fold maxRetries.
    set (s1 := snd ((if Agent.hasSystemPrompt (Sessions.history (session st)) then ret tt
                     else modifySession (fun s => Sessions.withHistory s
                            (Agent.message Sessions.system prompt :: Sessions.history s))) st)).
    assert (Hfirst : (if Agent.hasSystemPrompt (Sessions.history (session st)) then ret tt
                      else modifySession (fun s => Sessions.withHistory s
                             (Agent.message Sessions.system prompt :: Sessions.history s))) st
                     = (Ok tt, s1)).
    { unfold s1. destruct (Agent.hasSystemPrompt _); reflexivity. }
    assert (Hs1 : world s1 = world st /\ llmCalls s1 = llmCalls st
                  /\ Sessions.history (session s1) = history).
    { unfold s1, history. destruct (Agent.hasSystemPrompt _); auto. }
    destruct Hs1 as (Hw1 & Hc1 & Hh1).
    rewrite Hfirst. cbn iota beta. unfold bind at 1.
    destruct (loop_requests_fail good e cfg flags maxRetries prompt
                {| Tools.cwd := Sessions.workingDirectory (session st);
                   Tools.automated := Agent.automated options |}
                Hfail (Config.maxLoops cfg) 0 s1)
      as (s' & Hloop & Hs' & Hc').
    - now rewrite Hw1.
    - now rewrite Hh1.
    - now rewrite Nat.sub_0_r.
    - rewrite Hloop. exists s'. split; [reflexivity|].
      rewrite Hc', Hc1, Nat.sub_0_r, Hs', Hh1. auto. }
  destruct Hrun as (st' & Hrun & Hcalls & Hhist). exists st'.
  repeat split; auto. unfold Agent.runAction. rewrite Hrun. reflexivity.
Qed.

End RetryFacts.

Section RetryRuns.
Import JS Parser Eff Host Script.

Lemma transport_failures_exhaust_retries_witness :
  exists st',
    Agent.runAgentLoop (config 5) quiet {| Agent.automated := false |}
      (boot [] (newSession (lit "task")))
    = (Throw (lit "fetch failed"), st')
    /\ llmCalls st' = 0 + Nat.max 1 3
    /\ Sessions.history (session st') = [Agent.message Sessions.system (lit "SYSTEM")]
    /\ fst (Agent.runAction (config 5) quiet {| Agent.automated := false |}
              (boot [] (newSession (lit "task")))) = 1.
Proof.
  assert (Hdown : alwaysFails (fun w => replies w = []) (lit "fetch failed")).
  { intros msgs silent w Hw. exists w. simpl. unfold nextReply. rewrite Hw. auto. }
  assert (Hbudget : Nat.max 1 3 <= 5) by (simpl; lia).
  exact (transport_failures_exhaust_retries (fun w => replies w = []) (lit "fetch failed")
           (config 5) quiet {| Agent.automated := false |} (boot [] (newSession (lit "task")))
           Hdown eq_refl eq_refl Hbudget).
Defined.

End RetryRuns.

Section FormatRetryFacts.
Import JS Parser Eff Host Shape.
Context {W : Type} `{Platform W}.






End FormatRetryFacts.

Section FormatRetryRuns.
Import JS Parser Eff Host Steady.


End FormatRetryRuns.

Section CompressionFailure.
Import JS Parser Eff Host.
Context {W : Type} `{Platform W}.

(** X18.  A failure of the summary request is not retried: when a compression is
    due and the request for the summary fails, the loop ends with that error
    at once, whatever the retry limit; nothing is printed, no call is
    counted and the session is left as it was, without a compression
    record. *)
Theorem compression_failure_ends_loop (cfg : Config.Config) (flags : Agent.Flags)
    (maxRetries : nat) (systemPrompt : str) (ctx : Tools.ToolContext)
    (remaining retries : nat) (s : State W) (e : str) (w' : W) :
  Agent.needsCompression cfg (Sessions.history (session s)) = true ->
  streamCompletion (Agent.compressionMessages (session s)) true (world s) = (Throw e, w') ->
  Agent.loop (S remaining) cfg flags maxRetries systemPrompt ctx retries s
  = (Throw e, {| world := w'; console := console s; session := session s;
                 llmCalls := llmCalls s |}).
Proof.
  intros Hdue Hcall. cbn [Agent.loop]. unfold bind at 1.
  unfold Agent.iteration. unfold bind at 1.
  unfold Agent.compressIfNeeded. unfold bind at 1. unfold getSession at 1. cbn iota beta.
  rewrite Hdue. unfold bind at 1.
  unfold Agent.compressContext. unfold bind at 1. unfold getSession at 1. cbn iota beta.
  unfold bind at 1. unfold io at 1. rewrite Hcall. reflexivity.
Qed.

End CompressionFailure.

Section CompressionFailureRuns.
Import JS Parser Eff Script Samples.

Lemma compression_failure_ends_loop_witness :
  Agent.loop 3 tightConfig quiet 3 (lit "SYSTEM")
    {| Tools.cwd := lit "/work"; Tools.automated := false |} 0 (boot [] longSession)
  = (Throw (lit "fetch failed"), boot [] longSession).
Proof.
  exact (compression_failure_ends_loop tightConfig quiet 3 (lit "SYSTEM")
           {| Tools.cwd := lit "/work"; Tools.automated := false |} 2 0 (boot [] longSession)
           (lit "fetch failed") (world (boot [] longSession)) eq_refl eq_refl).
Defined.

End CompressionFailureRuns.

Section AuditVerdicts.
Import JS Parser Eff Audit.
Context {W : Type} `{Platform W}.

(** X20.  An audit response that cannot be parsed decides the audit by its text:
    the audit fails only when the text names an overall failure and no
    overall pass; any other text passes.  The feedback is the text. *)
Theorem unparsed_audit_response_verdict (remaining : nat) (cwd : str)
    (msgs : list Sessions.Message) (st : State W) (response : str) (w' : W) :
  streamCompletion msgs false (world st) = (Ok response, w') ->
  parseResponse response = None ->
  exists verdict,
    auditLoop (S remaining) cwd msgs st
    = (Ok verdict, {| world := w'; console := console st; session := session st;
                      llmCalls := llmCalls st |})
    /\ feedback verdict = response
    /\ passed verdict
       = (includes (lit "overall: pass") (toLowerCase response)
          || negb (includes (lit "overall: fail") (toLowerCase response))).
Proof.
  intros Hcall Hparse. cbn [auditLoop]. unfold bind at 1. unfold io at 1.
  rewrite Hcall. cbn iota beta. rewrite Hparse. unfold ret, unparsedVerdict.
  eexists. split; [reflexivity|].
  destruct (includes (lit "overall: pass") (toLowerCase response));
    destruct (includes (lit "overall: fail") (toLowerCase response)); auto.
Qed.

(** X21.  The audit reaches the host only through the model endpoint, directory
    listings, file reads and commands of the allow list: whatever the model
    answers, a property of the world that those operations preserve holds
    after the audit. *)
Theorem audit_only_reads (good : W -> Prop) (session : Sessions.Session)
    (doneSummary : str) (verbose : bool) (st : State W) :
  (forall msgs silent w, good w -> good (snd (streamCompletion msgs silent w))) ->
  (forall path cwd w, good w -> good (snd (listDirectory path cwd w))) ->
  (forall path cwd w, good w -> good (snd (readFile path cwd w))) ->
  (forall cmd cwd w, Command.isAuditAllowed cmd = true -> good w ->
     good (snd (executeCommand cmd cwd w))) ->
  good (world st) ->
  good (world (snd (runAudit session doneSummary verbose st))).
Proof.
  intros Hmodel Hlist Hread Hcmd.
  assert (Hio : forall A (f : W -> Res A * W) (k : A -> M W AuditResult) (s : State W),
             (forall w, good w -> good (snd (f w))) ->
             (forall a s1, good (world s1) -> good (world (snd (k a s1)))) ->
             good (world s) -> good (world (snd (bind (io f) k s)))).
  { intros A f k s Hf Hk Hs. unfold bind, io. specialize (Hf _ Hs).
    destruct (f (world s)) as [[a|e] w1]; simpl in *; [|exact Hf]. now apply Hk. }
  assert (Hloop : forall n cwd msgs s, good (world s) ->
                    good (world (snd (auditLoop n cwd msgs s)))).
  { induction n as [|n IH]; intros cwd msgs s Hs; cbn [auditLoop]; [exact Hs|].
    apply Hio; [intros w; apply Hmodel| |exact Hs]. intros response s1 Hs1.
    destruct (parseResponse response) as [parsed|]; [|exact Hs1].
    destruct (firstToolChoice parsed); try (now apply IH); try exact Hs1.
    - apply Hio; [intros w; apply Hlist| |exact Hs1]. intros r s2 Hs2. now apply IH.
    - apply Hio; [intros w; apply Hread| |exact Hs1]. intros r s2 Hs2. now apply IH.
    - destruct (Command.isAuditAllowed _) eqn:Eallowed; cbn [negb]; [|now apply IH].
      apply Hio; [intros w; now apply Hcmd| |exact Hs1]. intros r s2 Hs2. now apply IH. }
  intros Hst. unfold runAudit, bind.
  destruct verbose; cbn [consoleLog ret]; now apply Hloop.
Qed.

End AuditVerdicts.

Section AuditRounds.
Import JS Parser Eff Audit Host AuditHost AuditSamples.
Context {W : Type} `{Platform W}.

Lemma auditLoop_rounds (good : W -> Prop) (asked : W -> nat) :
  alwaysAnswers good (fun r => exists parsed, parseResponse r = Some parsed
                                              /\ firstToolChoice parsed <> DONE) ->
  toolsAnswer good ->
  countsRequests good asked ->
  forall n cwd msgs (s : State W), good (world s) ->
  exists s', auditLoop n cwd msgs s = (Ok roundLimitVerdict, s')
             /\ asked (world s') = asked (world s) + n.
Proof.
  intros Hans (Hlist & Hread & Hcmd) (Cmodel & Clist & Cread & Ccmd).
  assert (Hio : forall (f : W -> Res str * W) (k : str -> M W AuditResult) (s : State W) m,
             (forall w, good w -> exists r w', f w = (Ok r, w') /\ good w') ->
             (forall w, good w -> asked (snd (f w)) = asked w) ->
             (forall r s1, good (world s1) ->
                exists s', k r s1 = (Ok roundLimitVerdict, s')
                           /\ asked (world s') = asked (world s1) + m) ->
             good (world s) ->
             exists s', bind (io f) k s = (Ok roundLimitVerdict, s')
                        /\ asked (world s') = asked (world s) + m).
  { intros f k s m Hf Cf Hk Hs. unfold bind, io. specialize (Cf _ Hs).
    destruct (Hf _ Hs) as (r & w1 & Ef & Hw1). rewrite Ef in Cf |- *. cbn [snd] in Cf.
    destruct (Hk r {| world := w1; console := console s; session := session s;
                      llmCalls := llmCalls s |} Hw1) as (s' & Ek & Ck).
    exists s'. split; [exact Ek|]. cbn [world] in Ck. now rewrite Ck, Cf. }
  induction n as [|n IH]; intros cwd msgs s Hs; cbn [auditLoop].
  { exists s. split; [reflexivity|lia]. }
  unfold bind at 1. unfold io at 1.
  pose proof (Cmodel msgs false (world s) Hs) as Cnow.
  destruct (Hans msgs false (world s) Hs)
    as (response & w1 & Ef & (parsed & Eparse & Htool) & Hw1).
  rewrite Ef in Cnow |- *. cbn [snd] in Cnow. cbn iota beta. rewrite Eparse.
  assert (Hnext : forall msgs' (s1 : State W), good (world s1) ->
            asked (world s1) = S (asked (world s)) ->
            exists s', auditLoop n cwd msgs' s1 = (Ok roundLimitVerdict, s')
                       /\ asked (world s') = asked (world s) + S n).
  { intros msgs' s1 Hs1 Cs1. destruct (IH cwd msgs' s1 Hs1) as (s' & Es & Cs).
    exists s'. split; [exact Es|lia]. }
  assert (Htool' : forall (f : W -> Res str * W) (k : str -> list Sessions.Message),
            (forall w, good w -> exists r w', f w = (Ok r, w') /\ good w') ->
            (forall w, good w -> asked (snd (f w)) = asked w) ->
            exists s',
              bind (io f) (fun result => auditLoop n cwd (k result))
                {| world := w1; console := console s; session := session s;
                   llmCalls := llmCalls s |}
              = (Ok roundLimitVerdict, s')
              /\ asked (world s') = asked (world s) + S n).
  { intros f k Hf Cf.
    destruct (Hio f (fun result => auditLoop n cwd (k result))
                {| world := w1; console := console s; session := session s;
                   llmCalls := llmCalls s |} n Hf Cf) as (s' & Es & Cs).
    - intros r s1 Hs1. now apply IH.
    - exact Hw1.
    - exists s'. split; [exact Es|]. cbn [world] in Cs. lia. }
  destruct (firstToolChoice parsed); try congruence;
    try (now apply Hnext).
  - apply Htool'; intros w Hw; [apply Hlist|apply Clist]; exact Hw.
  - apply Htool'; intros w Hw; [apply Hread|apply Cread]; exact Hw.
  - destruct (Command.isAuditAllowed _); cbn [negb]; [|now apply Hnext].
    apply Htool'; intros w Hw; [apply Hcmd|apply Ccmd]; exact Hw.
Qed.

(** X22.  An audit that never says DONE passes, after twenty requests: when
    every response of the audit model parses and names a tool other than
    DONE, and the tools answer, the audit asks the model exactly twenty times
    ([asked] is any count of the requests, which the tools leave alone) and
    then ends with the verdict PASS of the round limit. *)
Theorem audit_passes_at_round_limit (good : W -> Prop) (asked : W -> nat)
    (session : Sessions.Session) (doneSummary : str) (verbose : bool) (st : State W) :
  alwaysAnswers good (fun r => exists parsed, parseResponse r = Some parsed
                                              /\ firstToolChoice parsed <> DONE) ->
  toolsAnswer good ->
  countsRequests good asked ->
  good (world st) ->
  exists st',
    runAudit session doneSummary verbose st
    = (Ok {| passed := true; feedback := lit "Audit completed (max iterations reached)" |}, st')
    /\ asked (world st') = asked (world st) + 20.
Proof.
  intros Hans Htools Hcount Hst. unfold runAudit, bind.
  destruct verbose; cbn [consoleLog ret];
    match goal with
    | |- exists st', auditLoop ?n ?cwd ?msgs ?s = _ /\ _ =>
        destruct (auditLoop_rounds good asked Hans Htools Hcount n cwd msgs s Hst)
          as (st' & Hrun & Hasked);
        exists st'; split; [exact Hrun|exact Hasked]
    end.
Qed.

End AuditRounds.

Section AuditRoundRuns.
Import JS Parser Eff Audit Host AuditHost AuditSamples Steady.

Lemma audit_passes_at_round_limit_witness :
  exists st',
    runAudit (Script.newSession (lit "task")) (lit "All done.") false
      (boot (Ok Script.readReply) (Script.newSession (lit "task")))
    = (Ok {| passed := true; feedback := lit "Audit completed (max iterations reached)" |}, st')
    /\ requests (world st') = 0 + 20.
Proof.
  assert (Hans : alwaysAnswers (fun w => answer w = Ok Script.readReply)
                   (fun r => exists parsed, parseResponse r = Some parsed
                                            /\ firstToolChoice parsed <> DONE)).
  { intros msgs silent w Hw. exists Script.readReply, (snd (respond w)).
    simpl. unfold respond. rewrite Hw. split; [reflexivity|]. split; [|reflexivity].
    eexists. split; [vm_compute; reflexivity|discriminate]. }
  assert (Htools : toolsAnswer (fun w => answer w = Ok Script.readReply)).
  { repeat split; intros; simpl; eauto. }
  assert (Hcount : countsRequests (fun w => answer w = Ok Script.readReply) requests).
  { repeat split; intros; reflexivity. }
  exact (audit_passes_at_round_limit (fun w => answer w = Ok Script.readReply) requests
           (Script.newSession (lit "task")) (lit "All done.") false
           (boot (Ok Script.readReply) (Script.newSession (lit "task")))
           Hans Htools Hcount eq_refl).
Defined.

Lemma audit_only_reads_witness :
  Forall (fun c => Command.isAuditAllowed c = true)
    (commands (world (snd (runAudit (Script.newSession (lit "task")) (lit "All done.") false
                             (boot (Ok wipeReply) (Script.newSession (lit "task"))))))).
Proof.
  apply (audit_only_reads (fun w => Forall (fun c => Command.isAuditAllowed c = true) (commands w))
           (Script.newSession (lit "task")) (lit "All done.") false
           (boot (Ok wipeReply) (Script.newSession (lit "task")))).
  - intros msgs silent w Hw. exact Hw.
  - intros path cwd w Hw. exact Hw.
  - intros path cwd w Hw. exact Hw.
  - intros cmd cwd w Hcmd Hw. simpl. apply Forall_app. split; [exact Hw|].
    constructor; [exact Hcmd|constructor].
  - constructor.
Defined.

End AuditRoundRuns.

Section AuditVerdictRuns.
Import JS Parser Eff Audit Script.

Lemma unparsed_audit_response_verdict_witness :
  exists verdict,
    auditLoop 20 (lit "/work") [] (boot [Ok (lit "Looks fine to me.")]
                                     (newSession (lit "task")))
    = (Ok verdict, boot [] (Script.newSession (lit "task")))
    /\ feedback verdict = lit "Looks fine to me."
    /\ passed verdict = true.
Proof.
  exact (unparsed_audit_response_verdict 19 (lit "/work") []
           (boot [Ok (lit "Looks fine to me.")] (Script.newSession (lit "task")))
           (lit "Looks fine to me.")
           (world (boot [] (Script.newSession (lit "task")))) eq_refl eq_refl).
Defined.

End AuditVerdictRuns.

Section RegistryFacts.
Import JS Command.

Lemma run_app (s : Invocation) (a b : list Event) : run s (a ++ b) = run (run s a) b.
Proof. unfold run. apply fold_left_app. Qed.

(** Output events only extend the captured output. *)
Lemma run_data (s : Invocation) (chunks : list str) :
  run s (map Data chunks)
  = {| theCommand := theCommand s; timeoutSeconds := timeoutSeconds s;
       out := out s ++ concat chunks;
       resolved := resolved s; timerArmed := timerArmed s; promotedAs := promotedAs s;
       processes := processes s; procCounter := procCounter s;
       resolveCalls := resolveCalls s |}.
Proof.
  revert s. induction chunks as [|c chunks IH]; intros s.
  - simpl. rewrite app_nil_r. now destruct s.
  - cbn [map]. change (run s (Data c :: map Data chunks))
      with (run (onData s c) (map Data chunks)).
    rewrite IH. simpl. now rewrite <- app_assoc.
Qed.

(** After the first [close] or [error] of a command that was not promoted,
    no event changes the registry, the counter or the calls to [resolve]. *)
Lemma run_finished (events : list Event) (s : Invocation) :
  resolved s = true -> timerArmed s = false -> promotedAs s = None ->
  processes (run s events) = processes s
  /\ procCounter (run s events) = procCounter s
  /\ resolveCalls (run s events) = resolveCalls s.
Proof.
  revert s. induction events as [|e events IH]; intros s Hr Ht Hp; [easy|].
  change (run s (e :: events)) with (run (deliver s e) events).
  assert (Hd : resolved (deliver s e) = true /\ timerArmed (deliver s e) = false
               /\ promotedAs (deliver s e) = None
               /\ processes (deliver s e) = processes s
               /\ procCounter (deliver s e) = procCounter s
               /\ resolveCalls (deliver s e) = resolveCalls s).
  { destruct e as [chunk|now date|code|msg]; simpl.
    - easy.
    - rewrite Ht. easy.
    - unfold onClose. simpl. rewrite Hr. unfold onCloseOfPromoted. simpl. rewrite Hp. easy.
    - unfold onError. simpl. rewrite Hr. easy. }
  destruct Hd as (Hr' & Ht' & Hp' & Hreg & Hcount & Hcalls).
  destruct (IH _ Hr' Ht' Hp') as (-> & -> & ->). easy.
Qed.

(** The state after the timer has fired on a pending command. *)
Lemma run_promoted (cmd : str) (timeoutSeconds : nat)
    (registry : gmap str BackgroundProcess) (counter : nat)
    (early : list str) (nowMs : N) (date : str) :
  let pid := genId (S counter) nowMs in
  run (start cmd timeoutSeconds registry counter) (map Data early ++ [TimerFires nowMs date])
  = {| theCommand := cmd; timeoutSeconds := timeoutSeconds; out := concat early;
       resolved := true; timerArmed := false; promotedAs := Some pid;
       processes := <[pid := {| id := pid; command := cmd; output := concat early;
                                exitCode := None; startedAt := date |}]> registry;
       procCounter := S counter;
       resolveCalls := [lit "Command timed out after " ++ showNat timeoutSeconds
                          ++ lit "s. Backgrounded as: " ++ pid] |}.
Proof. intros pid. rewrite run_app, run_data. reflexivity. Qed.

(** The state after a promoted command has closed. *)
Lemma run_closed (cmd : str) (timeoutSeconds : nat)
    (registry : gmap str BackgroundProcess) (counter : nat)
    (early late : list str) (nowMs : N) (date : str) (code : option nat) :
  let pid := genId (S counter) nowMs in
  run (run (start cmd timeoutSeconds registry counter)
         (map Data early ++ [TimerFires nowMs date]))
    (map Data late ++ [Close code])
  = {| theCommand := cmd; timeoutSeconds := timeoutSeconds;
       out := concat early ++ concat late;
       resolved := true; timerArmed := false; promotedAs := Some pid;
       processes := <[pid := {| id := pid; command := cmd;
                                output := concat early ++ concat late;
                                exitCode := code; startedAt := date |}]> registry;
       procCounter := S counter;
       resolveCalls := [lit "Command timed out after " ++ showNat timeoutSeconds
                          ++ lit "s. Backgrounded as: " ++ pid] |}.
Proof.
  intros pid. rewrite run_promoted, run_app, run_data.
  cbn [run fold_left deliver onClose clearTimeout resolved theCommand Command.timeoutSeconds
       out timerArmed promotedAs processes procCounter resolveCalls onCloseOfPromoted].
  rewrite lookup_insert_eq. cbn [id command startedAt]. now rewrite insert_insert_eq.
Qed.

(** X23.  A command that outlives its timeout is put in the registry under a new
    id, as running, with the output captured so far, and the promise
    settles to the message that names the id; when the process closes later,
    the entry takes the exit code and the whole output, and the settled value
    stays. *)
Theorem timed_out_command_is_backgrounded (cmd : str) (timeoutSeconds : nat)
    (registry : gmap str BackgroundProcess) (counter : nat)
    (early late : list str) (nowMs : N) (date : str) (code : option nat) :
  let pid := genId (S counter) nowMs in
  let promoted :=
    run (start cmd timeoutSeconds registry counter) (map Data early ++ [TimerFires nowMs date]) in
  let closed := run promoted (map Data late ++ [Close code]) in
  result promoted
  = Some (lit "Command timed out after " ++ showNat timeoutSeconds
            ++ lit "s. Backgrounded as: " ++ pid)
  /\ processes promoted
     = <[pid := {| id := pid; command := cmd; output := concat early;
                   exitCode := None; startedAt := date |}]> registry
  /\ procCounter promoted = S counter
  /\ processes closed
     = <[pid := {| id := pid; command := cmd; output := concat early ++ concat late;
                   exitCode := code; startedAt := date |}]> registry
  /\ result closed = result promoted.
Proof.
  intros pid promoted closed. unfold closed, promoted.
  rewrite run_closed, run_promoted. repeat split.
Qed.

(** X24.  A command that ends, or fails to start, before its timer fires never
    enters the registry: whatever events follow, the registry and the
    counter stay as they were, and the promise has settled to the text of
    that first event: the output (or a placeholder) for exit code 0, the exit
    code and the output otherwise, the message for an error. *)
Theorem finished_command_leaves_registry (cmd : str) (timeoutSeconds : nat)
    (registry : gmap str BackgroundProcess) (counter : nat)
    (chunks : list str) (later : list Event) :
  let s0 := start cmd timeoutSeconds registry counter in
  (forall code,
     let s := run s0 (map Data chunks ++ Close code :: later) in
     processes s = registry /\ procCounter s = counter
     /\ result s = Some (match code with
                         | Some 0 => match concat chunks with
                                     | [] => lit "(no output)"
                                     | text => text
                                     end
                         | _ => lit "Exit code " ++ showCode code ++ [nl] ++ concat chunks
                         end))
  /\ (forall message,
        let s := run s0 (map Data chunks ++ Error message :: later) in
        processes s = registry /\ procCounter s = counter
        /\ result s = Some (lit "Error: " ++ message)).
Proof.
  intros s0. split.
  - intros code s. unfold s. rewrite run_app, run_data.
    change (run ?x (Close code :: later)) with (run (deliver x (Close code)) later).
    match goal with |- context [run ?x later] =>
      destruct (run_finished later x eq_refl eq_refl eq_refl) as (Hreg & Hcount & Hcalls)
    end.
    unfold result. rewrite Hreg, Hcount, Hcalls. repeat split.
    destruct code as [[|k]|]; try reflexivity.
    cbn. destruct (concat chunks); reflexivity.
  - intros message s. unfold s. rewrite run_app, run_data.
    change (run ?x (Error message :: later)) with (run (deliver x (Error message)) later).
    match goal with |- context [run ?x later] =>
      destruct (run_finished later x eq_refl eq_refl eq_refl) as (Hreg & Hcount & Hcalls)
    end.
    unfold result. rewrite Hreg, Hcount, Hcalls. repeat split.
Qed.

End RegistryFacts.

Section IdFacts.
Import JS Command Registry.

Lemma value36_digit36 (d : N) : (d < 36)%N -> value36 (digit36 d) = d.
Proof.
  intros Hd. unfold value36, digit36. destruct (d <? 10)%N eqn:E.
  - apply N.ltb_lt in E. rewrite N_ascii_embedding by lia.
    replace (48 + d <? 58)%N with true by (symmetry; apply N.ltb_lt; lia). lia.
  - apply N.ltb_ge in E. rewrite N_ascii_embedding by lia.
    replace (87 + d <? 58)%N with false by (symmetry; apply N.ltb_ge; lia). lia.
Qed.

Lemma size_nat_gt (n : N) : (n < 2 ^ N.of_nat (N.size_nat n))%N.
Proof.
  destruct n as [|p]; [reflexivity|]. simpl N.size_nat.
  induction p as [p IH|p IH|]; cbn [Pos.size_nat].
  - rewrite Nat2N.inj_succ, N.pow_succ_r'. lia.
  - rewrite Nat2N.inj_succ, N.pow_succ_r'. lia.
  - reflexivity.
Qed.

(** With enough fuel the numeral is complete: it is read back as the number,
    and the number is below [36] to the count of its digits. *)
Lemma toString36Fuel_read (fuel : nat) :
  forall n acc, (n < 2 ^ N.of_nat fuel)%N ->
  exists ds,
    toString36Fuel (S fuel) n acc = ds ++ acc
    /\ (forall a, fold_left (fun a c => (a * 36 + value36 c)%N) ds a
                  = (a * 36 ^ N.of_nat (length ds) + n)%N)
    /\ (n < 36 ^ N.of_nat (length ds))%N.
Proof.
  induction fuel as [|fuel IH]; intros n acc Hn.
  - assert (n = 0%N) by (simpl in Hn; lia). subst n.
    exists [digit36 0]. split; [reflexivity|]. split; [|reflexivity].
    intros a. cbn [fold_left length]. rewrite value36_digit36 by lia.
    change (36 ^ N.of_nat 1)%N with 36%N. lia.
  - cbn [toString36Fuel]. destruct (n <? 36)%N eqn:E.
    + apply N.ltb_lt in E. exists [digit36 (n mod 36)]. split; [reflexivity|].
      split; [|change (36 ^ N.of_nat 1)%N with 36%N; exact E]. intros a. cbn [fold_left length].
      rewrite value36_digit36 by (apply N.mod_lt; lia).
      rewrite N.mod_small by exact E. change (36 ^ N.of_nat 1)%N with 36%N. lia.
    + apply N.ltb_ge in E.
      assert (Hq : (n / 36 < 2 ^ N.of_nat fuel)%N).
      { apply N.Div0.div_lt_upper_bound.
        rewrite Nat2N.inj_succ, N.pow_succ_r' in Hn. lia. }
      destruct (IH (n / 36)%N (digit36 (n mod 36) :: acc) Hq) as (ds & Hds & Hread & Hlt).
      cbn [toString36Fuel] in Hds. rewrite Hds.
      exists (ds ++ [digit36 (n mod 36)]). split; [now rewrite <- app_assoc|].
      pose proof (N.div_mod n 36 ltac:(lia)) as Hdm.
      pose proof (N.mod_lt n 36 ltac:(lia)) as Hr.
      rewrite length_app, Nat.add_comm. cbn [length Nat.add].
      rewrite Nat2N.inj_succ, N.pow_succ_r'. split; [|lia].
      intros a. rewrite fold_left_app. cbn [fold_left]. rewrite Hread.
      rewrite value36_digit36 by exact Hr. lia.
Qed.

Lemma toString36_read (n : N) :
  parse36 (toString36 n) = n /\ (n < 36 ^ N.of_nat (length (toString36 n)))%N.
Proof.
  unfold toString36, parse36.
  destruct (toString36Fuel_read (N.size_nat n) n [] (size_nat_gt n)) as (ds & -> & Hread & Hlt).
  rewrite app_nil_r. split; [|exact Hlt]. rewrite Hread. lia.
Qed.

Lemma toString36_long (n : N) : (46656 <= n)%N -> 4 <= length (toString36 n).
Proof.
  intros Hn. destruct (toString36_read n) as [_ Hlt].
  destruct (length (toString36 n)) as [|[|[|[|k]]]]; simpl in Hlt; lia.
Qed.

(** X26.  The ids made for two different values of the counter differ, whatever
    the clock shows (from 46656 ms after the epoch on, when the time stamp
    has its four characters). *)
Theorem genId_separates_counters (counter1 counter2 : nat) (now1 now2 : N) :
  (46656 <= now1)%N -> (46656 <= now2)%N ->
  counter1 <> counter2 ->
  genId counter1 now1 <> genId counter2 now2.
Proof.
  intros H1 H2 Hne Heq. apply Hne. unfold genId in Heq. apply app_inv_head in Heq.
  apply app_inj_2 in Heq as [Heq _].
  - apply Nat2N.inj. destruct (toString36_read (N.of_nat counter1)) as [<- _].
    destruct (toString36_read (N.of_nat counter2)) as [<- _]. now rewrite Heq.
  - pose proof (toString36_long now1 H1). pose proof (toString36_long now2 H2).
    rewrite !length_skipn. lia.
Qed.

Lemma genId_separates_counters_witness :
  genId 1 1700000000000 <> genId 37 1700000000000.
Proof.
  exact (genId_separates_counters 1 37 1700000000000 1700000000000
           ltac:(vm_compute; discriminate) ltac:(vm_compute; discriminate)
           ltac:(discriminate)).
Defined.

End IdFacts.

Section RegistryReads.
Import JS Command Registry.

(** X25.  What READ_BACKGROUND_PROCESS and KILL_BACKGROUND_PROCESS say of a
    promoted command.  While it runs it reads as running and a kill signals
    it.  Once it has closed with an exit code it reads as exited and a kill
    does not signal it.  When it closes without an exit code, ended by a
    signal, it still reads as running and a kill signals it again. *)
Theorem background_process_status (cmd : str) (timeoutSeconds : nat)
    (registry : gmap str BackgroundProcess) (counter : nat)
    (early late : list str) (nowMs : N) (date : str) (kill : Eff.Res unit) :
  let pid := genId (S counter) nowMs in
  let promoted :=
    run (start cmd timeoutSeconds registry counter) (map Data early ++ [TimerFires nowMs date]) in
  let closed code := run promoted (map Data late ++ [Close code]) in
  let report status text :=
    lit "[" ++ pid ++ lit "] " ++ status ++ [nl] ++ lit "Command: " ++ cmd ++ [nl; nl]
      ++ match text with [] => lit "(no output yet)" | o => o end in
  readBackgroundProcess (processes promoted) pid = report (lit "Running") (concat early)
  /\ snd (killBackgroundProcess (processes promoted) kill pid) = true
  /\ (forall code,
        readBackgroundProcess (processes (closed (Some code))) pid
        = report (lit "Exited (" ++ showNat code ++ lit ")") (concat early ++ concat late)
        /\ killBackgroundProcess (processes (closed (Some code))) kill pid
           = (lit "Process already exited with code " ++ showNat code, false))
  /\ readBackgroundProcess (processes (closed None)) pid
     = report (lit "Running") (concat early ++ concat late)
  /\ snd (killBackgroundProcess (processes (closed None)) kill pid) = true.
Proof.
  intros pid promoted closed report.
  assert (Hc : forall code, processes (closed code)
               = <[pid := {| id := pid; command := cmd; output := concat early ++ concat late;
                             exitCode := code; startedAt := date |}]> registry).
  { intros code. unfold closed, promoted. now rewrite run_closed. }
  assert (Hp : processes promoted
               = <[pid := {| id := pid; command := cmd; output := concat early;
                             exitCode := None; startedAt := date |}]> registry).
  { unfold promoted. now rewrite run_promoted. }
  unfold readBackgroundProcess, killBackgroundProcess, report.
  rewrite Hp, !lookup_insert_eq. cbn [exitCode command output snd].
  split; [now destruct (concat early)|]. split; [reflexivity|]. split.
  - intros code. rewrite Hc, !lookup_insert_eq. cbn [exitCode command output].
    split; [now destruct (concat early ++ concat late)|reflexivity].
  - rewrite Hc, !lookup_insert_eq. cbn [exitCode command output snd].
    split; [now destruct (concat early ++ concat late)|reflexivity].
Qed.

End RegistryReads.

Section AllowList.
Import JS Command.

Lemma afterWord_starts (w s rest : str) : afterWord w s = Some rest -> startsWith w s = true.
Proof. unfold afterWord. destruct (startsWith w s); [reflexivity|discriminate]. Qed.

Lemma wordThenSpace_starts (w s : str) : wordThenSpace w s = true -> startsWith w s = true.
Proof.
  unfold wordThenSpace. destruct (afterWord w s) eqn:E; [|discriminate].
  intros _. eapply afterWord_starts, E.
Qed.

Lemma wordThenBoundary_starts (w s : str) : wordThenBoundary w s = true -> startsWith w s = true.
Proof.
  unfold wordThenBoundary. destruct (afterWord w s) eqn:E; [|discriminate].
  intros _. eapply afterWord_starts, E.
Qed.

Lemma wordSpacesOneOf_starts (w : str) (alts : list (str -> bool)) (s : str) :
  wordSpacesOneOf w alts s = true -> startsWith w s = true.
Proof.
  unfold wordSpacesOneOf. destruct (afterWord w s) eqn:E; [|discriminate].
  intros _. eapply afterWord_starts, E.
Qed.

(** X27.  The allow list of the audit looks at the head of the command only.  A
    command is allowed only if, once trimmed, it starts with one of nine
    words; and a command that starts with [cat] and a space is allowed
    whatever follows, a second command included. *)
Theorem audit_allow_list_checks_the_head (cmd rest : str) (c : ascii) :
  (isAuditAllowed cmd = true ->
   exists w, In w [lit "cat"; lit "head"; lit "tail"; lit "ls"; lit "dir"; lit "tree";
                   lit "git"; lit "npm"; lit "type"]
             /\ startsWith w (trim cmd) = true)
  /\ (isSpace c = false -> isAuditAllowed (lit "cat " ++ rest ++ [c]) = true).
Proof.
  split.
  - unfold isAuditAllowed. cbv zeta. intros Hallowed.
    repeat (apply orb_true_iff in Hallowed as [Hallowed | Hallowed]);
      [ apply wordThenSpace_starts in Hallowed
      | apply wordThenSpace_starts in Hallowed
      | apply wordThenSpace_starts in Hallowed
      | apply wordThenBoundary_starts in Hallowed
      | apply wordThenBoundary_starts in Hallowed
      | apply wordThenBoundary_starts in Hallowed
      | apply wordSpacesOneOf_starts in Hallowed
      | apply wordSpacesOneOf_starts in Hallowed
      | apply wordThenSpace_starts in Hallowed ];
      eexists; (split; [|exact Hallowed]); simpl; tauto.
  - intros Hc. unfold isAuditAllowed. cbv zeta.
    assert (Htrim : trim (lit "cat " ++ rest ++ [c]) = lit "cat " ++ rest ++ [c]).
    { unfold trim, trimStart.
      change (dropWhile isSpace (lit "cat " ++ rest ++ [c])) with (lit "cat " ++ rest ++ [c]).
      rewrite <- (app_nil_r (lit "cat " ++ rest ++ [c])) at 1.
      apply trimEnd_app_spaces; [reflexivity|].
      rewrite !app_assoc, rev_app_distr. simpl. exact Hc. }
    rewrite Htrim. reflexivity.
Qed.

Lemma audit_allow_list_checks_the_head_witness :
  (exists w, In w [lit "cat"; lit "head"; lit "tail"; lit "ls"; lit "dir"; lit "tree";
                   lit "git"; lit "npm"; lit "type"]
             /\ startsWith w (trim (lit " git  log --oneline")) = true)
  /\ isAuditAllowed (lit "cat " ++ lit "notes.txt; rm -rf buil" ++ ["d"%char]) = true.
Proof.
  split.
  - exact (proj1 (audit_allow_list_checks_the_head (lit " git  log --oneline") [] "d") eq_refl).
  - exact (proj2 (audit_allow_list_checks_the_head [] (lit "notes.txt; rm -rf buil") "d")
             eq_refl).
Defined.

End AllowList.

Section ReplaceFacts.
Import JS Eff Filesystem.

Lemma splitFrom_cons (sep s : str) (skip : nat) (piece : str) :
  exists p ps, splitFrom sep s skip piece = p :: ps.
Proof.
  revert skip piece. induction s as [|c s IH]; intros skip piece; cbn [splitFrom]; eauto.
  destruct skip; [|apply IH]. destruct (startsWith sep (c :: s)); eauto.
Qed.

Lemma join_cons (sep p : str) (ps : list str) :
  ps <> [] -> join sep (p :: ps) = p ++ sep ++ join sep ps.
Proof. destruct ps; [congruence|reflexivity]. Qed.

Lemma startsWith_length (p s : str) : startsWith p s = true -> length p <= length s.
Proof. intros Hs. apply startsWith_inv in Hs as [r ->]. rewrite length_app. lia. Qed.

(** Joining the pieces with the separator gives the text back. *)
Lemma join_splitFrom (sep s : str) :
  sep <> [] ->
  forall skip piece, skip <= length s ->
  join sep (splitFrom sep s skip piece) = piece ++ skipn skip s.
Proof.
  intros Hsep. induction s as [|c s IH]; intros skip piece Hskip; cbn [splitFrom].
  - simpl in Hskip. replace skip with 0 by lia. simpl. now rewrite app_nil_r.
  - destruct skip as [|k].
    + destruct (startsWith sep (c :: s)) eqn:E.
      * pose proof (startsWith_length _ _ E) as Hlen. simpl in Hlen.
        destruct (splitFrom_cons sep s (length sep - 1) []) as (p & ps & Hsplit).
        rewrite join_cons by (rewrite Hsplit; discriminate).
        rewrite IH by lia. cbn [app skipn].
        apply startsWith_inv in E as [r E]. rewrite E. f_equal.
        destruct sep as [|d sep]; [congruence|].
        simpl in E. injection E as -> ->. cbn [length].
        replace (S (length sep) - 1) with (length sep) by lia.
        rewrite skipn_app, skipn_all, Nat.sub_diag. reflexivity.
      * rewrite IH by lia. cbn [skipn]. now rewrite <- app_assoc.
    + rewrite IH by (simpl in Hskip; lia). reflexivity.
Qed.

Lemma length_splitFrom (sep s : str) :
  forall skip piece, length (splitFrom sep s skip piece) = S (countFrom sep s skip).
Proof.
  induction s as [|c s IH]; intros skip piece; cbn [splitFrom countFrom]; [reflexivity|].
  destruct skip as [|k]; [|apply IH].
  destruct (startsWith sep (c :: s)); cbn [length]; now rewrite IH.
Qed.

(** A text in which the pattern occurs has a first match. *)
Lemma countFrom_occurs (find a b : str) :
  1 <= countFrom find (a ++ find ++ b) 0 \/ find = [].
Proof.
  destruct find as [|f find]; [now right|left].
  remember (length a) as n eqn:Hn. revert a Hn.
  induction n as [n IH] using lt_wf_ind. intros a Hn.
  destruct a as [|c a].
  - cbn [app countFrom]. pose proof (startsWith_app (f :: find) b) as Hs.
    cbn [app] in Hs. rewrite Hs. lia.
  - cbn [app countFrom].
    match goal with |- context [startsWith ?p ?s] => destruct (startsWith p s) end.
    + lia.
    + apply (IH (length a) ltac:(simpl in Hn; lia) a eq_refl).
Qed.

Lemma countFrom_absent (find s : str) :
  includes find s = false -> forall skip, countFrom find s skip = 0.
Proof.
  induction s as [|c s IH]; intros Hno skip; cbn [countFrom]; [reflexivity|].
  assert (Hs : includes find s = false).
  { destruct (includes find s) eqn:E; [|reflexivity].
    apply includes_iff in E as (a & b & ->).
    assert (includes find (c :: a ++ find ++ b) = true)
      by (apply includes_iff; now exists (c :: a), b).
    congruence. }
  destruct skip; [|now apply IH].
  destruct (startsWith find (c :: s)) eqn:E; [|now apply IH].
  apply startsWith_inv in E as [r E].
  assert (includes find (c :: s) = true) by (apply includes_iff; exists [], r; now rewrite E).
  congruence.
Qed.

End ReplaceFacts.

Section ReplaceTool.
Import JS Eff Filesystem.
Context {W : Type} `{Fs W}.

(** X28.  For a pattern that is not empty: replacing the pattern by itself gives
    the content back; the count that is reported is the number of
    replacements made, one less than the number of pieces; and it is at least
    one exactly when the pattern occurs. *)
Theorem replace_all_counts (find content : str) :
  find <> [] ->
  replaceAll find find content = content
  /\ length (split find content) = S (countMatches find content)
  /\ (includes find content = true <-> 1 <= countMatches find content).
Proof.
  intros Hfind. unfold replaceAll, split, countMatches.
  destruct find as [|f find]; [congruence|]. split; [|split].
  - now rewrite join_splitFrom by (auto; lia).
  - apply length_splitFrom.
  - split.
    + intros Hin. apply includes_iff in Hin as (a & b & ->).
      destruct (countFrom_occurs (f :: find) a b); [assumption|discriminate].
    + intros Hcount. destruct (includes (f :: find) content) eqn:E; [reflexivity|].
      rewrite (countFrom_absent _ _ E) in Hcount. lia.
Qed.

(** X29.  FIND_AND_REPLACE_IN_FILE on a file that is there and can be read: when
    the pattern does not occur nothing is written; when it occurs the file is
    written once, with every occurrence replaced, and the answer gives the
    count of the matches. *)
Theorem findAndReplace_outcomes (path find replace cwd content : str) (w : W) :
  let file := target path cwd in
  existsSync file w = true ->
  readFileSync file w = Ok content ->
  (includes find content = false ->
   findAndReplace path find replace cwd w = (lit "Pattern not found in file: " ++ file, w))
  /\ (forall w',
        includes find content = true ->
        writeFileSync file (replaceAll find replace content) w = (Ok tt, w') ->
        findAndReplace path find replace cwd w
        = (lit "Replaced " ++ showNat (countMatches find content)
             ++ lit " occurrence(s) in: " ++ file, w')).
Proof.
  intros file Hexists Hread. unfold findAndReplace. fold file. rewrite Hexists, Hread.
  cbn [negb]. split.
  - now intros ->.
  - intros w' -> ->. reflexivity.
Qed.

(** X30.  An empty pattern occurs in every content: the replacement is then put
    between every two characters of the file, and the count reported is one
    more than the length of the content. *)
Theorem empty_find_text_matches_everywhere (path replace cwd content : str) (w w' : W) :
  let file := target path cwd in
  existsSync file w = true ->
  readFileSync file w = Ok content ->
  writeFileSync file (join replace (map (fun c => [c]) content)) w = (Ok tt, w') ->
  findAndReplace path [] replace cwd w
  = (lit "Replaced " ++ showNat (S (length content)) ++ lit " occurrence(s) in: " ++ file, w').
Proof.
  intros file Hexists Hread Hwrite. unfold findAndReplace. fold file.
  rewrite Hexists, Hread. cbn [negb].
  assert (Hin : includes [] content = true) by now destruct content.
  rewrite Hin. cbn [negb]. unfold replaceAll, split, countMatches. now rewrite Hwrite.
Qed.

End ReplaceTool.

Section ReplaceToolRuns.
Import JS Eff Filesystem Disk.

Lemma replace_all_counts_witness :
  replaceAll (lit "aa") (lit "aa") (lit "aaa") = lit "aaa"
  /\ length (split (lit "aa") (lit "aaa")) = S (countMatches (lit "aa") (lit "aaa"))
  /\ (includes (lit "aa") (lit "aaa") = true <-> 1 <= countMatches (lit "aa") (lit "aaa")).
Proof. exact (replace_all_counts (lit "aa") (lit "aaa") ltac:(discriminate)). Defined.

Lemma findAndReplace_outcomes_witness :
  findAndReplace (lit "a.txt") (lit "cat") (lit "dog") (lit "/work")
    (<[lit "/work/a.txt" := lit "cat and cat"]> ∅)
  = (lit "Replaced 2 occurrence(s) in: /work/a.txt",
     <[lit "/work/a.txt" := lit "dog and dog"]> (<[lit "/work/a.txt" := lit "cat and cat"]> ∅)).
Proof.
  assert (Hexists : existsSync (target (lit "a.txt") (lit "/work"))
                      (<[lit "/work/a.txt" := lit "cat and cat"]> ∅ : World) = true).
  { change (target (lit "a.txt") (lit "/work")) with (lit "/work/a.txt").
    cbn [existsSync disk]. apply bool_decide_eq_true. rewrite lookup_insert_eq. eauto. }
  assert (Hread : readFileSync (target (lit "a.txt") (lit "/work"))
                    (<[lit "/work/a.txt" := lit "cat and cat"]> ∅ : World)
                  = Ok (lit "cat and cat")).
  { change (target (lit "a.txt") (lit "/work")) with (lit "/work/a.txt").
    cbn [readFileSync disk]. now rewrite lookup_insert_eq. }
  exact (proj2 (findAndReplace_outcomes (lit "a.txt") (lit "cat") (lit "dog") (lit "/work")
                  (lit "cat and cat") (<[lit "/work/a.txt" := lit "cat and cat"]> ∅)
                  Hexists Hread) _ eq_refl eq_refl).
Defined.

Lemma empty_find_text_matches_everywhere_witness :
  findAndReplace (lit "a.txt") [] (lit "-") (lit "/work") (<[lit "/work/a.txt" := lit "abc"]> ∅)
  = (lit "Replaced 4 occurrence(s) in: /work/a.txt",
     <[lit "/work/a.txt" := lit "a-b-c"]> (<[lit "/work/a.txt" := lit "abc"]> ∅)).
Proof.
  assert (Hexists : existsSync (target (lit "a.txt") (lit "/work"))
                      (<[lit "/work/a.txt" := lit "abc"]> ∅ : World) = true).
  { change (target (lit "a.txt") (lit "/work")) with (lit "/work/a.txt").
    cbn [existsSync disk]. apply bool_decide_eq_true. rewrite lookup_insert_eq. eauto. }
  assert (Hread : readFileSync (target (lit "a.txt") (lit "/work"))
                    (<[lit "/work/a.txt" := lit "abc"]> ∅ : World) = Ok (lit "abc")).
  { change (target (lit "a.txt") (lit "/work")) with (lit "/work/a.txt").
    cbn [readFileSync disk]. now rewrite lookup_insert_eq. }
  exact (empty_find_text_matches_everywhere (lit "a.txt") (lit "-") (lit "/work") (lit "abc")
           (<[lit "/work/a.txt" := lit "abc"]> ∅) _ Hexists Hread eq_refl).
Defined.

End ReplaceToolRuns.

Section ThinkingFacts.
Import JS Parser Eff Frame.
Context {W : Type} `{Platform W}.

(** Saving touches nothing of the session but the time of the update. *)
Lemma saveSession_session (s : State W) :
  session (snd (Agent.saveSession s)) = session s
  \/ exists t, session (snd (Agent.saveSession s)) = Sessions.withUpdatedAt (session s) t.
Proof.
  unfold Agent.saveSession, bind, io, pureIo, modifySession, getSession.
  destruct (ensureDirs (world s)) as [[[]|e] w1]; cbn; [|now left].
  destruct (toISOString w1) as [t w2]. cbn.
  destruct (writeSessionFiles _ w2) as [[[]|e] w3]; cbn; right; now exists t.
Qed.

(** X19.  The reflection step never stops the loop by itself, and a failed
    reflection leaves a trace: when the request of the thinking step fails,
    [performThinking] returns the failure as its text, with no tokens, and
    the loop records that text in the history as an assistant message, like
    a reflection. *)
Theorem failed_reflection_is_recorded (context toolResult content : str) (st : State W)
    (e : str) (w' : W) :
  (forall msgs, streamCompletion msgs true (world st) = (Throw e, w')) ->
  Thinking.performThinking context toolResult st
  = (Ok {| Thinking.thinking := lit "(Thinking failed: " ++ e ++ lit ")"; Thinking.tokens := 0 |},
     {| world := w'; console := console st; session := session st; llmCalls := llmCalls st |})
  /\ hist (snd (Agent.reflect content st))
     = hist st ++ [Agent.message Sessions.assistant
                     (lit "[Internal Reasoning]" ++ [nl] ++ lit "(Thinking failed: " ++ e ++ lit ")")]
  /\ Sessions.totalTokens (session (snd (Agent.reflect content st)))
     = Sessions.totalTokens (session st).
Proof.
  intros Hfail.
  assert (Hthink : forall c t,
            Thinking.performThinking c t st
            = (Ok {| Thinking.thinking := lit "(Thinking failed: " ++ e ++ lit ")";
                     Thinking.tokens := 0 |},
               {| world := w'; console := console st; session := session st;
                  llmCalls := llmCalls st |})).
  { intros c t. unfold Thinking.performThinking, tryCatch, bind, io. rewrite Hfail. reflexivity. }
  split; [apply Hthink|].
  assert (Hr : exists s2,
             snd (Agent.reflect content st) = snd (Agent.saveSession s2)
             /\ hist s2
                = hist st ++ [Agent.message Sessions.assistant
                                (lit "[Internal Reasoning]" ++ [nl]
                                   ++ lit "(Thinking failed: " ++ e ++ lit ")")]
             /\ Sessions.totalTokens (session s2) = Sessions.totalTokens (session st)).
  { unfold Agent.reflect. unfold bind at 1. unfold getSession at 1. cbn iota beta.
    unfold bind at 1. rewrite Hthink. cbn iota beta. cbn [Thinking.thinking Thinking.tokens].
    change (lit "(Thinking failed: " ++ e ++ lit ")")
      with ("("%char :: lit "Thinking failed: " ++ e ++ lit ")").
    cbn iota.
    unfold bind at 1. unfold Agent.pushHistory at 1, modifySession at 1. cbn iota beta.
    unfold bind at 1. unfold modifySession at 1. cbn iota beta.
    eexists. split; [reflexivity|]. unfold hist. cbn. rewrite Nat.add_0_r. auto. }
  destruct Hr as (s2 & -> & Hhist & Htokens).
  destruct (keeps_saveSession s2) as (Hh & _ & _ & _).
  destruct (saveSession_session s2) as [Hs | [t Hs]]; rewrite Hh, Hs; auto.
Qed.

End ThinkingFacts.

Section ThinkingRuns.
Import JS Parser Eff Frame Script.

Lemma failed_reflection_is_recorded_witness :
  hist (snd (Agent.reflect (lit "Tool results:") (boot [] (newSession (lit "task")))))
  = [Agent.message Sessions.assistant
       (lit "[Internal Reasoning]" ++ [nl] ++ lit "(Thinking failed: fetch failed)")].
Proof.
  exact (proj1 (proj2 (failed_reflection_is_recorded [] [] (lit "Tool results:")
                         (boot [] (newSession (lit "task"))) (lit "fetch failed")
                         (world (boot [] (newSession (lit "task")))) (fun _ => eq_refl)))).
Defined.

End ThinkingRuns.
